(** * Speck viewer: parser, dependency sorter, layout, visibility and routing

    A shallow embedding of [speck-server.py]: the Python parser
    ([sort_children], [parse_speck_tree]) and the JavaScript client embedded in
    the served page ([computeSize], [computePositions], [connectionPoints],
    [computeArrowPath], [isModVisible], [isFnVisible], [resolveVisible],
    [updateArrows] and the expand/collapse handlers), with the properties the
    specification states about them. *)

From Stdlib Require Import Ascii String ZArith QArith Qminmax Lia Lqa.
From stdpp Require Import gmap strings list fin_maps.

Local Open Scope string_scope.
Local Open Scope list_scope.

(** ** Strings

    Python's [str.split(sep)] and JavaScript's [String.prototype.split(sep)]
    agree for a non-empty separator; [split] is that function ([skip] counts
    the characters of a separator still to be passed over).  It is only used
    with the separators ["/"] and ["::"]. *)

Fixpoint split_go (sep : string) (skip : nat) (acc s : string) : list string :=
  match s with
  | EmptyString => [acc]
  | String c s' =>
      match skip with
      | S k => split_go sep k acc s'
      | O =>
          if String.prefix sep s
          then acc :: split_go sep (String.length sep - 1) "" s'
          else split_go sep 0 (acc +:+ String c "") s'
      end
  end.

Definition split (sep s : string) : list string := split_go sep 0 "" s.

(** [sep.join(l)] / [l.join(sep)]. *)
Definition join (sep : string) (l : list string) : string := String.concat sep l.

(** [s.split("/")[-1]]. *)
Definition last_segment (s : string) : string := List.last (split "/" s) "".

(** The text before the last occurrence of [sep], if there is one. *)
Fixpoint rsplit_head (sep s : string) : option string :=
  match s with
  | EmptyString => None
  | String c s' =>
      match rsplit_head sep s' with
      | Some h => Some (String c h)
      | None => if String.prefix sep s then Some "" else None
      end
  end.

(** [s.rsplit("::", 1)[0]]. *)
Definition rsplit_first (s : string) : string := default s (rsplit_head "::" s).

(** A string without the character ["/"]: a path segment. *)
Fixpoint slashfree (s : string) : bool :=
  match s with
  | EmptyString => true
  | String c s' => negb (Ascii.eqb c "/") && slashfree s'
  end.

(** A string without the character [":"]: what the word pattern of a name
    matches holds none. *)
Fixpoint colonfree (s : string) : bool :=
  match s with
  | EmptyString => true
  | String c s' => negb (Ascii.eqb c ":") && colonfree s'
  end.

(** ** Outcomes

    A Python dictionary subscript on a missing key raises [KeyError]; reading a
    property of [undefined] in JavaScript raises [TypeError]; unbounded loops
    and recursions are run on fuel. *)

Inductive exn : Type := KeyError | TypeError.

Inductive outcome (A : Type) : Type :=
  | Returns (a : A)
  | Raises (e : exn)
  | OutOfFuel.
Arguments Returns {A} a.
Arguments Raises {A} e.
Arguments OutOfFuel {A}.

Definition obind {A B} (o : outcome A) (k : A → outcome B) : outcome B :=
  match o with
  | Returns a => k a
  | Raises e => Raises e
  | OutOfFuel => OutOfFuel
  end.

#[global] Instance outcome_bind : MBind outcome := λ A B k o, obind o k.

(** [d[k]] for a Python dictionary. *)
Definition subscript {V} (d : gmap string V) (k : string) : outcome V :=
  match d !! k with
  | Some v => Returns v
  | None => Raises KeyError
  end.

Module Sorter.

(** [{cp.split("/")[-1]: cp for cp in children}]: a later child wins. *)
Definition name_to_path_of (children : list string) : gmap string string :=
  fold_left (λ m cp, <[last_segment cp := cp]> m) children ∅.

(** [{cp: v for cp in children}]. *)
Definition const_dict {V} (v : V) (children : list string) : gmap string V :=
  fold_left (λ m cp, <[cp := v]> m) children ∅.

(** The two dictionaries the sorter mutates. *)
Record graph := Graph {
  in_deg : gmap string Z;
  adj : gmap string (list string)
}.

(** Body of the inner [for dep_name in child_deps.get(cname, [])] loop.
    [if dep_path:] holds for a path that is found and is not the empty
    string. *)
Definition add_dep (name_to_path : gmap string string) (cp : string)
    (g : graph) (dep_name : string) : outcome graph :=
  match name_to_path !! dep_name with
  | None => Returns g
  | Some dep_path =>
      if decide (dep_path = "") then Returns g
      else
        l ← subscript (adj g) cp ;
        n ← subscript (in_deg g) dep_path ;
        Returns (Graph (<[dep_path := (n + 1)%Z]> (in_deg g))
                       (<[cp := l ++ [dep_path]]> (adj g)))
  end.

Fixpoint add_deps (name_to_path : gmap string string) (cp : string)
    (g : graph) (dep_names : list string) : outcome graph :=
  match dep_names with
  | [] => Returns g
  | d :: ds => g' ← add_dep name_to_path cp g d ; add_deps name_to_path cp g' ds
  end.

(** The outer [for cp in children] loop that fills [adj] and [in_deg]. *)
Fixpoint build (name_to_path : gmap string string)
    (child_deps : gmap string (list string)) (g : graph)
    (cps : list string) : outcome graph :=
  match cps with
  | [] => Returns g
  | cp :: rest =>
      g' ← add_deps name_to_path cp g (default [] (child_deps !! last_segment cp)) ;
      build name_to_path child_deps g' rest
  end.

(** [for dep in adj[node]: in_deg[dep] -= 1; if in_deg[dep] == 0: queue.append(dep)]. *)
Fixpoint relax (deps : list string) (deg : gmap string Z) (queue : list string)
    : outcome (gmap string Z * list string) :=
  match deps with
  | [] => Returns (deg, queue)
  | dep :: rest =>
      n ← subscript deg dep ;
      relax rest (<[dep := (n - 1)%Z]> deg)
            (if decide ((n - 1)%Z = 0%Z) then queue ++ [dep] else queue)
  end.

(** [while queue: node = queue.pop(0); result.append(node); ...]. *)
Fixpoint kahn (fuel : nat) (adj : gmap string (list string))
    (deg : gmap string Z) (queue result : list string)
    : outcome (gmap string Z * list string) :=
  match queue with
  | [] => Returns (deg, result)
  | node :: queue' =>
      match fuel with
      | O => OutOfFuel
      | S fuel' =>
          deps ← subscript adj node ;
          '(deg', queue'') ← relax deps deg queue' ;
          kahn fuel' adj deg' queue'' (result ++ [node])
      end
  end.

(** [for cp in children: if cp not in result: result.append(cp)]. *)
Definition append_missing (children result : list string) : list string :=
  fold_left (λ r cp, if decide (cp ∈ r) then r else r ++ [cp]) children result.

(** [[cp for cp in children if in_deg[cp] == 0]]. *)
Fixpoint initial_queue (deg : gmap string Z) (cps : list string)
    : outcome (list string) :=
  match cps with
  | [] => Returns []
  | cp :: rest =>
      n ← subscript deg cp ;
      q ← initial_queue deg rest ;
      Returns (if decide (n = 0%Z) then cp :: q else q)
  end.

(** An upper bound on the number of iterations of the [while] loop: one per
    queued node, and a node is queued only when a positive in-degree drops
    to zero. *)
Definition weight (deg : gmap string Z) : nat :=
  map_fold (λ _ n acc, Z.to_nat n + acc) 0 deg.

Definition initial_graph (children : list string) : graph :=
  Graph (const_dict 0%Z children) (const_dict [] children).

(** The state of the sorter when the [while] loop ends: the in-degrees and
    the nodes that sorted cleanly. *)
Definition sorted_part (children : list string)
    (child_deps : gmap string (list string))
    : outcome (gmap string Z * list string) :=
  g ← build (name_to_path_of children) child_deps (initial_graph children) children ;
  queue ← initial_queue (in_deg g) children ;
  kahn (length queue + weight (in_deg g)) (adj g) (in_deg g) queue [].

Definition sort_children (children : list string)
    (child_deps : gmap string (list string)) : outcome (list string) :=
  '(_, result) ← sorted_part children child_deps ;
  Returns (append_missing children result).

End Sorter.

(** ** The parser

    The file system is a tree of directories; a directory lists its regular
    files with their text and its subdirectories.  The three regular
    expressions of [parse_module] are scanned by Python's [re.finditer], the
    dependency names are trimmed by [str.strip] and the call references are
    resolved by [os.path]: these library functions are the parameters of the
    section. *)

#[local] Unset Elimination Schemes.
Inductive dir : Type :=
  Dir (files : list (string * string)) (subdirs : list (string * dir)).
#[local] Set Elimination Schemes.

Definition files_of (d : dir) : list (string * string) :=
  match d with Dir fs _ => fs end.

Fixpoint assoc {V} (k : string) (l : list (string * V)) : option V :=
  match l with
  | [] => None
  | (k', v) :: rest => if String.eqb k' k then Some v else assoc k rest
  end.

(** *** White space

    A [string] holds the UTF-8 encoding of a text, the bytes
    [Path.read_text()] decodes: the separators the program splits at are
    ASCII characters, whose bytes the encoding of no other character
    holds. *)

(** The UTF-8 encoding of a code point below 65536. *)
Definition utf8 (cp : N) : string :=
  if (cp <? 128)%N then String (ascii_of_N cp) ""
  else if (cp <? 2048)%N
  then String (ascii_of_N (192 + cp / 64))
         (String (ascii_of_N (128 + cp mod 64)) "")
  else String (ascii_of_N (224 + cp / 4096))
         (String (ascii_of_N (128 + (cp / 64) mod 64))
            (String (ascii_of_N (128 + cp mod 64)) "")).

(** The code points of the characters Python calls white space
    ([str.isspace]), those [str.strip()] removes: the ASCII controls 9 to 13
    and 28 to 31, the space, U+0085, U+00A0, U+1680, U+2000 to U+200A,
    U+2028, U+2029, U+202F, U+205F and U+3000. *)
Definition white_space_code_points : list N :=
  [9; 10; 11; 12; 13; 28; 29; 30; 31; 32; 133; 160; 5760;
   8192; 8193; 8194; 8195; 8196; 8197; 8198; 8199; 8200; 8201; 8202;
   8232; 8233; 8239; 8287; 12288]%N.

Definition white_space : list string := map utf8 white_space_code_points.

Fixpoint reverse (s : string) : string :=
  match s with
  | EmptyString => EmptyString
  | String c s' => reverse s' +:+ String c EmptyString
  end.

(** What follows the prefix [p] of [s]. *)
Fixpoint drop_prefix (p s : string) : option string :=
  match p, s with
  | EmptyString, _ => Some s
  | String a p', String b s' =>
      if Ascii.eqb a b then drop_prefix p' s' else None
  | _, _ => None
  end.

(** What follows the first character of [s], when it is one of [table]. *)
Fixpoint after_any (table : list string) (s : string) : option string :=
  match table with
  | [] => None
  | w :: rest =>
      match drop_prefix w s with
      | Some r => Some r
      | None => after_any rest s
      end
  end.

(** Removing the characters of [table] from the front, at most [fuel] of
    them. *)
Fixpoint lstrip_with (table : list string) (fuel : nat) (s : string)
    : string :=
  match fuel with
  | O => s
  | S n =>
      match after_any table s with
      | Some r => lstrip_with table n r
      | None => s
      end
  end.

Definition lstrip (s : string) : string :=
  lstrip_with white_space (String.length s) s.

Definition rstrip (s : string) : string :=
  reverse (lstrip_with (map reverse white_space) (String.length s)
             (reverse s)).

(** Python's [str.strip()]. *)
Definition str_strip (s : string) : string := rstrip (lstrip s).

(** A text that begins, or ends, with a white-space character. *)
Definition begins_with_space (s : string) : bool :=
  match after_any white_space s with Some _ => true | None => false end.

Definition ends_with_space (s : string) : bool :=
  match after_any (map reverse white_space) (reverse s) with
  | Some _ => true
  | None => false
  end.

Module Parser.

(** An entry of the [modules] dictionary. *)
Record module := Module_ {
  name : string;
  path : string;
  children : list string;
  functions : list string;
  depth : nat
}.

(** The two accumulators shared by all calls of [parse_module]. *)
Record pstate := PState {
  modules : gmap string module;
  function_edges : list (string * string)
}.

(** What [parse_speck_tree] returns. *)
Record graph := Graph {
  g_modules : gmap string module;
  g_function_edges : list (string * string);
  g_module_edges : list (string * string);
  g_root : string
}.

(** The loop that derives [mod_edge_set] from [function_edges]. *)
Definition mod_edge_set_of (function_edges : list (string * string))
    : gset (string * string) :=
  fold_left
    (λ acc e,
       let src_mod := rsplit_first e.1 in
       let tgt_mod := rsplit_first e.2 in
       if decide (src_mod ≠ tgt_mod) then acc ∪ {[ (src_mod, tgt_mod) ]} else acc)
    function_edges ∅.

Section with_libraries.

(** [str.strip()]. *)
Variable strip : string → string.
(** [re.finditer] with the pattern of module declarations (the keyword
    [mod], a name, a group in braces) on the content: the name and the
    text between the braces of every match, in order. *)
Variable finditer_mod : string → list (string * string).
(** [re.finditer] with the pattern of function declarations (the keyword
    [def], a name, a parameter list, an arrow, a return type and a body in
    braces) on the content: the name and the body of every match. *)
Variable finditer_def : string → list (string * string).
(** [re.finditer] with the pattern of call references (a path, two
    colons, a name) on a function body: the path and the name. *)
Variable finditer_ref : string → list (string * string).
(** [str(file_dir / name)] for a directory path and a child name. *)
Variable path_child : string → string → string.
(** [os.path.normpath(os.path.join(dir, ref_path))]. *)
Variable normpath_join : string → string → string.

(** [[d.strip() for d in group.split(',') if d.strip()]]. *)
Definition parse_deps (group : string) : list string :=
  omap (λ d, if decide (strip d = "") then None else Some (strip d))
       (split "," group).

(** The edges one function body contributes. *)
Definition body_edges (file_dir mod_path fn_name body : string)
    : list (string * string) :=
  map (λ cm, (mod_path +:+ "::" +:+ fn_name,
              normpath_join file_dir cm.1 +:+ "::" +:+ cm.2))
      (finditer_ref body).

(** The edges the functions of one file contribute. *)
Definition own_edges (file_dir mod_path content : string)
    : list (string * string) :=
  concat (map (λ m, body_edges file_dir mod_path m.1 m.2)
              (finditer_def content)).

(** The second loop of [parse_module]: function names and edges. *)
Fixpoint defs_loop (file_dir mod_path : string)
    (ms : list (string * string)) (fns : list string)
    (edges : list (string * string))
    : list string * list (string * string) :=
  match ms with
  | [] => (fns, edges)
  | (fn_name, body) :: ms' =>
      defs_loop file_dir mod_path ms' (fns ++ [fn_name])
                (edges ++ body_edges file_dir mod_path fn_name body)
  end.

(** Entering the directory [name] among the subdirectories [l] of the
    current one: [visit] is the recursive call on the file of the child, and
    nothing happens when the directory, and so the file, does not exist. *)
Fixpoint enter (visit : dir → pstate → outcome pstate) (name : string)
    (st : pstate) (l : list (string * dir)) : outcome pstate :=
  match l with
  | [] => Returns st
  | (n, d') :: rest =>
      if String.eqb n name then visit d' st else enter visit name st rest
  end.

(** The first loop of [parse_module], over the module declarations:
    [recurse name child_path] is the call of [parse_module] on the child. *)
Fixpoint mods_loop (recurse : string → string → pstate → outcome pstate)
    (mod_path : string) (ms : list (string * string))
    (children : list string) (child_deps : gmap string (list string))
    (st : pstate)
    : outcome (list string * gmap string (list string) * pstate) :=
  match ms with
  | [] => Returns (children, child_deps, st)
  | (name, group) :: ms' =>
      let child_path := mod_path +:+ "/" +:+ name in
      st' ← recurse name child_path st ;
      mods_loop recurse mod_path ms' (children ++ [child_path])
                (<[name := parse_deps group]> child_deps) st'
  end.

(** [parse_module(speck_file, mod_path, depth)], with [speck_file] the file
    [file_name] of the directory [d], whose path prints as [file_dir]. *)
Fixpoint parse_module (d : dir) (file_dir file_name mod_path : string)
    (depth : nat) (st : pstate) {struct d} : outcome pstate :=
  match d with
  | Dir fs subs =>
      match assoc file_name fs with
      | None => Returns st
      | Some content =>
          '(children, child_deps, st1) ←
             mods_loop
               (λ name child_path st,
                  enter (λ d' st',
                           parse_module d' (path_child file_dir name)
                             (name +:+ ".speck") child_path (S depth) st')
                        name st subs)
               mod_path (finditer_mod content) [] ∅ st ;
          let '(fns, edges) :=
            defs_loop file_dir mod_path (finditer_def content) []
                      (function_edges st1) in
          sorted_children ← Sorter.sort_children children child_deps ;
          Returns (PState
            (<[mod_path :=
                 Module_ (last_segment mod_path) mod_path sorted_children
                         fns depth]> (modules st1))
            edges)
      end
  end.

(** [parse_speck_tree(root_file_str)]: [root_dir] is the directory
    [root_file.parent], [root_dir_str] its path as a string, [root_name]
    its name and [root_file_name] the name of the root file. *)
Definition parse_speck_tree (root_dir : dir)
    (root_dir_str root_name root_file_name : string) : outcome graph :=
  st ← parse_module root_dir root_dir_str root_file_name root_name 0
         (PState ∅ []) ;
  Returns (Graph (modules st) (function_edges st)
                 (elements (mod_edge_set_of (function_edges st)))
                 root_name).

End with_libraries.

End Parser.

(** Induction on a directory tree. *)
Fixpoint dir_ind' (P : dir → Prop)
    (step : ∀ fs subs, Forall (λ p, P p.2) subs → P (Dir fs subs))
    (d : dir) : P d :=
  match d with
  | Dir fs subs =>
      step fs subs
        ((fix all (l : list (string * dir)) : Forall (λ p, P p.2) l :=
            match l return Forall (λ p, P p.2) l with
            | [] => @List.Forall_nil _ (λ p, P p.2)
            | (n, d') :: rest =>
                @List.Forall_cons _ (λ p, P p.2) (n, d') rest
                                  (dir_ind' P step d') (all rest)
            end) subs)
  end.

(** The library functions on the files of the examples below: the matches
    Python finds in them. *)
Module Sample.

(** A root file that declares the module [a]; no file [a/a.speck] exists. *)
Definition root_with_missing_child : dir :=
  Dir [("root.speck", "mod a {}")] [].

(** A root file with a function [f] that calls the function [g] of the same
    module. *)
Definition root_with_self_call : dir :=
  Dir [("root.speck", "def f() -> T { .::g } def g() -> T { }")] [].


Definition finditer_mod (content : string) : list (string * string) :=
  if decide (content = "mod a {}" ∨
             content = "mod a {} def f() -> T { a::g .::h } def h() -> T { }")
  then [("a", "")] else [].

Definition finditer_def (content : string) : list (string * string) :=
  if decide (content = "def f() -> T { .::g } def g() -> T { }")
  then [("f", " .::g "); ("g", " ")]
  else if decide (content
                  = "mod a {} def f() -> T { a::g .::h } def h() -> T { }")
  then [("f", " a::g .::h "); ("h", " ")]
  else if decide (content = "def g() -> T { }")
  then [("g", " ")]
  else [].

Definition finditer_ref (body : string) : list (string * string) :=
  if decide (body = " .::g ") then [(".", "g")]
  else if decide (body = " a::g .::h ") then [("a", "g"); (".", "h")]
  else [].

Definition path_child (d name : string) : string := d +:+ "/" +:+ name.

Definition normpath_join (d ref_path : string) : string :=
  if decide (d = "root" ∧ ref_path = ".") then "root" else d +:+ "/" +:+ ref_path.

Definition parse (root_dir : dir) : outcome Parser.graph :=
  Parser.parse_speck_tree str_strip finditer_mod finditer_def finditer_ref
    path_child normpath_join root_dir "root" "root" "root.speck".

End Sample.

(** ** The client

    The script of the served page.  JavaScript numbers are modelled as exact
    rationals: the layout only adds, subtracts, multiplies, halves and
    compares them. *)

Definition Qltb (a b : Q) : bool := negb (Qle_bool b a).

(** [Math.abs]. *)
Definition Qabs' (a : Q) : Q := if Qle_bool 0 a then a else Qopp a.

(** A box [{x, y, w, h}]; the boxes of functions also carry their [name]. *)
Record box := Box {
  bx : Q;
  by_ : Q;
  bw : Q;
  bh : Q;
  bname : option string
}.

(** [a.startsWith(b)]. *)
Definition startsWith (a b : string) : bool := String.prefix b a.

(** [a.indexOf(b) !== -1]. *)
Definition includes (a b : string) : bool :=
  match String.index 0 b a with Some _ => true | None => false end.

Fixpoint mapM {A B} (f : A → outcome B) (l : list A) : outcome (list B) :=
  match l with
  | [] => Returns []
  | a :: rest => b ← f a ; bs ← mapM f rest ; Returns (b :: bs)
  end.

Module Layout.

Local Open Scope Q_scope.

Definition PAD : Q := 30.
Definition PAD_BOTTOM : Q := 50.
Definition HEADER_H : Q := 38.
Definition FN_H : Q := 30.
Definition FN_GAP : Q := 10.
Definition MOD_GAP : Q := 60.
Definition SECTION_GAP : Q := 20.
Definition FN_PAD_X : Q := 14.
Definition MIN_MOD_W : Q := 80.
Definition LABEL_SIZE : Q := 13.
Definition FN_SIZE : Q := 12.
Definition ARROW_W : Q := 10.

(** A node of the tree [buildTree] makes; [ann] holds the fields the layout
    passes add to it ([w], [h], [_fnAreaH], [_secGap], then [x], [y]). *)
#[local] Unset Elimination Schemes.
Inductive node (A : Type) : Type :=
  Node (name path : string) (depth : nat) (functions : list string)
       (ann : A) (childNodes : list (node A)).
#[local] Set Elimination Schemes.
Arguments Node {A} name path depth functions ann childNodes.

Definition name {A} (n : node A) : string :=
  match n with Node nm _ _ _ _ _ => nm end.
Definition path {A} (n : node A) : string :=
  match n with Node _ p _ _ _ _ => p end.
Definition functions {A} (n : node A) : list string :=
  match n with Node _ _ _ fs _ _ => fs end.
Definition ann {A} (n : node A) : A :=
  match n with Node _ _ _ _ a _ => a end.
Definition childNodes {A} (n : node A) : list (node A) :=
  match n with Node _ _ _ _ _ cs => cs end.

(** [buildTree(g)]: [build(modPath)] reads [g.modules[modPath]] and fails on
    [undefined]. *)
Fixpoint build (fuel : nat) (modules : gmap string Parser.module)
    (modPath : string) : outcome (node unit) :=
  match fuel with
  | O => OutOfFuel
  | S fuel' =>
      match modules !! modPath with
      | None => Raises TypeError
      | Some md =>
          cs ← mapM (build fuel' modules) (Parser.children md) ;
          Returns (Node (Parser.name md) (Parser.path md) (Parser.depth md)
                        (Parser.functions md) tt cs)
      end
  end.

Definition buildTree (fuel : nat) (g : Parser.graph) : outcome (node unit) :=
  build fuel (Parser.g_modules g) (Parser.g_root g).

(** The fields [computeSize] sets. *)
Record size := Size { w : Q; h : Q; _fnAreaH : Q; _secGap : Q }.

(** The fields of a node after both passes. *)
Record placed := Placed { sz : size; x : Q; y : Q }.

Definition of_nat (n : nat) : Q := inject_Z (Z.of_nat n).

Section with_measure.

(** [measureText(text, fontSize)], the width the browser reports. *)
Variable measureText : string → Q → Q.

Fixpoint computeSize (n : node unit) : node size :=
  match n with
  | Node nm p d fs _ cs =>
      let cs' := map computeSize cs in
      let labelW := measureText nm LABEL_SIZE + 8 in
      let fnMaxW :=
        fold_left (λ acc f, Qmax acc (measureText f FN_SIZE + 2 * FN_PAD_X)) fs 0 in
      let fnAreaH :=
        if (0 <? length fs)%nat
        then of_nat (length fs) * FN_H + (of_nat (length fs) - 1) * FN_GAP
        else 0 in
      let childrenW0 := fold_left (λ acc c, acc + w (ann c)) cs' 0 in
      let childrenH := fold_left (λ acc c, Qmax acc (h (ann c))) cs' 0 in
      let childrenW :=
        if (1 <? length cs')%nat
        then childrenW0 + (of_nat (length cs') - 1) * MOD_GAP
        else childrenW0 in
      let secGap :=
        if Qltb 0 fnAreaH && Qltb 0 childrenH then SECTION_GAP else 0 in
      let contentW := Qmax (Qmax (Qmax labelW fnMaxW) childrenW) MIN_MOD_W in
      Node nm p d fs
           (Size (contentW + 2 * PAD)
                 (HEADER_H + fnAreaH + secGap + childrenH + PAD_BOTTOM)
                 fnAreaH secGap)
           cs'
  end.

End with_measure.

(** The loop of [computePositions] over the functions of a node. *)
Fixpoint fnLoop (p : string) (innerX innerW : Q) (fs : list string) (fnY : Q)
    (fb : gmap string box) : gmap string box :=
  match fs with
  | [] => fb
  | f :: rest =>
      fnLoop p innerX innerW rest (fnY + (FN_H + FN_GAP))
             (<[p +:+ "::" +:+ f := Box innerX fnY innerW FN_H (Some f)]> fb)
  end.

(** The loop of [computePositions] over the children of a node: [place] is
    the recursive call, at the ordinate [childY] of the children. *)
Fixpoint childLoop
    (place : node size → Q → gmap string box → gmap string box →
             node placed * gmap string box * gmap string box)
    (cs : list (node size)) (childX : Q) (fb mb : gmap string box)
    : list (node placed) * gmap string box * gmap string box :=
  match cs with
  | [] => ([], fb, mb)
  | c :: rest =>
      let '(c', fb', mb') := place c childX fb mb in
      let '(rest', fb'', mb'') :=
        childLoop place rest (childX + w (ann c) + MOD_GAP) fb' mb' in
      (c' :: rest', fb'', mb'')
  end.

(** [computePositions(node, x, y, fb, mb)]: the node with [x] and [y] set,
    and the two dictionaries. *)
Fixpoint computePositions (n : node size) (x y : Q)
    (fb mb : gmap string box)
    : node placed * gmap string box * gmap string box :=
  match n with
  | Node nm p d fs s cs =>
      let mb1 := <[p := Box x y (w s) (h s) None]> mb in
      let innerX := x + PAD in
      let innerY := y + HEADER_H in
      let innerW := w s - 2 * PAD in
      let fb1 := fnLoop p innerX innerW fs innerY fb in
      let childY := innerY + _fnAreaH s + _secGap s in
      let '(cs', fb2, mb2) :=
        childLoop (λ c childX fb mb, computePositions c childX childY fb mb)
                  cs innerX fb1 mb1 in
      (Node nm p d fs (Placed s x y) cs', fb2, mb2)
  end.

(** The layout of [loadAndRender]: [computeSize(treeRoot)], then
    [computePositions(treeRoot, 0, 0, fnBoxes, modBoxes)] on two empty
    dictionaries. *)
Definition layout (measureText : string → Q → Q) (root : node unit)
    : node placed * gmap string box * gmap string box :=
  computePositions (computeSize measureText root) 0 0 ∅ ∅.

(** The rectangle [renderBoxes] draws for a node. *)
Definition node_box (n : node placed) : box :=
  Box (x (ann n)) (y (ann n)) (w (sz (ann n))) (h (sz (ann n))) None.

(** [inner] lies within [outer]. *)
Definition inside (inner outer : box) : Prop :=
  bx outer <= bx inner ∧ bx inner + bw inner <= bx outer + bw outer ∧
  by_ outer <= by_ inner ∧ by_ inner + bh inner <= by_ outer + bh outer.

(** The height of the stack of [k] function rows. *)
Definition fn_area (k : nat) : Q :=
  of_nat k * FN_H + (of_nat k - 1) * FN_GAP.

(** The width of a row of children with the gaps between them. *)
Definition children_width (cs : list (node size)) : Q :=
  match cs with
  | [] => 0
  | _ => fold_right (λ c acc, w (ann c) + acc) 0 cs
         + (of_nat (length cs) - 1) * MOD_GAP
  end.

(** What the sizing pass guarantees to the positioning pass. *)
#[local] Unset Elimination Schemes.
Inductive well_sized : node size → Prop :=
  | well_sized_node nm p d fs s cs :
      0 <= _fnAreaH s →
      0 <= _secGap s →
      (fs ≠ [] → _fnAreaH s == fn_area (length fs)) →
      children_width cs + 2 * PAD <= w s →
      2 * PAD <= w s →
      HEADER_H + _fnAreaH s + _secGap s + PAD_BOTTOM <= h s →
      Forall (λ c, HEADER_H + _fnAreaH s + _secGap s + h (ann c) + PAD_BOTTOM
                   <= h s) cs →
      Forall (λ c, 0 <= w (ann c)) cs →
      Forall well_sized cs →
      well_sized (Node nm p d fs s cs).
#[local] Set Elimination Schemes.

(** The nodes of a tree, root first. *)
Fixpoint subtrees {A} (n : node A) : list (node A) :=
  match n with
  | Node _ _ _ _ _ cs => n :: concat (map subtrees cs)
  end.

(** Two measurement functions give the labels of a tree the same widths. *)
Definition agree_on (m1 m2 : string → Q → Q) (root : node unit) : Prop :=
  ∀ n, n ∈ subtrees root →
       m1 (name n) LABEL_SIZE = m2 (name n) LABEL_SIZE ∧
       ∀ f, f ∈ functions n → m1 f FN_SIZE = m2 f FN_SIZE.

(** A sequence of assignments [d[k] = v] on a dictionary. *)
Definition write_all (W : list (string * box)) (d : gmap string box)
    : gmap string box :=
  fold_left (λ d kv, <[kv.1 := kv.2]> d) W d.

(** The value the assignments [W] leave at the key [k], over [o]. *)
Definition written (W : list (string * box)) (k : string) (o : option box)
    : option box :=
  fold_left (λ acc kv, if decide (kv.1 = k) then Some kv.2 else acc) W o.

(** The node a call returns and the assignments it makes do not depend on
    what the dictionaries hold. *)
Definition writes_only
    (place : gmap string box → gmap string box →
             node placed * gmap string box * gmap string box) : Prop :=
  ∃ n' Wf Wm, ∀ fb mb, place fb mb = (n', write_all Wf fb, write_all Wm mb).

(** Induction on a tree. *)
Fixpoint node_ind' {A} (P : node A → Prop)
    (step : ∀ nm p d fs a cs, Forall P cs → P (Node nm p d fs a cs))
    (n : node A) : P n :=
  match n with
  | Node nm p d fs a cs =>
      step nm p d fs a cs
        ((fix all (l : list (node A)) : Forall P l :=
            match l return Forall P l with
            | [] => @List.Forall_nil _ P
            | c :: rest =>
                @List.Forall_cons _ P c rest (node_ind' P step c) (all rest)
            end) cs)
  end.

(** What a call [computePositions(n, x, y, fb, mb)] achieves, [r] being the
    node and the two dictionaries after it: the node has the box asked for;
    in its tree every box contains the boxes of its children; every new entry
    of [fb] is the box of a function of a node of the tree, inside the box of
    that node; every new entry of [mb] is the box of a node of the tree; every
    node and every function of the tree has an entry; and no entry is
    lost. *)
Definition placement_ok (n : node size) (x y : Q) (fb mb : gmap string box)
    (r : node placed * gmap string box * gmap string box) : Prop :=
  node_box r.1.1 = Box x y (w (ann n)) (h (ann n)) None ∧
  (∀ m c, m ∈ subtrees r.1.1 → c ∈ childNodes m →
          inside (node_box c) (node_box m)) ∧
  (∀ id b, r.1.2 !! id = Some b →
           fb !! id = Some b ∨
           ∃ m f, m ∈ subtrees r.1.1 ∧ f ∈ functions m ∧
                  id = path m +:+ "::" +:+ f ∧ inside b (node_box m)) ∧
  (∀ p b, r.2 !! p = Some b →
          mb !! p = Some b ∨
          ∃ m, m ∈ subtrees r.1.1 ∧ p = path m ∧ b = node_box m) ∧
  (∀ m, m ∈ subtrees r.1.1 →
        is_Some (r.2 !! path m) ∧
        ∀ f, f ∈ functions m → is_Some (r.1.2 !! (path m +:+ "::" +:+ f))) ∧
  (∀ k, is_Some (fb !! k) → is_Some (r.1.2 !! k)) ∧
  (∀ k, is_Some (mb !! k) → is_Some (r.2 !! k)).

End Layout.

Module Visibility.

(** The loop of [isModVisible]: [current] is the path walked so far, [rest]
    the segments still to come. *)
Fixpoint visible_loop (expanded : gset string) (current : string)
    (rest : list string) : bool :=
  match rest with
  | [] => true
  | seg :: rest' =>
      if decide (current ∈ expanded)
      then visible_loop expanded (current +:+ "/" +:+ seg) rest'
      else false
  end.

Definition isModVisible (expanded : gset string) (path : string) : bool :=
  let segments := split "/" path in
  if (length segments <=? 1)%nat then true
  else visible_loop expanded (default "" (head segments)) (tail segments).

Definition isFnVisible (expanded : gset string) (fnId : string) : bool :=
  let modPath := default "" (head (split "::" fnId)) in
  isModVisible expanded modPath && bool_decide (modPath ∈ expanded).

(** The loop of [resolveVisible], at index [i] with [n] iterations to go:
    [inl] is an early [return current], [inr] the value of [current] when
    the loop ends. *)
Fixpoint resolve_loop (expanded : gset string) (segments : list string)
    (current : string) (i n : nat) : string + string :=
  match n with
  | O => inr current
  | S n' =>
      if decide (current ∈ expanded)
      then resolve_loop expanded segments (join "/" (take (i + 2) segments))
                        (S i) n'
      else inl current
  end.

Definition resolveVisible (expanded : gset string) (fnId : string) : string :=
  let parts := split "::" fnId in
  let modPath := default "" (head parts) in
  let segments := split "/" modPath in
  let current := default "" (head segments) in
  match resolve_loop expanded segments current 0 (length segments - 1) with
  | inl r => r
  | inr current => if decide (current ∈ expanded) then fnId else current
  end.

(** The paths made of the first [k] segments, for the [n] values of [k]
    from [i] up. *)
Definition prefix_paths (segments : list string) (i n : nat) : list string :=
  map (λ k, join "/" (take k segments)) (seq i n).

(** The module that owns an endpoint. *)
Definition owner (fnId : string) : string :=
  default "" (head (split "::" fnId)).

(** The chain of modules from the root to the owning module of an
    endpoint. *)
Definition chain (fnId : string) : list string :=
  let segments := split "/" (owner fnId) in
  prefix_paths segments 1 (length segments).

(** Endpoint resolution as the specification words it: the first module of
    the chain that is not expanded, or the function itself. *)
Definition resolve_spec (expanded : gset string) (fnId : string) : string :=
  match List.find (λ p, negb (bool_decide (p ∈ expanded))) (chain fnId) with
  | Some p => p
  | None => fnId
  end.

(** The strict ancestors of a module path, from the root down. *)
Definition strict_ancestors (path : string) : list string :=
  let segments := split "/" path in
  prefix_paths segments 1 (length segments - 1).

(** The click handler of the diagram, for a click on the box of [path];
    [ctrl] is [e.ctrlKey || e.metaKey], [module_paths] the keys of
    [graph.modules].  The handler returns at [if (!path) return;] when the
    [data-path] attribute is the empty string. *)
Definition click (module_paths : list string) (path : string) (ctrl : bool)
    (expanded : gset string) : gset string :=
  if decide (path = "") then expanded
  else if decide (path ∈ expanded) then
    let toRemove :=
      List.filter (λ p, bool_decide (p = path) || startsWith p (path +:+ "/"))
                  (elements expanded) in
    fold_left (λ e p, e ∖ {[p]}) toRemove expanded
  else if ctrl then
    fold_left
      (λ e modPath,
         if bool_decide (modPath = path) || startsWith modPath (path +:+ "/")
         then e ∪ {[modPath]} else e)
      module_paths expanded
  else expanded ∪ {[path]}.

(** The handlers of the two buttons. *)
Definition expand_all (module_paths : list string) (expanded : gset string)
    : gset string :=
  fold_left (λ e p, e ∪ {[p]}) module_paths expanded.

Definition collapse_all (root : string) (expanded : gset string)
    : gset string :=
  (∅ : gset string) ∪ {[root]}.

End Visibility.

Module Router.

Local Open Scope Q_scope.
Import Layout.

(** What [connectionPoints] returns. *)
Record points := Points { sx : Q; sy : Q; tx : Q; ty : Q }.

(** An entry of the list of visible obstacles. *)
Record obstacle := Obstacle { id : string; ox : Q; oy : Q; ow : Q; oh : Q }.

Definition hGap (s t : box) : Q :=
  Qmax (Qmax (bx t - (bx s + bw s)) (bx s - (bx t + bw t))) 0.
Definition vGap (s t : box) : Q :=
  Qmax (Qmax (by_ t - (by_ s + bh s)) (by_ s - (by_ t + bh t))) 0.

Definition connectionPoints (s t : box) : points :=
  let sCx := bx s + bw s / 2 in
  let sCy := by_ s + bh s / 2 in
  let tCx := bx t + bw t / 2 in
  let tCy := by_ t + bh t / 2 in
  if Qle_bool (vGap s t) (hGap s t) then
    if Qle_bool sCx tCx
    then Points (bx s + bw s) sCy (bx t - ARROW_W) tCy
    else Points (bx s) sCy (bx t + bw t + ARROW_W) tCy
  else
    let overlapL := Qmax (bx s) (bx t) in
    let overlapR := Qmin (bx s + bw s) (bx t + bw t) in
    let sharedX :=
      if Qltb overlapL overlapR then (overlapL + overlapR) / 2
      else (sCx + tCx) / 2 in
    if Qle_bool sCy tCy
    then Points sharedX (by_ s + bh s) sharedX (by_ t - ARROW_W)
    else Points sharedX (by_ s) sharedX (by_ t + bh t + ARROW_W).

(** The centre of a box, and the overlap of two boxes on the horizontal
    axis. *)
Definition centerX (b : box) : Q := bx b + bw b / 2.
Definition centerY (b : box) : Q := by_ b + bh b / 2.
Definition overlapL (s t : box) : Q := Qmax (bx s) (bx t).
Definition overlapR (s t : box) : Q := Qmin (bx s + bw s) (bx t + bw t).

Definition isAncestorOf (ancestorId descendantId : string) : bool :=
  startsWith descendantId (ancestorId +:+ "/") ||
  startsWith descendantId (ancestorId +:+ "::").

Definition findBlockingBoxes (sx sy tx ty : Q) (sourceId targetId : string)
    (obstacles : list obstacle) : list obstacle :=
  let xMin := Qmin sx tx + 2 in
  let xMax := Qmax sx tx - 2 in
  let yMin := Qmin sy ty - 2 in
  let yMax := Qmax sy ty + 2 in
  List.filter
    (λ obs,
       negb (bool_decide (id obs = sourceId) || bool_decide (id obs = targetId)) &&
       negb (isAncestorOf (id obs) sourceId || isAncestorOf (id obs) targetId) &&
       negb (isAncestorOf sourceId (id obs) || isAncestorOf targetId (id obs)) &&
       negb (Qle_bool (ox obs + ow obs) xMin || Qle_bool xMax (ox obs)) &&
       negb (Qle_bool (oy obs + oh obs) yMin || Qle_bool yMax (oy obs)))
    obstacles.

(** [Math.min.apply(null, l)] and [Math.max.apply(null, l)] on a list that
    starts with [a]. *)
Definition min_of (a : Q) (l : list Q) : Q := fold_left Qmin l a.
Definition max_of (a : Q) (l : list Q) : Q := fold_left Qmax l a.

Section with_printer.

(** The conversion of a number to a string that [+] applies. *)
Variable show : Q → string.

Definition sp : string := " ".

Definition orthogonalPath (sx sy tx ty : Q) : string :=
  let R := 6 in
  let dx := tx - sx in
  let dy := ty - sy in
  if Qltb (Qabs' dy) 1 then
    "M " +:+ show sx +:+ sp +:+ show sy +:+ " L " +:+ show tx +:+ sp +:+ show ty
  else if Qltb (Qabs' dx) 1 then
    "M " +:+ show sx +:+ sp +:+ show sy +:+ " L " +:+ show tx +:+ sp +:+ show ty
  else if Qle_bool (Qabs' dy) (Qabs' dx) then
    let midX := (sx + tx) / 2 in
    let r := Qmin (Qmin (Qmin R (Qabs' (midX - sx))) (Qabs' (tx - midX)))
                  (Qabs' dy / 2) in
    let r := Qmax r 0 in
    let dv := if Qltb 0 dy then 1 else -1 in
    let dh := if Qltb 0 dx then 1 else -1 in
    "M " +:+ show sx +:+ sp +:+ show sy
    +:+ " L " +:+ show (midX - dh * r) +:+ sp +:+ show sy
    +:+ " Q " +:+ show midX +:+ sp +:+ show sy +:+ ", " +:+ show midX
    +:+ sp +:+ show (sy + dv * r)
    +:+ " L " +:+ show midX +:+ sp +:+ show (ty - dv * r)
    +:+ " Q " +:+ show midX +:+ sp +:+ show ty +:+ ", "
    +:+ show (midX + dh * r) +:+ sp +:+ show ty
    +:+ " L " +:+ show tx +:+ sp +:+ show ty
  else
    let midY := (sy + ty) / 2 in
    let r := Qmin (Qmin (Qmin R (Qabs' (midY - sy))) (Qabs' (ty - midY)))
                  (Qabs' dx / 2) in
    let r := Qmax r 0 in
    let dh := if Qltb 0 dx then 1 else -1 in
    let dv := if Qltb 0 dy then 1 else -1 in
    "M " +:+ show sx +:+ sp +:+ show sy
    +:+ " L " +:+ show sx +:+ sp +:+ show (midY - dv * r)
    +:+ " Q " +:+ show sx +:+ sp +:+ show midY +:+ ", "
    +:+ show (sx + dh * r) +:+ sp +:+ show midY
    +:+ " L " +:+ show (tx - dh * r) +:+ sp +:+ show midY
    +:+ " Q " +:+ show tx +:+ sp +:+ show midY +:+ ", " +:+ show tx
    +:+ sp +:+ show (midY + dv * r)
    +:+ " L " +:+ show tx +:+ sp +:+ show ty.

(** [reroutedPath(sx, sy, tx, ty, blocking, sourceBox)] for the non-empty
    list [b :: bs] of blocking boxes. *)
Definition reroutedPath (sx sy tx ty : Q) (b : obstacle) (bs : list obstacle)
    (sourceBox : box) : string :=
  let ROUTE_MARGIN := 15 in
  let OBS_GAP := 20 in
  let R := 6 in
  let MIN_RUNIN := 15 in
  let topY := min_of (oy b) (map oy bs) - ROUTE_MARGIN in
  let botY :=
    max_of (oy b + oh b) (map (λ b, oy b + oh b) bs) + ROUTE_MARGIN in
  let avgY := (sy + ty) / 2 in
  let routeY :=
    if Qle_bool (Qabs' (topY - avgY)) (Qabs' (botY - avgY)) then topY else botY in
  let leftEdge := min_of (ox b) (map ox bs) in
  let rightEdge := max_of (ox b + ow b) (map (λ b, ox b + ow b) bs) in
  let cx1 := Qmax (sx + 2) (leftEdge - OBS_GAP) in
  let cx2 := Qmin (tx - MIN_RUNIN) (rightEdge + OBS_GAP) in
  let r :=
    Qmin (Qmin (Qmin (Qmin (Qmin R (Qabs' (sy - routeY) / 2))
                            (Qabs' (ty - routeY) / 2))
                     (Qabs' (cx1 - sx) / 2))
               (Qabs' (tx - cx2) / 2))
         (Qabs' (cx2 - cx1) / 2) in
  let r := Qmax r 0 in
  let d1 := if Qltb routeY sy then -1 else 1 in
  let d2 := if Qltb routeY ty then 1 else -1 in
  "M " +:+ show sx +:+ sp +:+ show sy
  +:+ " L " +:+ show (cx1 - r) +:+ sp +:+ show sy
  +:+ " Q " +:+ show cx1 +:+ sp +:+ show sy +:+ ", " +:+ show cx1
  +:+ sp +:+ show (sy + d1 * r)
  +:+ " L " +:+ show cx1 +:+ sp +:+ show (routeY - d1 * r)
  +:+ " Q " +:+ show cx1 +:+ sp +:+ show routeY +:+ ", "
  +:+ show (cx1 + r) +:+ sp +:+ show routeY
  +:+ " L " +:+ show (cx2 - r) +:+ sp +:+ show routeY
  +:+ " Q " +:+ show cx2 +:+ sp +:+ show routeY +:+ ", " +:+ show cx2
  +:+ sp +:+ show (routeY + d2 * r)
  +:+ " L " +:+ show cx2 +:+ sp +:+ show (ty - d2 * r)
  +:+ " Q " +:+ show cx2 +:+ sp +:+ show ty +:+ ", "
  +:+ show (cx2 + r) +:+ sp +:+ show ty
  +:+ " L " +:+ show tx +:+ sp +:+ show ty.

Definition computeArrowPath (s t : box) (sourceId targetId : string)
    (obstacles : list obstacle) : string :=
  let pts := connectionPoints s t in
  match findBlockingBoxes (sx pts) (sy pts) (tx pts) (ty pts)
                          sourceId targetId obstacles with
  | [] => orthogonalPath (sx pts) (sy pts) (tx pts) (ty pts)
  | b :: bs => reroutedPath (sx pts) (sy pts) (tx pts) (ty pts) b bs s
  end.

(** The globals of the page that [updateArrows] reads, and the markup of
    the [arrows] group it overwrites.  The two dictionaries of boxes are plain
    objects: [fnBoxes] and [modBoxes] hold the properties the layout wrote,
    their own ones, and [get] below is the reading of a key.  (The one key
    whose assignment makes no own property, [__proto__], is the path of no
    module of the graphs taken here.) *)
Record page := Page {
  function_edges : list (string * string);
  expanded : gset string;
  fnBoxes : gmap string box;
  modBoxes : gmap string box;
  arrows : string
}.

(** [getVisibleObstacles()].  The dictionaries are walked in the order of
    their keys here; the router only filters the obstacles and takes
    minima and maxima over them. *)
Definition getVisibleObstacles (pg : page) : list obstacle :=
  omap (λ kv, if Visibility.isModVisible (expanded pg) kv.1
              then Some (Obstacle kv.1 (bx kv.2) (by_ kv.2) (bw kv.2) (bh kv.2))
              else None)
       (map_to_list (modBoxes pg))
  ++
  omap (λ kv, if Visibility.isFnVisible (expanded pg) kv.1
              then Some (Obstacle kv.1 (bx kv.2) (by_ kv.2) (bw kv.2) (bh kv.2))
              else None)
       (map_to_list (fnBoxes pg)).

(** The first loop of [updateArrows]: [edgeMap], in insertion order, each
    entry with its key. *)
Definition edgeMap_of (expanded : gset string)
    (function_edges : list (string * string))
    : list (string * (string * string)) :=
  fold_left
    (λ edgeMap e,
       let rSrc := Visibility.resolveVisible expanded e.1 in
       let rTgt := Visibility.resolveVisible expanded e.2 in
       if decide (rSrc = rTgt) then edgeMap
       else
         let key := rSrc +:+ ">" +:+ rTgt in
         match assoc key edgeMap with
         | Some _ => edgeMap
         | None => edgeMap ++ [(key, (rSrc, rTgt))]
         end)
    function_edges [].

Definition quote : string := String (ascii_of_nat 34) EmptyString.

(** The names every plain object inherits from [Object.prototype]: reading
    one of them gives a function, or the prototype itself for [__proto__],
    never [undefined]. *)
Definition object_prototype_names : list string :=
  ["constructor"; "hasOwnProperty"; "isPrototypeOf"; "propertyIsEnumerable";
   "toLocaleString"; "toString"; "valueOf"; "__proto__";
   "__defineGetter__"; "__defineSetter__"; "__lookupGetter__";
   "__lookupSetter__"].

(** What reading the key [k] of a dictionary of boxes gives: the box written
    under it; or an inherited value, which is truthy and has none of the
    properties [x], [y], [w] and [h]; or [undefined]. *)
Inductive property := Own (b : box) | Inherited | Undefined.

Definition get (d : gmap string box) (k : string) : property :=
  match d !! k with
  | Some b => Own b
  | None =>
      if bool_decide (k ∈ object_prototype_names) then Inherited
      else Undefined
  end.

(** [findBlockingBoxes] when a bound of the corridor is [NaN]: only the three
    tests on the identities can skip an obstacle, the comparisons of the two
    others are false. *)
Definition findBlockingBoxes_NaN (sourceId targetId : string)
    (obstacles : list obstacle) : list obstacle :=
  List.filter
    (λ obs,
       negb (bool_decide (id obs = sourceId) || bool_decide (id obs = targetId)) &&
       negb (isAncestorOf (id obs) sourceId || isAncestorOf (id obs) targetId) &&
       negb (isAncestorOf sourceId (id obs) || isAncestorOf targetId (id obs)))
    obstacles.

(** [computeArrowPath(s, t, sourceId, targetId, obstacles)] when [s] or [t]
    is an inherited value.  Its [x], [y], [w] and [h] are [undefined], so
    both gaps of [connectionPoints] are [NaN], no comparison holds and the
    points are [{sx: NaN, sy: s.y, tx: NaN, ty: t.y + t.h + ARROW_W}]: [sy]
    is a number when [s] is a box and [undefined] otherwise, [ty] a number
    when [t] is a box and [NaN] otherwise.  The corridor of
    [findBlockingBoxes] has the bounds [NaN].  Without a blocking box
    [orthogonalPath] takes its last branch, with [midY] and [r] equal to
    [NaN]; with one, [reroutedPath] takes [botY] as [routeY], and [cx1],
    [cx2] and [r] are [NaN]. *)
Definition computeArrowPath_NaN (s t : property) (sourceId targetId : string)
    (obstacles : list obstacle) : string :=
  let sy := match s with Own b => show (by_ b) | _ => "undefined" end in
  let ty :=
    match t with Own b => show (by_ b + bh b + ARROW_W) | _ => "NaN" end in
  match findBlockingBoxes_NaN sourceId targetId obstacles with
  | [] =>
      "M NaN " +:+ sy
      +:+ " L NaN NaN"
      +:+ " Q NaN NaN, NaN NaN"
      +:+ " L NaN NaN"
      +:+ " Q NaN NaN, NaN NaN"
      +:+ " L NaN " +:+ ty
  | b :: bs =>
      let ROUTE_MARGIN := 15 in
      let routeY :=
        show (max_of (oy b + oh b) (map (λ b, oy b + oh b) bs)
              + ROUTE_MARGIN) in
      "M NaN " +:+ sy
      +:+ " L NaN " +:+ sy
      +:+ " Q NaN " +:+ sy +:+ ", NaN NaN"
      +:+ " L NaN NaN"
      +:+ " Q NaN " +:+ routeY +:+ ", NaN " +:+ routeY
      +:+ " L NaN " +:+ routeY
      +:+ " Q NaN " +:+ routeY +:+ ", NaN NaN"
      +:+ " L NaN NaN"
      +:+ " Q NaN " +:+ ty +:+ ", NaN " +:+ ty
      +:+ " L NaN " +:+ ty
  end.

(** The second loop of [updateArrows]: the markup of the arrows.  An edge is
    skipped when the reading of one of its two boxes gives [undefined]. *)
Definition arrows_html (pg : page)
    (edgeMap : list (string * (string * string))) : string :=
  let obstacles := getVisibleObstacles pg in
  fold_left
    (λ html entry,
       let src := entry.2.1 in
       let tgt := entry.2.2 in
       let sBox := if includes src "::" then get (fnBoxes pg) src
                   else get (modBoxes pg) src in
       let tBox := if includes tgt "::" then get (fnBoxes pg) tgt
                   else get (modBoxes pg) tgt in
       let path d :=
         html +:+ "<path class=" +:+ quote +:+ "mod-arrow" +:+ quote
              +:+ " d=" +:+ quote +:+ d +:+ quote
              +:+ " marker-end=" +:+ quote +:+ "url(#arrow-mod)"
              +:+ quote +:+ "/>" in
       match sBox, tBox with
       | Undefined, _ | _, Undefined => html
       | Own s, Own t => path (computeArrowPath s t src tgt obstacles)
       | _, _ => path (computeArrowPath_NaN sBox tBox src tgt obstacles)
       end)
    edgeMap "".

Definition updateArrows (pg : page) : page :=
  Page (function_edges pg) (expanded pg) (fnBoxes pg) (modBoxes pg)
       (arrows_html pg (edgeMap_of (expanded pg) (function_edges pg))).

(** The three handlers as they act on the globals: each changes [expanded],
    then calls [updateVisibility], which only sets classes in the document,
    and [updateArrows].  The click handler returns before both calls when
    the path is the empty string. *)
Definition on_click (module_paths : list string) (path : string) (ctrl : bool)
    (pg : page) : page :=
  if decide (path = "") then pg
  else
    updateArrows
      (Page (function_edges pg)
            (Visibility.click module_paths path ctrl (expanded pg))
            (fnBoxes pg) (modBoxes pg) (arrows pg)).

Definition on_expand_all (module_paths : list string) (pg : page) : page :=
  updateArrows
    (Page (function_edges pg)
          (Visibility.expand_all module_paths (expanded pg))
          (fnBoxes pg) (modBoxes pg) (arrows pg)).

Definition on_collapse_all (root : string) (pg : page) : page :=
  updateArrows
    (Page (function_edges pg)
          (Visibility.collapse_all root (expanded pg))
          (fnBoxes pg) (modBoxes pg) (arrows pg)).

End with_printer.

(** The tree of the scenario of the specification, and a measurement that
    gives every character seven units of width. *)
Definition sample_tree : node unit :=
  Node "root" "root" 0 ["main"] tt
    [Node "b" "root/b" 1 ["bar"] tt [];
     Node "a" "root/a" 1 ["foo"] tt []].

Definition sample_measure (text : string) (fontSize : Q) : Q :=
  7 * of_nat (String.length text).

(** The tree of a root file that declares the module [a] twice. *)
Definition twice_tree : node unit :=
  Node "root" "root" 0 [] tt
    [Node "a" "root/a" 1 ["foo"] tt [];
     Node "a" "root/a" 1 ["foo"] tt []].

(** A measurement that agrees with [sample_measure] on the labels of
    [sample_tree] and nowhere else. *)
Definition other_measure (text : string) (fontSize : Q) : Q :=
  if bool_decide (text ∈ ["root"; "main"; "a"; "b"; "foo"; "bar"])
  then 7 * of_nat (String.length text) else 1000.

End Router.

(** ** Notions used to state the properties of the sorter *)

Module SorterSpec.

(** The number of occurrences of [v] in [l]. *)
Fixpoint occ (v : string) (l : list string) : nat :=
  match l with
  | [] => 0
  | x :: rest => if decide (x = v) then S (occ v rest) else occ v rest
  end.

(** The dependencies of the sibling [u] that name a sibling: the list
    [adj[u]] ends up with. *)
Definition resolve (children : list string) (dep_name : string)
    : option string :=
  match Sorter.name_to_path_of children !! dep_name with
  | Some dep_path => if decide (dep_path = "") then None else Some dep_path
  | None => None
  end.

Definition resolved_deps (children : list string)
    (child_deps : gmap string (list string)) (u : string) : list string :=
  omap (resolve children) (default [] (child_deps !! last_segment u)).

(** [u] declares a dependency on the sibling [v]. *)
Definition depends_on (children : list string)
    (child_deps : gmap string (list string)) (u v : string) : Prop :=
  u ∈ children ∧ v ∈ resolved_deps children child_deps u.

(** The declared dependencies among the siblings have no cycle. *)
Definition acyclic (children : list string)
    (child_deps : gmap string (list string)) : Prop :=
  ∀ v, ¬ tc (depends_on children child_deps) v v.

(** [u] occurs in [l] at a position before an occurrence of [v]. *)
Definition before (u v : string) (l : list string) : Prop :=
  ∃ l1 l2 l3, l = l1 ++ u :: l2 ++ v :: l3.

(** The siblings of [children] that are not in [clean], in declaration
    order. *)
Definition leftover (children clean : list string) : list string :=
  filter (λ cp, cp ∉ clean) children.

(** The dependency entries the sorter still has to take off the
    in-degrees: those of the node being relaxed ([rest]) and those of the
    siblings not yet emitted. *)
Definition pending (children : list string)
    (child_deps : gmap string (list string))
    (result rest : list string) : list string :=
  rest ++ concat (map (resolved_deps children child_deps)
                      (leftover children result)).

(** A list in which every element declares a dependency on the next. *)
Inductive walk (children : list string)
    (child_deps : gmap string (list string)) : list string → Prop :=
  | walk_one x : walk children child_deps [x]
  | walk_cons x y l :
      depends_on children child_deps x y →
      walk children child_deps (y :: l) →
      walk children child_deps (x :: y :: l).

(** The dictionaries keep the keys they were created with. *)
Definition keyed {V} (children : list string) (d : gmap string V) : Prop :=
  ∀ k, k ∈ children → is_Some (d !! k).

(** The lists of [adj] hold siblings only. *)
Definition closed (children : list string) (a : gmap string (list string))
    : Prop :=
  ∀ k l v, a !! k = Some l → v ∈ l → v ∈ children.

Definition good (children : list string) (g : Sorter.graph) : Prop :=
  keyed children (Sorter.in_deg g) ∧ keyed children (Sorter.adj g) ∧
  closed children (Sorter.adj g).

(** The two dictionaries when the first loop has been through the siblings
    [done]. *)
Definition built (children : list string)
    (child_deps : gmap string (list string)) (g : Sorter.graph)
    (done : list string) : Prop :=
  (∀ u, u ∈ children →
        Sorter.adj g !! u
        = Some (if decide (u ∈ done)
                then resolved_deps children child_deps u else [])) ∧
  (∀ v, v ∈ children →
        Sorter.in_deg g !! v
        = Some (Z.of_nat
                  (occ v (concat (map (resolved_deps children child_deps)
                                      done))))).

(** The invariant of the [while] loop, with [rest] the part of [adj[node]]
    still to relax: the in-degree of a sibling counts its pending entries,
    the nodes emitted or queued are those with none left, each once, and a
    node is queued after all its dependents were emitted. *)
Definition sorting (children : list string)
    (child_deps : gmap string (list string)) (deg : gmap string Z)
    (result queue rest : list string) : Prop :=
  (∀ v, v ∈ children →
        deg !! v
        = Some (Z.of_nat (occ v (pending children child_deps result rest)))) ∧
  (∀ v, v ∈ children →
        (v ∈ result ++ queue
         ↔ occ v (pending children child_deps result rest) = 0%nat)) ∧
  NoDup (result ++ queue) ∧
  (∀ v, v ∈ result ++ queue → v ∈ children) ∧
  (∀ u v, depends_on children child_deps u v → v ∈ result ++ queue →
          before u v (result ++ queue)) ∧
  (∀ v, v ∈ rest → v ∈ children).

End SorterSpec.

(** ** Notions used to state further properties of the sorter *)

Module SorterReach.
Import Sorter SorterSpec.

(** The body of [if dep_path:] for a dependency path [dep_path] that was
    found: [adj[cp].append(dep_path); in_deg[dep_path] += 1]. *)
Definition add_path (cp : string) (g : graph) (dep_path : string)
    : outcome graph :=
  l ← subscript (adj g) cp ;
  n ← subscript (in_deg g) dep_path ;
  Returns (Graph (<[dep_path := (n + 1)%Z]> (in_deg g))
                 (<[cp := l ++ [dep_path]]> (adj g))).

Fixpoint add_paths (cp : string) (g : graph) (dep_paths : list string)
    : outcome graph :=
  match dep_paths with
  | [] => Returns g
  | p :: ps => g' ← add_path cp g p ; add_paths cp g' ps
  end.

(** [v] is on a cycle of declared dependencies, or is a dependency, direct
    or through other siblings, of a sibling that is on one. *)
Definition behind_cycle (children : list string)
    (child_deps : gmap string (list string)) (v : string) : Prop :=
  ∃ u, tc (depends_on children child_deps) u u ∧
       rtc (depends_on children child_deps) u v.

End SorterReach.

(** ** Notions used to state further properties of the router *)

Module RouterRel.
Import Router.

(** The obstacle [obsId] is the source or the target of the arrow, or an
    ancestor or a descendant of one of them. *)
Definition related (sourceId targetId obsId : string) : bool :=
  bool_decide (obsId = sourceId) || bool_decide (obsId = targetId) ||
  isAncestorOf obsId sourceId || isAncestorOf obsId targetId ||
  isAncestorOf sourceId obsId || isAncestorOf targetId obsId.

End RouterRel.

(** ** Notions used to state further properties of the layout *)

Module LayoutRows.
Import Layout.
Local Open Scope Q_scope.

(** The nodes [cs] stand in a row that starts at the abscissa [x0], all at
    the ordinate [y0], each [MOD_GAP] to the right of the one before. *)
Fixpoint row_at (cs : list (node placed)) (x0 y0 : Q) : Prop :=
  match cs with
  | [] => True
  | c :: rest =>
      x (ann c) = x0 ∧ y (ann c) = y0 ∧
      row_at rest (x0 + w (sz (ann c)) + MOD_GAP) y0
  end.

(** The children of [m] stand in a row below its header, its function rows
    and the gap between the two sections, from its left padding on; and
    none has a negative width. *)
Definition tidy (m : node placed) : Prop :=
  row_at (childNodes m) (x (ann m) + PAD)
         (y (ann m) + HEADER_H + _fnAreaH (sz (ann m)) + _secGap (sz (ann m))) ∧
  Forall (λ c, 0 <= w (sz (ann c))) (childNodes m).

(** What the two passes of the layout leave of a node as it was built: its
    path and its functions. *)
Definition label {A} (n : node A) : string * list string :=
  (path n, functions n).

End LayoutRows.

(** ** Notions used to state further properties of the parser *)

Module ParserSpec.
Import Parser.

(** The module path of the module reached from [mod_path] through the
    declarations [names]. *)
Definition descend (mod_path : string) (names : list string) : string :=
  fold_left (λ acc n, acc +:+ "/" +:+ n) names mod_path.


Section with_libraries.

Variable strip : string → string.
Variable finditer_mod : string → list (string * string).
Variable finditer_def : string → list (string * string).
Variable finditer_ref : string → list (string * string).
Variable path_child : string → string → string.
Variable normpath_join : string → string → string.

(** [parsed d file_dir file_name names file_dir' content]: from the file
    [file_name] of the directory [d], whose path prints as [file_dir], the
    chain of module declarations [names] leads, through files that all
    exist, to a file with the content [content] in a directory whose path
    prints as [file_dir']. *)
Inductive parsed : dir → string → string → list string → string → string
                   → Prop :=
  | parsed_here fs subs file_dir file_name content :
      assoc file_name fs = Some content →
      parsed (Dir fs subs) file_dir file_name [] file_dir content
  | parsed_step fs subs file_dir file_name content name group d' names
                file_dir' content' :
      assoc file_name fs = Some content →
      (name, group) ∈ finditer_mod content →
      assoc name subs = Some d' →
      parsed d' (path_child file_dir name) (name +:+ ".speck") names
             file_dir' content' →
      parsed (Dir fs subs) file_dir file_name (name :: names)
             file_dir' content'.

(** The children and the dependencies a file declares. *)
Definition declared_children (mod_path content : string) : list string :=
  map (λ m, mod_path +:+ "/" +:+ m.1) (finditer_mod content).

Definition declared_deps (content : string) : gmap string (list string) :=
  fold_left (λ cd m, <[m.1 := parse_deps strip m.2]> cd) (finditer_mod content) ∅.

(** [m] is the entry [parse_module] makes for the module [p] at the depth
    [depth] from a file with the content [content]. *)
Definition is_entry (content p : string) (depth : nat) (m : module) : Prop :=
  ∃ sorted,
    Sorter.sort_children (declared_children p content) (declared_deps content)
    = Returns sorted ∧
    m = Module_ (last_segment p) p sorted (map fst (finditer_def content))
                depth.

(** What a part of the run, from the accumulators [st] to [st'], adds for
    the files [R] holds of, seen from the module [mod_path] at the depth
    [depth]: an entry for each, overwriting what was there; their edges;
    and nothing else. *)
Definition adds (R : list string → string → string → Prop)
    (mod_path : string) (depth : nat) (st st' : pstate) : Prop :=
  (∀ p m, modules st' !! p = Some m →
          modules st !! p = Some m ∨
          ∃ names file_dir content,
            R names file_dir content ∧ p = descend mod_path names ∧
            is_entry content p (depth + length names) m) ∧
  (∀ p, is_Some (modules st !! p) → is_Some (modules st' !! p)) ∧
  (∀ names file_dir content,
     R names file_dir content →
     is_Some (modules st' !! descend mod_path names)) ∧
  (∀ e, e ∈ function_edges st' ↔
        e ∈ function_edges st ∨
        ∃ names file_dir content,
          R names file_dir content ∧
          e ∈ own_edges finditer_def finditer_ref normpath_join file_dir
                (descend mod_path names) content).

End with_libraries.

End ParserSpec.

(** ** Escaping of the labels *)

Module Escape.

(** [s.replace(/c/g, r)] for a pattern of one character [c] and a
    replacement [r] that holds no dollar sign. *)
Fixpoint replace_char (c : ascii) (r : string) (s : string) : string :=
  match s with
  | EmptyString => EmptyString
  | String a s' =>
      if Ascii.eqb a c then r +:+ replace_char c r s'
      else String a (replace_char c r s')
  end.

(** [esc(s)]. *)
Definition esc (s : string) : string :=
  replace_char ">" "&gt;" (replace_char "<" "&lt;" (replace_char "&" "&amp;" s)).

(** The entity that stands for one character. *)
Definition entity (a : ascii) : string :=
  if Ascii.eqb a "&" then "&amp;"
  else if Ascii.eqb a "<" then "&lt;"
  else if Ascii.eqb a ">" then "&gt;"
  else String a EmptyString.

(** The text with every character replaced by its entity, in one pass. *)
Fixpoint entities (s : string) : string :=
  match s with
  | EmptyString => EmptyString
  | String a s' => entity a +:+ entities s'
  end.

End Escape.

(** ** Notions used to state what [buildTree] needs *)

Module BuildSpec.
Import Parser.

(** [k'] is [k] or is reached from it through the [children] lists of the
    entries of [mods]: the module paths [build] is called on. *)
Inductive reachable (mods : gmap string module) : string → string → Prop :=
  | reachable_here k : reachable mods k k
  | reachable_child k md c k' :
      mods !! k = Some md → c ∈ children md → reachable mods c k' →
      reachable mods k k'.

End BuildSpec.

(** ** Notions used to state where an arrow starts and ends *)

Module RouterBorder.
Local Open Scope Q_scope.

(** The point [(px, py)] lies on the border of the box [b]. *)
Definition on_border (b : box) (px py : Q) : Prop :=
  ((px == bx b ∨ px == bx b + bw b) ∧ by_ b <= py ∧ py <= by_ b + bh b) ∨
  ((py == by_ b ∨ py == by_ b + bh b) ∧ bx b <= px ∧ px <= bx b + bw b).

(** The box [b] with a margin of [m] on every side. *)
Definition grown (m : Q) (b : box) : box :=
  Box (bx b - m) (by_ b - m) (bw b + 2 * m) (bh b + 2 * m) None.

End RouterBorder.

(** ** The gap between two boxes *)

Module RouterGaps.
Import Layout.
Local Open Scope Q_scope.

(** The gap between the intervals from [lo1] to [hi1] and from [lo2] to
    [hi2]: the distance from the end of the one that comes first to the
    start of the other, and 0 when they overlap. *)
Definition interval_gap (lo1 hi1 lo2 hi2 : Q) : Q :=
  if Qltb hi1 lo2 then lo2 - hi1
  else if Qltb hi2 lo1 then lo1 - hi2
  else 0.

(** The gaps between the rectangles of two boxes on the two axes. *)
Definition horizontal_gap (s t : box) : Q :=
  interval_gap (bx s) (bx s + bw s) (bx t) (bx t + bw t).
Definition vertical_gap (s t : box) : Q :=
  interval_gap (by_ s) (by_ s + bh s) (by_ t) (by_ t + bh t).

End RouterGaps.

(** * Properties *)

(** ** The sorter returns on every input *)

Module SorterTotal.
Import Sorter SorterSpec.

Lemma weight_delete (deg : gmap string Z) d n :
  deg !! d = Some n → weight deg = Z.to_nat n + weight (delete d deg).
Proof.
  intros H. unfold weight.
  apply (map_fold_delete_L (λ _ n acc, Z.to_nat n + acc)); [|done].
  intros; lia.
Qed.

Lemma weight_insert (deg : gmap string Z) d n m :
  deg !! d = Some n →
  weight (<[d := m]> deg) + Z.to_nat n = weight deg + Z.to_nat m.
Proof.
  intros H. rewrite (weight_delete deg d n H).
  rewrite <- (insert_delete_eq deg d m).
  unfold weight at 1.
  rewrite (map_fold_insert_L (λ _ n acc, Z.to_nat n + acc));
    [fold (weight (delete d deg)); lia | intros; lia | apply lookup_delete_eq].
Qed.

Lemma keyed_insert {V} children (d : gmap string V) k v :
  keyed children d → keyed children (<[k := v]> d).
Proof.
  intros H j Hj. destruct (decide (k = j)) as [->|Hne].
  - rewrite lookup_insert_eq. eauto.
  - rewrite lookup_insert_ne by done. auto.
Qed.

Lemma const_dict_fold {V} (v : V) children : ∀ (m : gmap string V) k,
  fold_left (λ m cp, <[cp := v]> m) children m !! k
  = if decide (k ∈ children) then Some v else m !! k.
Proof.
  induction children as [|c cs IH]; intros m k; cbn [fold_left].
  - case_decide as Hk; [by apply elem_of_nil in Hk | done].
  - rewrite IH. destruct (decide (c = k)) as [->|Hne].
    + rewrite lookup_insert_eq. repeat case_decide; set_solver.
    + rewrite lookup_insert_ne by done. repeat case_decide; set_solver.
Qed.

Lemma const_dict_lookup {V} (v : V) children k :
  k ∈ children → const_dict v children !! k = Some v.
Proof.
  intros Hk. unfold const_dict. by rewrite const_dict_fold, decide_True.
Qed.

Lemma const_dict_lookup_inv {V} (v x : V) children k :
  const_dict v children !! k = Some x → x = v.
Proof.
  unfold const_dict. rewrite const_dict_fold, lookup_empty.
  case_decide; congruence.
Qed.

Lemma name_to_path_elem children k v :
  name_to_path_of children !! k = Some v → v ∈ children.
Proof.
  unfold name_to_path_of.
  assert (G : ∀ (m : gmap string string) (seen : list string),
             (∀ j x, m !! j = Some x → x ∈ seen) →
             fold_left (λ m cp, <[last_segment cp := cp]> m) children m !! k
               = Some v → v ∈ seen ++ children).
  { induction children as [|c cs IH]; intros m seen Hm; simpl.
    - rewrite app_nil_r. apply Hm.
    - intros H. apply (IH _ (seen ++ [c])) in H.
      + by rewrite <- app_assoc in H.
      + intros j x. destruct (decide (last_segment c = j)) as [->|Hne].
        * rewrite lookup_insert_eq. intros [= <-]. set_solver.
        * rewrite lookup_insert_ne by done. intros Hj.
          apply Hm in Hj. set_solver. }
  intros H. apply (G ∅ []) in H; [done|].
  intros j x. by rewrite lookup_empty.
Qed.

Lemma add_dep_good children cp g d :
  cp ∈ children → good children g →
  ∃ g', add_dep (name_to_path_of children) cp g d = Returns g' ∧
        good children g'.
Proof.
  intros Hcp Hg. pose proof Hg as (Hi & Ha & Hc). unfold add_dep.
  destruct (name_to_path_of children !! d) as [p|] eqn:Hp; [|by eauto].
  destruct (decide (p = "")) as [|Hne0]; [by eauto|].
  apply name_to_path_elem in Hp.
  destruct (Ha cp Hcp) as [l Hl]. destruct (Hi p Hp) as [z Hz].
  unfold subscript. rewrite Hl, Hz. simpl. eexists. split; [done|].
  split; [|split]; simpl.
  - by apply keyed_insert.
  - by apply keyed_insert.
  - intros k l' v. destruct (decide (cp = k)) as [->|Hne].
    + rewrite lookup_insert_eq. intros [= <-] Hv.
      apply elem_of_app in Hv as [Hv|Hv]; [by eapply Hc|].
      apply list_elem_of_singleton in Hv. by subst.
    + rewrite lookup_insert_ne by done. apply Hc.
Qed.

Lemma add_deps_good children cp ds : ∀ g,
  cp ∈ children → good children g →
  ∃ g', add_deps (name_to_path_of children) cp g ds = Returns g' ∧
        good children g'.
Proof.
  induction ds as [|d ds IH]; intros g Hcp Hg; simpl; [by eauto|].
  destruct (add_dep_good children cp g d Hcp Hg) as (g1 & -> & Hg1).
  simpl. by apply IH.
Qed.

Lemma build_good children child_deps cps : ∀ g,
  (∀ cp, cp ∈ cps → cp ∈ children) → good children g →
  ∃ g', build (name_to_path_of children) child_deps g cps = Returns g' ∧
        good children g'.
Proof.
  induction cps as [|cp cps IH]; intros g Hsub Hg; simpl; [by eauto|].
  destruct (add_deps_good children cp
              (default [] (child_deps !! last_segment cp)) g) as (g1 & -> & Hg1);
    [apply Hsub; set_solver | done |].
  simpl. apply IH; [|done]. intros c Hc. apply Hsub. set_solver.
Qed.

Lemma initial_good children : good children (initial_graph children).
Proof.
  split; [|split]; simpl.
  - intros k Hk. rewrite const_dict_lookup by done. eauto.
  - intros k Hk. rewrite const_dict_lookup by done. eauto.
  - intros k l v Hl Hv. apply const_dict_lookup_inv in Hl. subst.
    by apply elem_of_nil in Hv.
Qed.

Lemma relax_total children deps : ∀ deg q,
  keyed children deg → (∀ d, d ∈ deps → d ∈ children) →
  ∃ deg' q', relax deps deg q = Returns (deg', q') ∧ keyed children deg' ∧
             (length q' + weight deg' ≤ length q + weight deg)%nat ∧
             (∀ v, v ∈ q' → v ∈ q ∨ v ∈ deps).
Proof.
  induction deps as [|d deps IH]; intros deg q Hk Hd; simpl.
  - exists deg, q. repeat split; [done | lia | by left].
  - destruct (Hk d) as [z Hz]; [apply Hd; set_solver|].
    unfold subscript. rewrite Hz. simpl.
    pose proof (weight_insert deg d z (z - 1) Hz) as Hw.
    edestruct (IH (<[d := (z - 1)%Z]> deg)
                  (if decide ((z - 1)%Z = 0%Z) then q ++ [d] else q))
      as (deg' & q' & -> & Hk' & Hle & Hq').
    { by apply keyed_insert. }
    { intros v Hv. apply Hd. set_solver. }
    exists deg', q'. repeat split; [done | |].
    + case_decide as Hz0; [rewrite length_app in Hle; simpl in Hle|]; lia.
    + intros v Hv. apply Hq' in Hv as [Hv|Hv]; [|set_solver].
      case_decide; set_solver.
Qed.

Lemma kahn_total children a fuel : ∀ deg q result,
  keyed children a → closed children a → keyed children deg →
  (∀ v, v ∈ q → v ∈ children) → (length q + weight deg ≤ fuel)%nat →
  ∃ r, kahn fuel a deg q result = Returns r.
Proof.
  induction fuel as [|fuel IH]; intros deg q result Ha Hc Hk Hq Hf.
  - destruct q; simpl in *; [by eauto | lia].
  - destruct q as [|node q]; simpl; [by eauto|].
    destruct (Ha node) as [deps Hdeps]; [apply Hq; set_solver|].
    unfold subscript. rewrite Hdeps. simpl.
    destruct (relax_total children deps deg q Hk) as (deg' & q' & -> & Hk' & Hle & Hq').
    { intros d Hd. by eapply Hc. }
    simpl. apply IH; try done.
    + intros v Hv. apply Hq' in Hv as [Hv|Hv]; [apply Hq; set_solver|].
      by eapply Hc.
    + simpl in Hf. lia.
Qed.

Lemma initial_queue_total children deg cps :
  keyed children deg → (∀ cp, cp ∈ cps → cp ∈ children) →
  ∃ q, initial_queue deg cps = Returns q ∧ (∀ v, v ∈ q → v ∈ cps).
Proof.
  intros Hk. induction cps as [|cp cps IH]; intros Hsub; simpl.
  - exists []. split; [done | set_solver].
  - destruct (Hk cp) as [z Hz]; [apply Hsub; set_solver|].
    unfold subscript. rewrite Hz. simpl.
    destruct IH as (q & -> & Hq); [intros c Hc; apply Hsub; set_solver|].
    simpl. eexists. split; [done|].
    intros v Hv. case_decide; set_solver.
Qed.

(** The sorter returns a list, whatever the siblings and the declared
    dependencies are. *)
Lemma sorted_part_total children child_deps :
  ∃ r, sorted_part children child_deps = Returns r.
Proof.
  unfold sorted_part.
  destruct (build_good children child_deps children (initial_graph children))
    as (g & -> & Hi & Ha & Hc); [done | apply initial_good |].
  simpl.
  destruct (initial_queue_total children (in_deg g) children Hi)
    as (q & -> & Hq); [done|].
  simpl. by eapply kahn_total.
Qed.

Lemma sort_children_total children child_deps :
  ∃ r, sort_children children child_deps = Returns r.
Proof.
  unfold sort_children.
  destruct (sorted_part_total children child_deps) as ([deg r] & ->).
  simpl. eauto.
Qed.

End SorterTotal.

(** ** The sorter on a list of distinct siblings *)

Module SorterInv.
Import Sorter SorterSpec SorterTotal.

Ltac list_norm := repeat (rewrite <- ?app_assoc; cbn [app]).

Lemma occ_app v l1 l2 : occ v (l1 ++ l2) = (occ v l1 + occ v l2)%nat.
Proof.
  induction l1 as [|x l1 IH]; simpl; [done|]. case_decide; lia.
Qed.

Lemma occ_cons v x l :
  occ v (x :: l) = if decide (x = v) then S (occ v l) else occ v l.
Proof. done. Qed.

Lemma occ_zero v l : occ v l = 0%nat ↔ v ∉ l.
Proof.
  induction l as [|x l IH]; simpl.
  - split; [intros _; apply not_elem_of_nil | done].
  - rewrite not_elem_of_cons. case_decide; subst; [|naive_solver].
    split; [lia | naive_solver].
Qed.

Lemma elem_of_concat_map (f : string → list string) l v :
  v ∈ concat (map f l) ↔ ∃ u, u ∈ l ∧ v ∈ f u.
Proof.
  induction l as [|x l IH]; cbn [map concat].
  - split; [intros H; by apply elem_of_nil in H | intros (u & H & _)].
    by apply elem_of_nil in H.
  - rewrite elem_of_app, IH. split.
    + intros [H|(u & Hu & H)]; [exists x | exists u]; set_solver.
    + intros (u & Hu & H). apply elem_of_cons in Hu as [->|Hu]; eauto.
Qed.

Lemma leftover_nil cs : leftover cs [] = cs.
Proof.
  unfold leftover. induction cs as [|c cs IH]; [done|].
  rewrite filter_cons, decide_True, IH; [done | apply not_elem_of_nil].
Qed.

Lemma initial_queue_spec deg cps :
  (∀ c, c ∈ cps → is_Some (deg !! c)) →
  initial_queue deg cps = Returns (filter (λ c, deg !! c = Some 0%Z) cps).
Proof.
  induction cps as [|c cps IH]; intros Hk; [done|].
  cbn [initial_queue]. destruct (Hk c) as [z Hz]; [set_solver|].
  unfold subscript. rewrite Hz, IH by (intros; apply Hk; set_solver).
  cbn [mbind outcome_bind obind]. rewrite filter_cons, Hz.
  repeat case_decide; congruence.
Qed.

Lemma leftover_snoc_fresh cs r c :
  c ∉ cs → leftover cs (r ++ [c]) = leftover cs r.
Proof.
  unfold leftover. induction cs as [|x cs IH]; intros Hc; [done|].
  apply not_elem_of_cons in Hc as [Hne Hc]. rewrite !filter_cons, IH by done.
  destruct (decide (x ∈ r)).
  - rewrite !decide_False; [done | tauto | set_solver].
  - rewrite !decide_True; [done | done | set_solver].
Qed.

Lemma append_missing_spec cs : ∀ r,
  NoDup cs → append_missing cs r = r ++ leftover cs r.
Proof.
  unfold append_missing.
  induction cs as [|c cs IH]; intros r Hnd; cbn [fold_left].
  - by rewrite app_nil_r.
  - apply NoDup_cons in Hnd as [Hc Hnd]. rewrite IH by done.
    unfold leftover at 2. rewrite filter_cons. fold (leftover cs r).
    destruct (decide (c ∈ r)).
    + by rewrite decide_False by tauto.
    + rewrite decide_True by done. rewrite leftover_snoc_fresh by done.
      by list_norm.
Qed.

Lemma leftover_all cs clean :
  (∀ v, v ∈ cs → v ∈ clean) → leftover cs clean = [].
Proof.
  unfold leftover. induction cs as [|c cs IH]; intros H; [done|].
  rewrite filter_cons, decide_False, IH; [done | set_solver |].
  intros Hc. apply Hc, H. set_solver.
Qed.

Lemma before_snoc u v l x : before u v l → before u v (l ++ [x]).
Proof.
  intros (l1 & l2 & l3 & ->). exists l1, l2, (l3 ++ [x]). by list_norm.
Qed.

Section distinct.

Variable children : list string.
Variable child_deps : gmap string (list string).
Hypothesis children_distinct : NoDup children.

Local Abbreviation ntp := (name_to_path_of children).
Local Abbreviation rdeps := (resolved_deps children child_deps).
Local Abbreviation resolve := (SorterSpec.resolve children).
Local Abbreviation built := (SorterSpec.built children child_deps).

Lemma resolve_elem d p : resolve d = Some p → p ∈ children.
Proof.
  unfold SorterSpec.resolve.
  destruct (name_to_path_of children !! d) as [q|] eqn:Hq; [|done].
  case_decide; [done|]. intros [= <-]. by eapply name_to_path_elem.
Qed.

Lemma rdeps_elem u v : v ∈ rdeps u → v ∈ children.
Proof.
  unfold resolved_deps. intros H.
  apply list_elem_of_omap in H as (d & _ & Hd). by eapply resolve_elem.
Qed.

(** *** What [build] leaves in the two dictionaries *)

Lemma add_deps_spec cp ds : ∀ g l0,
  adj g !! cp = Some l0 →
  (∀ v, v ∈ children → is_Some (in_deg g !! v)) →
  ∃ g', add_deps ntp cp g ds = Returns g' ∧
        adj g' = <[cp := l0 ++ omap resolve ds]> (adj g) ∧
        (∀ v z, in_deg g !! v = Some z →
                in_deg g' !! v
                = Some (z + Z.of_nat (occ v (omap resolve ds)))%Z) ∧
        (∀ v, in_deg g !! v = None → in_deg g' !! v = None).
Proof.
  induction ds as [|d ds IH]; intros g l0 Hl Hk; simpl.
  - exists g. split; [done|]. split; [|split].
    + rewrite app_nil_r. by rewrite insert_id.
    + intros v z ->. f_equal. lia.
    + done.
  - assert (Hdep : add_dep ntp cp g d
                   = match resolve d with
                     | None => Returns g
                     | Some p =>
                         l ← subscript (adj g) cp ;
                         n ← subscript (in_deg g) p ;
                         Returns (Graph (<[p := (n + 1)%Z]> (in_deg g))
                                        (<[cp := l ++ [p]]> (adj g)))
                     end).
    { unfold add_dep, SorterSpec.resolve.
      destruct (name_to_path_of children !! d); [|done]. by case_decide. }
    rewrite Hdep. clear Hdep.
    change (omap resolve (d :: ds))
      with (match resolve d with
            | Some p => p :: omap resolve ds
            | None => omap resolve ds
            end).
    destruct (resolve d) as [p|] eqn:Hp; [|by apply IH].
    destruct (Hk p) as [z Hz]; [by eapply resolve_elem|].
    unfold subscript. rewrite Hl, Hz. cbn [mbind outcome_bind obind].
    edestruct (IH (Graph (<[p := (z + 1)%Z]> (in_deg g))
                         (<[cp := l0 ++ [p]]> (adj g))) (l0 ++ [p]))
      as (g' & Hg' & Ha & Hd & Hn).
    { cbn [adj]. apply lookup_insert_eq. }
    { cbn [in_deg]. intros v Hv. destruct (decide (p = v)) as [->|].
      - rewrite lookup_insert_eq. eauto.
      - rewrite lookup_insert_ne by done. auto. }
    exists g'. split; [done|]. cbn [adj in_deg] in *. split; [|split].
    + rewrite Ha, insert_insert_eq. by rewrite <- app_assoc.
    + intros v z' Hv. rewrite occ_cons.
      destruct (decide (p = v)) as [->|Hpv].
      * rewrite (Hd v (z + 1)%Z) by apply lookup_insert_eq.
        f_equal. assert (z' = z) by congruence. unfold omap. lia.
      * rewrite (Hd v z') by (by rewrite lookup_insert_ne). done.
    + intros v Hv. apply Hn.
      destruct (decide (p = v)) as [->|Hpv]; [congruence|].
      by rewrite lookup_insert_ne.
Qed.

Lemma build_spec cps : ∀ done g,
  NoDup (done ++ cps) → (∀ c, c ∈ cps → c ∈ children) →
  built g done →
  ∃ g', build ntp child_deps g cps = Returns g' ∧ built g' (done ++ cps).
Proof.
  induction cps as [|cp cps IH]; intros done g Hnd Hsub [Ha Hd]; simpl.
  - exists g. by rewrite app_nil_r.
  - assert (Hcp : cp ∈ children) by (apply Hsub; set_solver).
    assert (Hfresh : cp ∉ done).
    { apply NoDup_app in Hnd as (_ & Hx & _). intros Hc.
      apply (Hx cp Hc). set_solver. }
    pose proof (Ha cp Hcp) as Hl. rewrite decide_False in Hl by done.
    destruct (add_deps_spec cp (default [] (child_deps !! last_segment cp))
                g [] Hl) as (g1 & -> & Ha1 & Hd1 & _).
    { intros v Hv. rewrite Hd by done. eauto. }
    simpl. destruct (IH (done ++ [cp]) g1) as (g' & -> & Hb).
    { by rewrite <- app_assoc. }
    { intros c Hc. apply Hsub. set_solver. }
    { split.
      - intros u Hu. rewrite Ha1. destruct (decide (cp = u)) as [->|Hne].
        + rewrite lookup_insert_eq, decide_True by set_solver. done.
        + rewrite lookup_insert_ne, Ha by done.
          repeat case_decide; set_solver.
      - intros v Hv. rewrite (Hd1 v _ (Hd v Hv)).
        rewrite map_app, concat_app, occ_app. cbn [map concat].
        rewrite app_nil_r. f_equal.
        change (omap resolve (default [] (child_deps !! last_segment cp)))
          with (rdeps cp).
        lia. }
    exists g'. split; [done|]. by rewrite <- app_assoc in Hb.
Qed.

Lemma build_result :
  ∃ g, build ntp child_deps (initial_graph children) children = Returns g ∧
       built g children.
Proof.
  apply (build_spec children [] (initial_graph children)); [done..|].
  split; cbn [adj in_deg initial_graph].
  - intros u Hu. rewrite const_dict_lookup by done.
    case_decide as Hx; [by apply elem_of_nil in Hx | done].
  - intros v Hv. by rewrite const_dict_lookup.
Qed.

(** *** The invariant of the [while] loop *)

Local Abbreviation pend := (pending children child_deps).
Local Abbreviation Inv := (sorting children child_deps).

Lemma occ_leftover_pop result node v cs :
  NoDup cs → node ∉ result →
  occ v (concat (map rdeps (leftover cs result)))
  = ((if decide (node ∈ cs) then occ v (rdeps node) else 0)
     + occ v (concat (map rdeps (leftover cs (result ++ [node])))))%nat.
Proof.
  intros Hnd Hnode. unfold leftover.
  induction Hnd as [|c cs Hc Hnd IH].
  - rewrite decide_False; [done | apply not_elem_of_nil].
  - rewrite !filter_cons. destruct (decide (c = node)) as [->|Hne].
    + rewrite (decide_True (P := node ∈ node :: cs)) by set_solver.
      rewrite (decide_True (P := node ∉ result)) by done.
      rewrite (decide_False (P := node ∉ result ++ [node])) by set_solver.
      rewrite decide_False in IH by done.
      cbn [map concat]. rewrite occ_app, IH. lia.
    + destruct (decide (c ∈ result)) as [Hin|Hout].
      * rewrite (decide_False (P := c ∉ result)) by tauto.
        rewrite (decide_False (P := c ∉ result ++ [node])) by set_solver.
        rewrite IH. repeat case_decide; set_solver.
      * rewrite (decide_True (P := c ∉ result)) by done.
        rewrite (decide_True (P := c ∉ result ++ [node])) by set_solver.
        cbn [map concat]. rewrite !occ_app, IH.
        repeat case_decide; set_solver by lia.
Qed.

Lemma pending_pop result node v :
  node ∈ children → node ∉ result →
  occ v (pend (result ++ [node]) (rdeps node)) = occ v (pend result []).
Proof.
  intros Hin Hout. unfold pending. rewrite occ_app. cbn [app].
  rewrite (occ_leftover_pop result node v children) by done.
  by rewrite decide_True.
Qed.

Lemma leftover_deps_pending result rest u v :
  u ∈ children → u ∉ result → v ∈ rdeps u → v ∈ pend result rest.
Proof.
  intros Hu Hr Hv. unfold pending. apply elem_of_app. right.
  apply elem_of_concat_map. exists u. split; [|done].
  unfold leftover. by apply list_elem_of_filter.
Qed.

(** One turn of the inner loop. *)
Lemma relax_step deg result queue d rest :
  Inv deg result queue (d :: rest) →
  ∃ z, deg !! d = Some z ∧
       Inv (<[d := (z - 1)%Z]> deg) result
           (if decide ((z - 1)%Z = 0%Z) then queue ++ [d] else queue) rest.
Proof.
  intros (Hdeg & Hzero & Hnd & Hsub & Hord & Hrest).
  assert (Hd : d ∈ children) by (apply Hrest; set_solver).
  change (pend result (d :: rest)) with (d :: pend result rest) in *.
  pose proof (Hdeg d Hd) as Hz. rewrite occ_cons, decide_True in Hz by done.
  eexists. split; [exact Hz|].
  assert (Hnew : d ∉ result ++ queue).
  { intros Hin. apply (Hzero d Hd) in Hin.
    rewrite occ_cons, decide_True in Hin by done. lia. }
  replace (Z.of_nat (S (occ d (pend result rest))) - 1)%Z
    with (Z.of_nat (occ d (pend result rest))) by lia.
  split; [|split; [|split; [|split; [|split]]]].
  - intros v Hv. destruct (decide (d = v)) as [->|Hne].
    + by rewrite lookup_insert_eq.
    + rewrite lookup_insert_ne, Hdeg by done.
      by rewrite occ_cons, decide_False.
  - intros v Hv. destruct (decide (d = v)) as [->|Hne].
    + case_decide as Hk.
      * split; [lia | set_solver].
      * split; [intros Hin; by destruct Hnew | lia].
    + rewrite <- (decide_False (P := d = v) (S (occ v (pend result rest)))
                   (occ v (pend result rest))) by done.
      rewrite <- occ_cons, <- Hzero by done.
      case_decide; set_solver.
  - case_decide; [|done]. rewrite app_assoc.
    apply NoDup_app. split; [done|]. split; [|apply NoDup_singleton].
    intros x Hx Hx'. apply list_elem_of_singleton in Hx'. by subst.
  - intros v Hv. case_decide; [|by apply Hsub].
    rewrite app_assoc in Hv. apply elem_of_app in Hv as [Hv|Hv]; [by apply Hsub|].
    apply list_elem_of_singleton in Hv. by subst.
  - intros u v Huv Hv. case_decide as Hk; [|by apply Hord].
    rewrite app_assoc in *. apply elem_of_app in Hv as [Hv|Hv].
    + apply before_snoc. by apply Hord.
    + apply list_elem_of_singleton in Hv. subst v.
      destruct Huv as [Hu Hdu].
      assert (Hur : u ∈ result).
      { destruct (decide (u ∈ result)) as [|Hn]; [done|].
        assert (occ d (pend result rest) = 0%nat) as Ho by lia.
        apply occ_zero in Ho. destruct Ho.
        by eapply leftover_deps_pending. }
      apply list_elem_of_split in Hur as (l1 & l2 & ->).
      exists l1, (l2 ++ queue), []. by list_norm.
  - intros v Hv. apply Hrest. set_solver.
Qed.

Lemma relax_inv rest : ∀ deg result queue,
  Inv deg result queue rest →
  ∃ deg' queue', relax rest deg queue = Returns (deg', queue') ∧
                 Inv deg' result queue' [].
Proof.
  induction rest as [|d rest IH]; intros deg result queue HI; simpl.
  - by exists deg, queue.
  - destruct (relax_step _ _ _ _ _ HI) as (z & Hz & HI').
    unfold subscript. rewrite Hz. cbn [mbind outcome_bind obind].
    by apply IH.
Qed.

(** Taking the head of the queue. *)
Lemma pop_inv deg result node queue :
  Inv deg result (node :: queue) [] →
  Inv deg (result ++ [node]) queue (rdeps node).
Proof.
  intros (Hdeg & Hzero & Hnd & Hsub & Hord & Hrest).
  assert (Hin : node ∈ children) by (apply Hsub; set_solver).
  assert (Hout : node ∉ result).
  { apply NoDup_app in Hnd as (_ & Hx & _). intros Hc.
    apply (Hx node Hc). set_solver. }
  unfold sorting. list_norm.
  split; [|split; [|split; [|split; [|split]]]]; try done.
  - intros v Hv. rewrite pending_pop by done. by apply Hdeg.
  - intros v Hv. rewrite pending_pop by done. by apply Hzero.
  - intros v. apply rdeps_elem.
Qed.

Lemma kahn_inv a fuel : ∀ deg queue result deg' r,
  (∀ u, u ∈ children → a !! u = Some (rdeps u)) →
  Inv deg result queue [] →
  kahn fuel a deg queue result = Returns (deg', r) →
  Inv deg' r [] [].
Proof.
  induction fuel as [|fuel IH]; intros deg queue result deg' r Ha HI.
  - destruct queue; simpl; [|done]. intros [= <- <-]. done.
  - destruct queue as [|node queue]; simpl; [by intros [= <- <-]|].
    assert (Hin : node ∈ children).
    { destruct HI as (_ & _ & _ & Hsub & _). apply Hsub. set_solver. }
    unfold subscript. rewrite (Ha node Hin). cbn [mbind outcome_bind obind].
    apply pop_inv in HI.
    destruct (relax_inv _ _ _ _ HI) as (deg1 & q1 & -> & HI1).
    cbn [mbind outcome_bind obind]. by apply IH.
Qed.

(** *** The state in which the [while] loop starts and ends *)

Lemma initial_inv g :
  built g children →
  Inv (in_deg g) [] (filter (λ c, in_deg g !! c = Some 0%Z) children) [].
Proof.
  intros [Ha Hd].
  assert (Hp : pend [] [] = concat (map rdeps children)).
  { unfold pending. by rewrite leftover_nil. }
  unfold sorting. rewrite Hp. cbn [app].
  split; [|split; [|split; [|split; [|split]]]].
  - done.
  - intros v Hv. rewrite list_elem_of_filter, Hd by done.
    split; [intros [[= H] _]; lia | intros ->; done].
  - by apply NoDup_filter.
  - intros v Hv. by apply list_elem_of_filter in Hv as [_ ?].
  - intros u v [Hu Huv] Hv. apply list_elem_of_filter in Hv as [Hz Hv].
    rewrite Hd in Hz by done.
    assert (occ v (concat (map rdeps children)) = 0%nat) as Ho
      by (injection Hz; lia).
    apply occ_zero in Ho. destruct Ho. apply elem_of_concat_map. eauto.
  - intros v Hv. by apply elem_of_nil in Hv.
Qed.

Lemma sorted_part_spec :
  ∃ deg clean, sorted_part children child_deps = Returns (deg, clean) ∧
               Inv deg clean [] [].
Proof.
  unfold sorted_part. destruct build_result as (g & Hg & Hb).
  destruct (build_good children child_deps children (initial_graph children))
    as (g' & Hg' & Hi & Ha & Hc); [done | apply initial_good |].
  assert (g' = g) as -> by congruence. rewrite Hg.
  cbn [mbind outcome_bind obind].
  rewrite initial_queue_spec by (intros; by apply Hi).
  cbn [mbind outcome_bind obind].
  pose proof (initial_inv g Hb) as HI.
  destruct (kahn_total children (adj g)
              (length (filter (λ c, in_deg g !! c = Some 0%Z) children)
               + weight (in_deg g))
              (in_deg g) (filter (λ c, in_deg g !! c = Some 0%Z) children) [])
    as ([deg clean] & Hr); try done.
  { intros v Hv. by apply list_elem_of_filter in Hv as [_ ?]. }
  exists deg, clean. split; [done|].
  eapply kahn_inv; [|exact HI|exact Hr].
  intros u Hu. destruct Hb as [Hadj _]. rewrite Hadj by done.
  by rewrite decide_True.
Qed.

(** *** The last loop and the result *)

Lemma clean_leftover_perm clean :
  NoDup clean → (∀ v, v ∈ clean → v ∈ children) →
  clean ++ leftover children clean ≡ₚ children.
Proof.
  intros Hnd Hsub. apply NoDup_Permutation; [|done|].
  - apply NoDup_app. split; [done|]. split.
    + intros x Hx Hx'. by apply list_elem_of_filter in Hx' as [? _].
    + by apply NoDup_filter.
  - intros x. rewrite elem_of_app. unfold leftover.
    rewrite list_elem_of_filter. split.
    + intros [?|[_ ?]]; auto.
    + intros Hx. destruct (decide (x ∈ clean)); auto.
Qed.

Lemma clean_iff_zero deg clean cp :
  Inv deg clean [] [] → cp ∈ children →
  cp ∈ clean ↔ deg !! cp = Some 0%Z.
Proof.
  intros (Hdeg & Hzero & _) Hcp. rewrite app_nil_r in Hzero.
  rewrite Hzero, Hdeg by done. split; [by intros -> | intros [= H]; lia].
Qed.

(** *** Without a cycle every sibling is emitted by the loop *)

Local Abbreviation deps_on := (depends_on children child_deps).

Lemma walk_reach x l y :
  walk children child_deps (x :: l) → y ∈ l → tc deps_on x y.
Proof.
  revert x. induction l as [|z l IH]; intros x Hw Hy.
  - by apply elem_of_nil in Hy.
  - inversion Hw as [|? ? ? Hxz Hw']; subst.
    apply elem_of_cons in Hy as [->|Hy]; [by apply tc_once|].
    eapply tc_l; [exact Hxz|]. by apply IH.
Qed.

Lemma walk_distinct l :
  acyclic children child_deps → walk children child_deps l → NoDup l.
Proof.
  intros Hac Hw. induction Hw as [x|x y l Hxy Hw IH].
  - apply NoDup_singleton.
  - apply NoDup_cons. split; [|done].
    intros Hx. apply (Hac x). eapply walk_reach; [|exact Hx].
    by apply walk_cons.
Qed.

Lemma stuck_has_stuck_dependent deg clean v :
  Inv deg clean [] [] → v ∈ children → v ∉ clean →
  ∃ u, u ∈ children ∧ (u ∉ clean) ∧ deps_on u v.
Proof.
  intros (_ & Hzero & _) Hv Hout. rewrite app_nil_r in Hzero.
  assert (Hin : v ∈ pend clean []).
  { destruct (decide (v ∈ pend clean [])) as [|Hn]; [done|].
    apply occ_zero in Hn. by apply Hzero in Hn. }
  unfold pending in Hin. cbn [app] in Hin.
  apply elem_of_concat_map in Hin as (u & Hu & Huv).
  apply list_elem_of_filter in Hu as [Hu1 Hu2].
  exists u. by repeat split.
Qed.

Lemma stuck_walk deg clean v n :
  Inv deg clean [] [] → v ∈ children → v ∉ clean →
  ∃ l, length l = S n ∧ walk children child_deps l ∧
       ∀ x, x ∈ l → x ∈ children ∧ x ∉ clean.
Proof.
  intros HI Hv Hout. induction n as [|n (l & Hlen & Hw & Hl)].
  - exists [v]. split; [done|]. split; [constructor|].
    intros x Hx. apply list_elem_of_singleton in Hx. by subst.
  - destruct l as [|h l]; [done|].
    destruct (stuck_has_stuck_dependent deg clean h HI) as (u & Hu & Hu' & Huh);
      [apply Hl; set_solver..|].
    exists (u :: h :: l). split; [simpl in *; lia|]. split.
    + by apply walk_cons.
    + intros x Hx. apply elem_of_cons in Hx as [->|Hx]; [done | by apply Hl].
Qed.

Lemma acyclic_all_clean deg clean :
  acyclic children child_deps → Inv deg clean [] [] →
  ∀ v, v ∈ children → v ∈ clean.
Proof.
  intros Hac HI v Hv. destruct (decide (v ∈ clean)) as [|Hout]; [done|].
  destruct (stuck_walk deg clean v (length children) HI Hv Hout)
    as (l & Hlen & Hw & Hl).
  pose proof (walk_distinct l Hac Hw) as Hnd.
  assert (l ⊆+ children) as Hsub.
  { apply NoDup_submseteq; [done|]. intros x Hx. by apply Hl. }
  apply submseteq_length in Hsub. lia.
Qed.

End distinct.

(** C1 (as amended): [sort_children] returns on every sibling list and every
    map of declared dependencies, cyclic ones and names outside the siblings
    included.  When no path occurs twice among the siblings, the list it
    returns is a permutation of them: the siblings the loop emitted
    ([clean], exactly those whose in-degree is zero when the loop ends)
    followed by all the others in their declaration order. *)
Theorem sort_children_permutation children child_deps :
  (∃ out, sort_children children child_deps = Returns out) ∧
  (NoDup children →
   ∃ deg clean,
     sorted_part children child_deps = Returns (deg, clean) ∧
     sort_children children child_deps
     = Returns (clean ++ leftover children clean) ∧
     clean ++ leftover children clean ≡ₚ children ∧
     ∀ cp, cp ∈ children → (cp ∈ clean ↔ deg !! cp = Some 0%Z)).
Proof.
  split; [apply sort_children_total|]. intros Hnd.
  destruct (sorted_part_spec children child_deps Hnd) as (deg & clean & Hs & HI).
  exists deg, clean. split; [done|]. split; [|split].
  - unfold sort_children. rewrite Hs. cbn [mbind outcome_bind obind].
    by rewrite append_missing_spec.
  - destruct HI as (_ & _ & Hnd' & Hsub & _). rewrite app_nil_r in *.
    by apply clean_leftover_perm.
  - intros cp Hcp. by eapply clean_iff_zero.
Qed.

(** C1, a run of the amended statement: three siblings, two of them in a
    cycle. *)
Lemma sort_children_permutation_witness :
  NoDup ["r/a"; "r/b"; "r/c"] ∧
  ∃ deg clean,
    sorted_part ["r/a"; "r/b"; "r/c"] {["b" := ["c"]; "c" := ["b"]]}
    = Returns (deg, clean) ∧
    sort_children ["r/a"; "r/b"; "r/c"] {["b" := ["c"]; "c" := ["b"]]}
    = Returns (clean ++ leftover ["r/a"; "r/b"; "r/c"] clean) ∧
    clean ++ leftover ["r/a"; "r/b"; "r/c"] clean ≡ₚ ["r/a"; "r/b"; "r/c"] ∧
    ∀ cp, cp ∈ ["r/a"; "r/b"; "r/c"] → (cp ∈ clean ↔ deg !! cp = Some 0%Z).
Proof.
  assert (H : NoDup ["r/a"; "r/b"; "r/c"]).
  { refine (bool_decide_unpack _ _). by vm_compute. }
  split; [exact H|].
  exact (proj2 (sort_children_permutation ["r/a"; "r/b"; "r/c"]
                  {["b" := ["c"]; "c" := ["b"]]}) H).
Defined.

(** C1 as stated fails on a sibling list that names a path twice (a file
    that declares [mod b] twice, then [mod a {b}]): the list returned has two
    entries for three siblings. *)
Lemma sort_children_repeated_path :
  sort_children ["r/b"; "r/b"; "r/a"] {["a" := ["b"]; "b" := []]}
  = Returns ["r/a"; "r/b"] ∧
  ¬ (["r/a"; "r/b"] ≡ₚ ["r/b"; "r/b"; "r/a"]).
Proof.
  split; [by vm_compute|]. intros H. by apply Stdlib.Sorting.Permutation.Permutation_length in H.
Qed.

(** C2 (as amended): when no path occurs twice among the siblings and the
    declared dependencies among them have no cycle, [sort_children] returns
    all of them in an order in which every sibling stands before each sibling
    it depends on; and for [a] and [b], with [b] depending on [a], it returns
    [b] then [a]. *)
Theorem sort_children_dependents_first :
  (∀ children child_deps,
     NoDup children → acyclic children child_deps →
     ∃ out, sort_children children child_deps = Returns out ∧
            out ≡ₚ children ∧
            ∀ u v, depends_on children child_deps u v → before u v out) ∧
  sort_children ["root/a"; "root/b"] {["a" := []; "b" := ["a"]]}
  = Returns ["root/b"; "root/a"].
Proof.
  split; [|by vm_compute]. intros children child_deps Hnd Hac.
  destruct (sorted_part_spec children child_deps Hnd) as (deg & clean & Hs & HI).
  assert (Hall : ∀ v, v ∈ children → v ∈ clean)
    by (by eapply acyclic_all_clean).
  exists clean. split; [|split].
  - unfold sort_children. rewrite Hs. cbn [mbind outcome_bind obind].
    rewrite append_missing_spec, leftover_all, app_nil_r by done. done.
  - destruct HI as (_ & _ & Hnd' & Hsub & _). rewrite app_nil_r in *.
    assert (Hp : clean ++ leftover children clean ≡ₚ children)
      by (by apply clean_leftover_perm).
    by rewrite leftover_all, app_nil_r in Hp.
  - intros u v Huv. destruct HI as (_ & _ & _ & _ & Hord & _).
    rewrite app_nil_r in Hord. apply Hord; [done|]. apply Hall.
    destruct Huv as [_ Hv]. by eapply rdeps_elem.
Qed.

(** C2, a run of the amended statement on the two siblings of the example. *)
Lemma sort_children_dependents_first_witness :
  NoDup ["root/a"; "root/b"] ∧
  acyclic ["root/a"; "root/b"] {["a" := []; "b" := ["a"]]} ∧
  ∃ out,
    sort_children ["root/a"; "root/b"] {["a" := []; "b" := ["a"]]}
    = Returns out ∧
    out ≡ₚ ["root/a"; "root/b"] ∧
    ∀ u v, depends_on ["root/a"; "root/b"] {["a" := []; "b" := ["a"]]} u v →
           before u v out.
Proof.
  assert (Hnd : NoDup ["root/a"; "root/b"]).
  { refine (bool_decide_unpack _ _). by vm_compute. }
  assert (Hedge : ∀ u v,
            depends_on ["root/a"; "root/b"] {["a" := []; "b" := ["a"]]} u v →
            u = "root/b" ∧ v = "root/a").
  { intros u v [Hu Hv].
    apply elem_of_cons in Hu as [->|Hu];
      [|apply list_elem_of_singleton in Hu as ->]; vm_compute in Hv.
    - by apply elem_of_nil in Hv.
    - by apply list_elem_of_singleton in Hv as ->. }
  assert (Hac : acyclic ["root/a"; "root/b"] {["a" := []; "b" := ["a"]]}).
  { assert (Htc : ∀ u v,
              tc (depends_on ["root/a"; "root/b"]
                    {["a" := []; "b" := ["a"]]}) u v →
              u = "root/b" ∧ v = "root/a").
    { intros u v H. induction H as [u v H|u w v H _ [Hw _]]; [by apply Hedge|].
      apply Hedge in H as [_ ->]. done. }
    intros v H. by apply Htc in H as [-> ?]. }
  split; [exact Hnd|]. split; [exact Hac|].
  exact (proj1 sort_children_dependents_first _ _ Hnd Hac).
Defined.

(** C2 as stated fails on a sibling list that names a path twice: the
    dependencies have no cycle, [c] depends on [b], and [b] is returned
    before [c]. *)
Lemma sort_children_repeated_order :
  acyclic ["r/a"; "r/a"; "r/d"; "r/c"; "r/b"]
    {["a" := ["b"]; "d" := ["c"]; "c" := ["b"]; "b" := []]} ∧
  sort_children ["r/a"; "r/a"; "r/d"; "r/c"; "r/b"]
    {["a" := ["b"]; "d" := ["c"]; "c" := ["b"]; "b" := []]}
  = Returns ["r/a"; "r/a"; "r/d"; "r/b"; "r/c"] ∧
  depends_on ["r/a"; "r/a"; "r/d"; "r/c"; "r/b"]
    {["a" := ["b"]; "d" := ["c"]; "c" := ["b"]; "b" := []]} "r/c" "r/b" ∧
  ¬ before "r/c" "r/b" ["r/a"; "r/a"; "r/d"; "r/b"; "r/c"].
Proof.
  split; [|split; [by vm_compute|split]].
  - assert (Hedge : ∀ u v,
              depends_on ["r/a"; "r/a"; "r/d"; "r/c"; "r/b"]
                {["a" := ["b"]; "d" := ["c"]; "c" := ["b"]; "b" := []]} u v →
              (u = "r/a" ∧ v = "r/b") ∨ (u = "r/d" ∧ v = "r/c") ∨
              (u = "r/c" ∧ v = "r/b")).
    { intros u v [Hu Hv].
      repeat (apply elem_of_cons in Hu as [->|Hu]);
        try (by apply elem_of_nil in Hu); vm_compute in Hv;
        first [ by apply elem_of_nil in Hv
              | apply list_elem_of_singleton in Hv as ->; auto ]. }
    assert (Htc : ∀ u v,
              tc (depends_on ["r/a"; "r/a"; "r/d"; "r/c"; "r/b"]
                    {["a" := ["b"]; "d" := ["c"]; "c" := ["b"]; "b" := []]})
                 u v →
              u ≠ "r/b" ∧ (v = "r/b" ∨ (u = "r/d" ∧ v = "r/c"))).
    { intros u v H. induction H as [u v H|u w v H _ [Hw IH]].
      - apply Hedge in H as [[-> ->]|[[-> ->]|[-> ->]]]; split; auto; done.
      - apply Hedge in H as [[-> ->]|[[-> ->]|[-> ->]]];
          (split; [done|]); destruct IH as [->|[? ->]]; auto; done. }
    intros v H. apply Htc in H as [Hne [->|[-> ?]]]; done.
  - split; [set_solver|]. vm_compute. set_solver.
  - intros (l1 & l2 & l3 & H).
    destruct l1 as [|? [|? [|? [|? [|? [|? l1]]]]]]; simplify_eq/=;
      destruct l2 as [|? [|? l2]]; simplify_eq/=.
Qed.

End SorterInv.

(** ** Splitting and joining paths *)

Module StringFacts.

Lemma append_cons c (s t : string) : String c s +:+ t = String c (s +:+ t).
Proof. done. Qed.

Lemma append_nil_l (t : string) : "" +:+ t = t.
Proof. done. Qed.

Lemma append_nil_r (s : string) : s +:+ "" = s.
Proof. induction s as [|c s IH]; [done | by rewrite append_cons, IH]. Qed.

Lemma append_assoc (a b c : string) : (a +:+ b) +:+ c = a +:+ (b +:+ c).
Proof.
  induction a as [|x a IH]; [done | by rewrite !append_cons, IH].
Qed.

Lemma prefix_slash c s :
  String.prefix "/" (String c s) = Ascii.eqb "/" c.
Proof.
  destruct (Ascii.eqb_spec "/" c) as [<-|Hne].
  - simpl. by destruct s.
  - cbn [String.prefix]. by destruct (ascii_dec "/" c).
Qed.

(** One step of [split] on the separator ["/"]. *)
Lemma split_go_slash acc c s :
  split_go "/" 0 acc (String c s)
  = if Ascii.eqb "/" c then acc :: split_go "/" 0 "" s
    else split_go "/" 0 (acc +:+ String c "") s.
Proof.
  change (split_go "/" 0 acc (String c s))
    with (if String.prefix "/" (String c s)
          then acc :: split_go "/" 0 "" s
          else split_go "/" 0 (acc +:+ String c "") s).
  by rewrite prefix_slash.
Qed.

Lemma split_go_nonempty sep skip acc s : split_go sep skip acc s ≠ [].
Proof.
  revert skip acc.
  induction s as [|c s IH]; intros skip acc; cbn [split_go]; [done|].
  destruct skip; [|apply IH]. destruct (String.prefix sep (String c s)); [done|].
  apply IH.
Qed.

Lemma split_nonempty sep s : split sep s ≠ [].
Proof. apply split_go_nonempty. Qed.

Lemma join_cons sep x l :
  l ≠ [] → join sep (x :: l) = x +:+ sep +:+ join sep l.
Proof. by destruct l. Qed.

Lemma join_split_go acc s :
  join "/" (split_go "/" 0 acc s) = acc +:+ s.
Proof.
  revert acc. induction s as [|c s IH]; intros acc.
  - simpl. by rewrite append_nil_r.
  - rewrite split_go_slash. destruct (Ascii.eqb "/" c) eqn:Hc.
    + apply Ascii.eqb_eq in Hc as <-.
      rewrite join_cons by apply split_go_nonempty. by rewrite IH.
    + rewrite IH. by rewrite append_assoc.
Qed.

(** Joining the segments of a path gives the path back. *)
Lemma join_split s : join "/" (split "/" s) = s.
Proof. apply join_split_go. Qed.

Lemma slashfree_app a b :
  slashfree (a +:+ b) = slashfree a && slashfree b.
Proof.
  induction a as [|c a IH]; [done|]. rewrite append_cons. simpl.
  rewrite IH. by rewrite andb_assoc.
Qed.

Lemma split_go_slashfree acc s :
  slashfree acc = true → Forall (λ x, slashfree x = true) (split_go "/" 0 acc s).
Proof.
  revert acc. induction s as [|c s IH]; intros acc Hacc.
  - simpl. by constructor.
  - rewrite split_go_slash. destruct (Ascii.eqb "/" c) eqn:Hc.
    + constructor; [done | by apply IH].
    + apply IH. rewrite slashfree_app, Hacc. simpl.
      rewrite Ascii.eqb_sym, Hc. done.
Qed.

(** The segments of a path hold no ["/"]. *)
Lemma split_slashfree s : Forall (λ x, slashfree x = true) (split "/" s).
Proof. by apply split_go_slashfree. Qed.

Lemma split_go_segment x : ∀ acc s,
  slashfree x = true →
  split_go "/" 0 acc (x +:+ s) = split_go "/" 0 (acc +:+ x) s.
Proof.
  induction x as [|c x IH]; intros acc s Hx.
  - by rewrite append_nil_l, append_nil_r.
  - simpl in Hx. apply andb_true_iff in Hx as [Hc Hx].
    rewrite append_cons, split_go_slash. rewrite Ascii.eqb_sym.
    apply negb_true_iff in Hc. rewrite Hc, IH by done.
    by rewrite append_assoc.
Qed.

(** Splitting the join of segments gives the segments back. *)
Lemma split_join l :
  l ≠ [] → Forall (λ x, slashfree x = true) l → split "/" (join "/" l) = l.
Proof.
  intros Hne Hl. unfold split. induction Hl as [|x l Hx Hl IH]; [done|].
  destruct l as [|y l].
  - change (join "/" [x]) with x. rewrite <- (append_nil_r x) at 1.
    rewrite split_go_segment by done. done.
  - rewrite join_cons by done. rewrite split_go_segment by done.
    change ("/" +:+ join "/" (y :: l)) with (String "/" (join "/" (y :: l))).
    rewrite split_go_slash. simpl Ascii.eqb. cbn iota. rewrite IH by done.
    done.
Qed.

Lemma join_take_S segs k seg :
  (0 < k)%nat → segs !! k = Some seg →
  join "/" (take (S k) segs) = join "/" (take k segs) +:+ "/" +:+ seg.
Proof.
  revert k. induction segs as [|x segs IH]; intros k Hk Hseg; [done|].
  destruct k as [|k]; [lia|]. simpl in Hseg.
  destruct k as [|k].
  - destruct segs as [|y segs]; [done|]. simpl in Hseg. injection Hseg as ->.
    done.
  - assert (Hne : take (S k) segs ≠ []) by (by destruct segs).
    assert (Hne' : take (S (S k)) segs ≠ []) by (by destruct segs).
    change (take (S (S (S k))) (x :: segs)) with (x :: take (S (S k)) segs).
    change (take (S (S k)) (x :: segs)) with (x :: take (S k) segs).
    rewrite !join_cons by done. rewrite (IH (S k)) by (done || lia).
    by rewrite !append_assoc.
Qed.

Lemma rsplit_head_colonfree f :
  colonfree f = true → rsplit_head "::" f = None.
Proof.
  induction f as [|c f IH]; [done|]. cbn [colonfree rsplit_head].
  intros H. apply andb_true_iff in H as [Hc Hf]. rewrite IH by done.
  apply negb_true_iff, Ascii.eqb_neq in Hc.
  cbn [String.prefix]. destruct (ascii_dec ":" c) as [<-|_]; done.
Qed.

Lemma rsplit_head_owner p f :
  colonfree f = true → rsplit_head "::" (p +:+ "::" +:+ f) = Some p.
Proof.
  intros Hf. induction p as [|c p IH].
  - rewrite append_nil_l.
    change ("::" +:+ f) with (String ":" (String ":" f)).
    cbn [rsplit_head]. rewrite rsplit_head_colonfree by done.
    destruct f as [|c f]; [done|].
    cbn [colonfree] in Hf. apply andb_true_iff in Hf as [Hc _].
    apply negb_true_iff, Ascii.eqb_neq in Hc.
    cbn [String.prefix]. destruct (ascii_dec ":" ":") as [_|?]; [|done].
    destruct (ascii_dec ":" c) as [<-|_]; [done|].
    by destruct (ascii_dec ":" ":").
  - rewrite append_cons. cbn [rsplit_head]. by rewrite IH.
Qed.

(** The owner [rsplit("::", 1)[0]] finds in an identity made of a path, two
    colons and a name without a colon is the path. *)
Lemma rsplit_first_owner p f :
  colonfree f = true → rsplit_first (p +:+ "::" +:+ f) = p.
Proof.
  intros Hf. unfold rsplit_first. by rewrite rsplit_head_owner.
Qed.

End StringFacts.

(** ** Visibility and endpoint resolution *)

Module VisibilityFacts.
Import Visibility StringFacts.

Local Abbreviation collapsed E := (λ p : string, negb (bool_decide (p ∈ E))).

Lemma prefix_paths_S segs i n :
  prefix_paths segs i (S n)
  = join "/" (take i segs) :: prefix_paths segs (S i) n.
Proof. done. Qed.

Lemma prefix_paths_snoc segs i n :
  prefix_paths segs i (S n)
  = prefix_paths segs i n ++ [join "/" (take (i + n) segs)].
Proof. unfold prefix_paths. by rewrite seq_S, map_app. Qed.

Lemma elem_of_prefix_paths segs i n p :
  p ∈ prefix_paths segs i n
  ↔ ∃ k, (i ≤ k < i + n)%nat ∧ p = join "/" (take k segs).
Proof.
  unfold prefix_paths. rewrite list_elem_of_In, in_map_iff. split.
  - intros (k & <- & Hk). apply in_seq in Hk. eauto.
  - intros (k & Hk & ->). exists k. split; [done|]. by apply in_seq.
Qed.

Lemma find_app {A} (f : A → bool) l1 l2 :
  List.find f (l1 ++ l2)
  = match List.find f l1 with Some x => Some x | None => List.find f l2 end.
Proof.
  induction l1 as [|x l1 IH]; [done|]. simpl. by destruct (f x).
Qed.

(** What [find] returns on a run of prefixes. *)
Lemma find_prefix_paths (P : string → bool) segs n : ∀ i,
  match List.find P (prefix_paths segs i n) with
  | Some r =>
      ∃ k, (i ≤ k < i + n)%nat ∧ r = join "/" (take k segs) ∧ P r = true ∧
           ∀ j, (i ≤ j < k)%nat → P (join "/" (take j segs)) = false
  | None => ∀ j, (i ≤ j < i + n)%nat → P (join "/" (take j segs)) = false
  end.
Proof.
  induction n as [|n IH]; intros i.
  - simpl. intros j Hj. lia.
  - rewrite prefix_paths_S. cbn [List.find].
    destruct (P (join "/" (take i segs))) eqn:HP.
    + exists i. repeat split; [lia.. | done | intros j Hj; lia].
    + specialize (IH (S i)).
      destruct (List.find P (prefix_paths segs (S i) n)) as [r|].
      * destruct IH as (k & Hk & -> & Hr & Hlow). exists k.
        repeat split; [lia.. | done |].
        intros j Hj. destruct (decide (j = i)) as [->|]; [done|].
        apply Hlow. lia.
      * intros j Hj. destruct (decide (j = i)) as [->|]; [done|].
        apply IH. lia.
Qed.

Lemma resolve_loop_spec (E : gset string) segs n : ∀ i current,
  current = join "/" (take (S i) segs) →
  resolve_loop E segs current i n
  = match List.find (collapsed E) (prefix_paths segs (S i) n) with
    | Some p => inl p
    | None => inr (join "/" (take (S i + n) segs))
    end.
Proof.
  induction n as [|n IH]; intros i current Hc.
  - simpl. by rewrite Nat.add_0_r, Hc.
  - rewrite prefix_paths_S. cbn [resolve_loop List.find]. rewrite <- Hc.
    destruct (decide (current ∈ E)) as [Hin|Hout].
    + rewrite bool_decide_true by done. cbn [negb].
      rewrite (IH (S i)) by (f_equal; f_equal; lia).
      by replace (S (S i) + n)%nat with (S i + S n)%nat by lia.
    + by rewrite bool_decide_false by done.
Qed.

(** [resolveVisible] returns the first module of the chain that is not
    expanded, and the endpoint itself when there is none. *)
Lemma resolveVisible_spec E fnId :
  resolveVisible E fnId = resolve_spec E fnId.
Proof.
  unfold resolveVisible, resolve_spec, chain. fold (owner fnId).
  pose proof (split_nonempty "/" (owner fnId)) as Hne.
  destruct (split "/" (owner fnId)) as [|s0 rest] eqn:Hsegs; [done|].
  replace (length (s0 :: rest) - 1)%nat with (length rest) by (simpl; lia).
  change (default "" (head (s0 :: rest))) with s0. cbn [length].
  rewrite (resolve_loop_spec E (s0 :: rest) (length rest) 0 s0) by done.
  rewrite prefix_paths_snoc, find_app.
  destruct (List.find (collapsed E) (prefix_paths (s0 :: rest) 1 (length rest)))
    as [p|]; [done|].
  cbn [List.find]. destruct (decide (_ ∈ E)) as [Hin|Hout].
  - by rewrite bool_decide_true.
  - by rewrite bool_decide_false.
Qed.

Lemma join_snoc pre seg :
  pre ≠ [] → join "/" (pre ++ [seg]) = join "/" pre +:+ "/" +:+ seg.
Proof.
  induction pre as [|x pre IH]; intros Hne; [done|].
  destruct pre as [|y pre]; [done|].
  change ((x :: y :: pre) ++ [seg]) with (x :: ((y :: pre) ++ [seg])).
  rewrite !join_cons by (done || by destruct pre). rewrite IH by done.
  by rewrite !append_assoc.
Qed.

Lemma visible_loop_spec E rest : ∀ pre,
  pre ≠ [] →
  visible_loop E (join "/" pre) rest
  = forallb (λ a, bool_decide (a ∈ E))
            (prefix_paths (pre ++ rest) (length pre) (length rest)).
Proof.
  induction rest as [|seg rest IH]; intros pre Hne; [done|].
  cbn [visible_loop length]. rewrite prefix_paths_S. cbn [forallb].
  rewrite take_app_length.
  destruct (decide (join "/" pre ∈ E)) as [Hin|Hout].
  - rewrite bool_decide_true by done. cbn [andb].
    rewrite <- join_snoc by done. rewrite IH by (by destruct pre).
    rewrite <- app_assoc, length_app. cbn [app length].
    by rewrite Nat.add_1_r.
  - by rewrite bool_decide_false.
Qed.

(** A module is visible exactly when all its strict ancestors are
    expanded. *)
Lemma isModVisible_spec E path :
  isModVisible E path
  = forallb (λ a, bool_decide (a ∈ E)) (strict_ancestors path).
Proof.
  unfold isModVisible, strict_ancestors.
  pose proof (split_nonempty "/" path) as Hne.
  destruct (split "/" path) as [|s0 rest]; [done|].
  replace (length (s0 :: rest) - 1)%nat with (length rest) by (simpl; lia).
  change (default "" (head (s0 :: rest))) with s0. cbn [tail].
  destruct rest as [|s1 rest]; [done|].
  change (length (s0 :: s1 :: rest) <=? 1)%nat with false. cbn iota.
  exact (visible_loop_spec E (s1 :: rest) [s0] ltac:(done)).
Qed.

Lemma forallb_expanded (E : gset string) (l : list string) :
  forallb (λ a, bool_decide (a ∈ E)) l = true ↔ ∀ a, a ∈ l → a ∈ E.
Proof.
  rewrite forallb_forall. split; intros H a Ha.
  - apply list_elem_of_In in Ha. by apply H, bool_decide_eq_true in Ha.
  - apply bool_decide_eq_true, H. by apply list_elem_of_In.
Qed.

(** The strict ancestors of a prefix of a path are the shorter prefixes. *)
Lemma strict_ancestors_prefix s k :
  (1 ≤ k ≤ length (split "/" s))%nat →
  strict_ancestors (join "/" (take k (split "/" s)))
  = prefix_paths (split "/" s) 1 (k - 1).
Proof.
  intros Hk. unfold strict_ancestors.
  rewrite split_join.
  - rewrite length_take, Nat.min_l by lia. unfold prefix_paths.
    apply map_ext_in. intros j Hj. apply in_seq in Hj.
    by rewrite take_take, Nat.min_l by lia.
  - destruct (split "/" s); simpl in *; [lia|]. by destruct k; [lia|].
  - apply Forall_take, split_slashfree.
Qed.

Lemma chain_last fnId :
  List.last (chain fnId) "" = owner fnId.
Proof.
  unfold chain. pose proof (split_nonempty "/" (owner fnId)) as Hne.
  rewrite <- (join_split (owner fnId)) at 3.
  destruct (split "/" (owner fnId)) as [|s0 rest]; [done|].
  cbn [length]. rewrite prefix_paths_snoc, last_last.
  by rewrite take_ge by (simpl; lia).
Qed.

Lemma edgeMap_distinct (E : gset string) edges :
  ∀ entry, entry ∈ Router.edgeMap_of E edges → entry.2.1 ≠ entry.2.2.
Proof.
  unfold Router.edgeMap_of.
  assert (G : ∀ acc : list (string * (string * string)),
             (∀ e, e ∈ acc → e.2.1 ≠ e.2.2) →
             ∀ e, e ∈ fold_left
                    (λ edgeMap e,
                       let rSrc := resolveVisible E e.1 in
                       let rTgt := resolveVisible E e.2 in
                       if decide (rSrc = rTgt) then edgeMap
                       else
                         let key := rSrc +:+ ">" +:+ rTgt in
                         match assoc key edgeMap with
                         | Some _ => edgeMap
                         | None => edgeMap ++ [(key, (rSrc, rTgt))]
                         end) edges acc → e.2.1 ≠ e.2.2).
  { induction edges as [|[a b] edges IH]; intros acc Hacc; [done|].
    cbn [fold_left]. apply IH. cbn zeta. cbn [fst snd].
    destruct (decide (resolveVisible E a = resolveVisible E b)); [done|].
    destruct (assoc _ acc); [done|].
    intros e He. apply elem_of_app in He as [He|He]; [by apply Hacc|].
    apply list_elem_of_singleton in He as ->. done. }
  apply G. intros e He. by apply elem_of_nil in He.
Qed.

Lemma same_collapsed_owner (E : gset string) a b :
  owner a = owner b → owner a ∉ E → resolveVisible E a = resolveVisible E b.
Proof.
  intros Hab Hout. rewrite !resolveVisible_spec. unfold resolve_spec, chain.
  rewrite <- Hab.
  pose proof (find_prefix_paths (collapsed E) (split "/" (owner a))
                (length (split "/" (owner a))) 1) as Hf.
  destruct (List.find _ _) as [p|]; [done|].
  pose proof (split_nonempty "/" (owner a)) as Hne.
  specialize (Hf (length (split "/" (owner a)))).
  rewrite firstn_all, join_split, bool_decide_false in Hf by done.
  destruct (split "/" (owner a)); [done|]. simpl in Hf.
  discriminate Hf. lia.
Qed.

(** C4: [resolveVisible] returns the first module on the chain from the root
    to the owning module that is not in the Expanded-Set, and the function
    identity itself when every module of the chain is expanded; the chain
    ends with the owning module; an edge whose resolved endpoints are equal
    gets no entry among the edges [updateArrows] draws; and two endpoints
    owned by the same collapsed module resolve to the same box. *)
Theorem resolveVisible_first_collapsed (E : gset string) :
  (∀ fnId, resolveVisible E fnId = resolve_spec E fnId) ∧
  (∀ fnId, List.last (chain fnId) "" = owner fnId) ∧
  (∀ edges entry, entry ∈ Router.edgeMap_of E edges → entry.2.1 ≠ entry.2.2) ∧
  (∀ a b, owner a = owner b → owner a ∉ E →
          resolveVisible E a = resolveVisible E b).
Proof.
  split; [apply resolveVisible_spec|]. split; [apply chain_last|].
  split; [apply edgeMap_distinct | apply same_collapsed_owner].
Qed.

(** C4 on the scenario of the specification: with the root collapsed the edge
    from [bar] to [foo] resolves to the root at both ends and is not drawn;
    with the root expanded and [a], [b] collapsed it is drawn from [b] to
    [a]. *)
Lemma resolveVisible_first_collapsed_witness :
  Router.edgeMap_of ∅ [("root/b::bar", "root/a::foo")] = [] ∧
  Router.edgeMap_of {["root"]} [("root/b::bar", "root/a::foo")]
  = [("root/b>root/a", ("root/b", "root/a"))] ∧
  ("root/b", "root/a").1 ≠ ("root/b", "root/a").2.
Proof.
  split; [by vm_compute|]. split; [by vm_compute|].
  apply (proj1 (proj2 (proj2 (resolveVisible_first_collapsed {["root"]})))
           [("root/b::bar", "root/a::foo")]
           ("root/b>root/a", ("root/b", "root/a"))).
  vm_compute. apply list_elem_of_here.
Defined.

(** C10: the box [resolveVisible] returns is visible.  Either it returns the
    endpoint itself, and then the owning module and all its strict ancestors
    are expanded, so that [isFnVisible] holds; or it returns a module of the
    chain that is not expanded, all of whose strict ancestors are expanded, so
    that [isModVisible] holds. *)
Theorem resolveVisible_is_visible (E : gset string) (fnId : string) :
  (resolveVisible E fnId = fnId ∧ isFnVisible E fnId = true ∧
   owner fnId ∈ E ∧ (∀ a, a ∈ strict_ancestors (owner fnId) → a ∈ E)) ∨
  (resolveVisible E fnId ∈ chain fnId ∧ (resolveVisible E fnId ∉ E) ∧
   isModVisible E (resolveVisible E fnId) = true ∧
   (∀ a, a ∈ strict_ancestors (resolveVisible E fnId) → a ∈ E)).
Proof.
  rewrite resolveVisible_spec. unfold resolve_spec, chain.
  pose proof (find_prefix_paths (collapsed E) (split "/" (owner fnId))
                (length (split "/" (owner fnId))) 1) as Hf.
  pose proof (split_nonempty "/" (owner fnId)) as Hne.
  assert (Hlen : (1 ≤ length (split "/" (owner fnId)))%nat)
    by (destruct (split "/" (owner fnId)); [done | simpl; lia]).
  destruct (List.find _ _) as [r|].
  - right. destruct Hf as (k & Hk & -> & Hr & Hlow).
    apply negb_true_iff, bool_decide_eq_false in Hr.
    assert (Hanc : ∀ a, a ∈ strict_ancestors
                           (join "/" (take k (split "/" (owner fnId)))) →
                        a ∈ E).
    { intros a Ha. rewrite strict_ancestors_prefix in Ha by lia.
      apply elem_of_prefix_paths in Ha as (j & Hj & ->).
      specialize (Hlow j ltac:(lia)).
      by apply negb_false_iff, bool_decide_eq_true in Hlow. }
    split; [apply elem_of_prefix_paths; eauto|]. split; [done|].
    split; [|done]. rewrite isModVisible_spec. by apply forallb_expanded.
  - left.
    assert (Hall : ∀ j, (1 ≤ j ≤ length (split "/" (owner fnId)))%nat →
                        join "/" (take j (split "/" (owner fnId))) ∈ E).
    { intros j Hj. specialize (Hf j ltac:(lia)).
      by apply negb_false_iff, bool_decide_eq_true in Hf. }
    assert (Hown : owner fnId ∈ E).
    { specialize (Hall (length (split "/" (owner fnId))) ltac:(lia)).
      by rewrite firstn_all, join_split in Hall. }
    assert (Hanc : ∀ a, a ∈ strict_ancestors (owner fnId) → a ∈ E).
    { intros a Ha. apply elem_of_prefix_paths in Ha as (j & Hj & ->).
      apply Hall. lia. }
    split; [done|]. split; [|done]. unfold isFnVisible. fold (owner fnId).
    rewrite isModVisible_spec, bool_decide_true by done.
    rewrite andb_true_r. by apply forallb_expanded.
Qed.

Lemma elem_of_fold_remove (l : list string) : ∀ (E : gset string) q,
  q ∈ fold_left (λ e p, e ∖ {[p]}) l E ↔ q ∈ E ∧ q ∉ l.
Proof.
  induction l as [|p l IH]; intros E q; cbn [fold_left].
  - split; [intros H; split; [done | apply not_elem_of_nil] | by intros [? _]].
  - rewrite IH, not_elem_of_cons. set_solver.
Qed.




End VisibilityFacts.

(** ** The parser *)

Module ParserFacts.
Import Parser.


Section with_libraries.

Variable strip : string → string.
Variable finditer_mod : string → list (string * string).
Variable finditer_def : string → list (string * string).
Variable finditer_ref : string → list (string * string).
Variable path_child : string → string → string.
Variable normpath_join : string → string → string.

Local Abbreviation parse_module :=
  (Parser.parse_module strip finditer_mod finditer_def finditer_ref path_child
     normpath_join).
Local Abbreviation parse_speck_tree :=
  (Parser.parse_speck_tree strip finditer_mod finditer_def finditer_ref path_child
     normpath_join).
Local Abbreviation body_edges :=
  (Parser.body_edges finditer_ref normpath_join).
Local Abbreviation defs_loop :=
  (Parser.defs_loop finditer_ref normpath_join).

Local Abbreviation own_edges :=
  (Parser.own_edges finditer_def finditer_ref normpath_join).

Lemma enter_total visit name l :
  Forall (λ p : string * dir, ∀ st, ∃ st', visit p.2 st = Returns st') l →
  ∀ st, ∃ st', enter visit name st l = Returns st'.
Proof.
  induction 1 as [|[n d'] l Hd Hl IH]; intros st; cbn [enter]; [by eauto|].
  destruct (String.eqb n name); [apply Hd | apply IH].
Qed.

Lemma mods_loop_total recurse mod_path ms :
  (∀ name cp st, ∃ st', recurse name cp st = Returns st') →
  ∀ children child_deps st,
    ∃ r, mods_loop strip recurse mod_path ms children child_deps st = Returns r.
Proof.
  intros Hrec. induction ms as [|[name group] ms IH];
    intros children child_deps st; cbn [mods_loop]; [by eauto|].
  destruct (Hrec name (mod_path +:+ "/" +:+ name) st) as [st' ->].
  cbn [mbind outcome_bind obind]. apply IH.
Qed.

Lemma defs_loop_spec file_dir mod_path ms : ∀ fns edges,
  defs_loop file_dir mod_path ms fns edges
  = (fns ++ map fst ms,
     edges ++ concat (map (λ m, body_edges file_dir mod_path m.1 m.2) ms)).
Proof.
  induction ms as [|[fn body] ms IH]; intros fns edges; cbn [Parser.defs_loop].
  - by rewrite !app_nil_r.
  - rewrite IH. cbn [map concat fst snd]. by rewrite <- !app_assoc.
Qed.

(** What a call of [parse_module] on an existing file leaves in the two
    accumulators. *)
Lemma parse_module_existing fs subs file_dir file_name mod_path depth st content :
  Forall (λ p : string * dir,
            ∀ file_dir file_name mod_path depth st,
              ∃ st', parse_module p.2 file_dir file_name mod_path depth st
                     = Returns st') subs →
  assoc file_name fs = Some content →
  ∃ st1 sorted_children,
    parse_module (Dir fs subs) file_dir file_name mod_path depth st
    = Returns
        (PState
           (<[mod_path :=
                Module_ (last_segment mod_path) mod_path sorted_children
                        (map fst (finditer_def content)) depth]> (modules st1))
           (function_edges st1 ++ own_edges file_dir mod_path content)).
Proof.
  intros Hsubs Hfile. cbn [Parser.parse_module]. rewrite Hfile.
  edestruct (mods_loop_total
               (λ name child_path st,
                  enter (λ d' st',
                           parse_module d' (path_child file_dir name)
                             (name +:+ ".speck") child_path (S depth) st')
                        name st subs)
               mod_path (finditer_mod content)) as ([[children child_deps] st1] & ->).
  { intros name cp st0. apply enter_total.
    eapply Forall_impl; [exact Hsubs|]. intros p Hp st2. apply Hp. }
  cbn [mbind outcome_bind obind]. rewrite defs_loop_spec.
  destruct (SorterTotal.sort_children_total children child_deps) as [sorted ->].
  cbn [mbind outcome_bind obind app]. by exists st1, sorted.
Qed.

(** [parse_module] returns, whatever the directory tree holds. *)
Lemma parse_module_total d : ∀ file_dir file_name mod_path depth st,
  ∃ st', parse_module d file_dir file_name mod_path depth st = Returns st'.
Proof.
  induction d as [fs subs IH] using dir_ind'.
  intros file_dir file_name mod_path depth st.
  destruct (assoc file_name fs) as [content|] eqn:Hfile.
  - destruct (parse_module_existing fs subs file_dir file_name mod_path depth
                st content IH Hfile) as (st1 & sorted & ->). eauto.
  - cbn [Parser.parse_module]. rewrite Hfile. eauto.
Qed.

End with_libraries.

(** C6, the code at a root file that declares [mod a] while [a/a.speck] does
    not exist: the parser returns, the children of the root hold [root/a],
    the [modules] dictionary has no entry for [root/a], and [buildTree]
    fails on the graph. *)
Theorem missing_child_has_no_entry :
  ∃ g, Sample.parse Sample.root_with_missing_child = Returns g ∧
       g_modules g !! "root" = Some (Module_ "root" "root" ["root/a"] [] 0) ∧
       g_modules g !! "root/a" = None ∧
       ∀ fuel, Layout.buildTree (S (S fuel)) g = Raises TypeError.
Proof.
  eexists. split; [by vm_compute|]. split; [by vm_compute|].
  split; [by vm_compute|]. intros fuel. by vm_compute.
Qed.

End ParserFacts.

(** ** Connection points *)

Module RouterFacts.
Import Layout Router.
Local Open Scope Q_scope.

Lemma Qltb_true a b : Qltb a b = true ↔ a < b.
Proof.
  unfold Qltb. rewrite negb_true_iff. split.
  - intros H. apply Qnot_le_lt. intros Hle.
    apply Qle_bool_iff in Hle. congruence.
  - intros H. destruct (Qle_bool b a) eqn:Hb; [|done].
    apply Qle_bool_iff in Hb. by apply Qlt_not_le in H.
Qed.

Lemma Qltb_false a b : Qltb a b = false ↔ b <= a.
Proof.
  unfold Qltb. rewrite negb_false_iff. apply Qle_bool_iff.
Qed.

Lemma Qle_bool_false a b : Qle_bool a b = false ↔ b < a.
Proof.
  split.
  - intros H. apply Qnot_le_lt. intros Hle.
    apply Qle_bool_iff in Hle. congruence.
  - intros H. destruct (Qle_bool a b) eqn:Hb; [|done].
    apply Qle_bool_iff in Hb. by apply Qlt_not_le in H.
Qed.

Lemma gap_zero a b : a <= 0 → b <= 0 → Qmax (Qmax a b) 0 == 0.
Proof.
  intros Ha Hb. apply Q.max_r. by apply Q.max_lub.
Qed.

Lemma gap_nonneg a b : 0 <= Qmax (Qmax a b) 0.
Proof. apply Q.le_max_r. Qed.

Lemma gap_value a b m :
  a <= m → b <= m → 0 <= m → m == a ∨ m == b ∨ m == 0 →
  Qmax (Qmax a b) 0 == m.
Proof.
  intros Ha Hb H0 Hm. apply Qle_antisym.
  - apply Q.max_lub; [by apply Q.max_lub | done].
  - destruct Hm as [Hm|[Hm|Hm]]; rewrite Hm.
    + eapply Qle_trans; [apply Q.le_max_l|]. apply Q.le_max_l.
    + eapply Qle_trans; [apply Q.le_max_r|]. apply Q.le_max_l.
    + apply Q.le_max_r.
Qed.

Lemma gap_interval lo1 w1 lo2 w2 :
  0 <= w1 → 0 <= w2 →
  Qmax (Qmax (lo2 - (lo1 + w1)) (lo1 - (lo2 + w2))) 0
  == RouterGaps.interval_gap lo1 (lo1 + w1) lo2 (lo2 + w2).
Proof.
  intros H1 H2. unfold RouterGaps.interval_gap.
  destruct (Qltb (lo1 + w1) lo2) eqn:Ha.
  { apply Qltb_true in Ha. apply gap_value; [lra | lra | lra |].
    left. reflexivity. }
  apply Qltb_false in Ha.
  destruct (Qltb (lo2 + w2) lo1) eqn:Hb.
  { apply Qltb_true in Hb. apply gap_value; [lra | lra | lra |].
    right. left. reflexivity. }
  apply Qltb_false in Hb. apply gap_value; [lra | lra | lra |].
  right. right. reflexivity.
Qed.

(** C8 (as amended): for two boxes of non-negative width and height, the
    two gaps [connectionPoints] compares are the gaps between their
    rectangles on the two axes, the distance between them and 0 when they
    overlap on the axis.  When the horizontal gap is at least the vertical
    one, the connector leaves the left or right side of the source at its
    vertical centre and ends at the vertical centre of the target, not on its
    facing side but the width of the arrow head outside it.  Otherwise it
    leaves the bottom or top side of the source and ends the width of the
    arrow head outside the facing side of the target, both at one abscissa:
    the midpoint of the horizontal overlap of the boxes, or the midpoint of
    their centres when they do not overlap. *)
Theorem connectionPoints_sides (s t : box) :
  0 <= bw s → 0 <= bh s → 0 <= bw t → 0 <= bh t →
  hGap s t == RouterGaps.horizontal_gap s t ∧
  vGap s t == RouterGaps.vertical_gap s t ∧
  (RouterGaps.vertical_gap s t <= RouterGaps.horizontal_gap s t →
   sy (connectionPoints s t) == centerY s ∧
   ty (connectionPoints s t) == centerY t ∧
   ((centerX s <= centerX t ∧
     sx (connectionPoints s t) == bx s + bw s ∧
     tx (connectionPoints s t) == bx t - ARROW_W) ∨
    (centerX t < centerX s ∧
     sx (connectionPoints s t) == bx s ∧
     tx (connectionPoints s t) == bx t + bw t + ARROW_W))) ∧
  (RouterGaps.horizontal_gap s t < RouterGaps.vertical_gap s t →
   sx (connectionPoints s t) == tx (connectionPoints s t) ∧
   (overlapL s t < overlapR s t →
    sx (connectionPoints s t) == (overlapL s t + overlapR s t) / 2) ∧
   (overlapR s t <= overlapL s t →
    sx (connectionPoints s t) == (centerX s + centerX t) / 2) ∧
   ((centerY s <= centerY t ∧
     sy (connectionPoints s t) == by_ s + bh s ∧
     ty (connectionPoints s t) == by_ t - ARROW_W) ∨
    (centerY t < centerY s ∧
     sy (connectionPoints s t) == by_ s ∧
     ty (connectionPoints s t) == by_ t + bh t + ARROW_W))).
Proof.
  intros Hws Hhs Hwt Hht.
  assert (Hh : hGap s t == RouterGaps.horizontal_gap s t)
    by (by apply gap_interval).
  assert (Hv : vGap s t == RouterGaps.vertical_gap s t)
    by (by apply gap_interval).
  split; [exact Hh|]. split; [exact Hv|].
  rewrite <- Hh, <- Hv. unfold connectionPoints.
  fold (centerX s) (centerX t) (centerY s) (centerY t)
       (overlapL s t) (overlapR s t).
  split.
  - intros Hgap. apply Qle_bool_iff in Hgap. rewrite Hgap.
    destruct (Qle_bool (centerX s) (centerX t)) eqn:Hc; cbn [sx sy tx ty].
    + apply Qle_bool_iff in Hc. repeat split; try reflexivity.
      left. repeat split; [done | reflexivity..].
    + apply Qle_bool_false in Hc. repeat split; try reflexivity.
      right. repeat split; [done | reflexivity..].
  - intros Hgap. apply Qle_bool_false in Hgap. rewrite Hgap.
    split; [|split; [|split]].
    + destruct (Qle_bool (centerY s) (centerY t)); reflexivity.
    + intros Ho. apply Qltb_true in Ho. rewrite Ho.
      destruct (Qle_bool (centerY s) (centerY t)); reflexivity.
    + intros Ho. apply Qltb_false in Ho. rewrite Ho.
      destruct (Qle_bool (centerY s) (centerY t)); reflexivity.
    + destruct (Qle_bool (centerY s) (centerY t)) eqn:Hc; cbn [sx sy tx ty].
      * apply Qle_bool_iff in Hc. left. repeat split; [done | reflexivity..].
      * apply Qle_bool_false in Hc. right.
        repeat split; [done | reflexivity..].
Qed.

(** C8 on two boxes that are 200 apart side by side and 50 apart in height:
    the connector leaves the right side of the source at its vertical centre
    and ends 10 to the left of the target. *)
Lemma connectionPoints_sides_witness :
  (0 <= bw (Box 0 0 100 50 None) ∧ 0 <= bh (Box 0 0 100 50 None) ∧
   0 <= bw (Box 300 100 80 50 None) ∧ 0 <= bh (Box 300 100 80 50 None)) ∧
  RouterGaps.horizontal_gap (Box 0 0 100 50 None) (Box 300 100 80 50 None)
  == 200 ∧
  RouterGaps.vertical_gap (Box 0 0 100 50 None) (Box 300 100 80 50 None)
  == 50 ∧
  hGap (Box 0 0 100 50 None) (Box 300 100 80 50 None) == 200 ∧
  vGap (Box 0 0 100 50 None) (Box 300 100 80 50 None) == 50 ∧
  sx (connectionPoints (Box 0 0 100 50 None) (Box 300 100 80 50 None))
  == 100 ∧
  sy (connectionPoints (Box 0 0 100 50 None) (Box 300 100 80 50 None))
  == 25 ∧
  tx (connectionPoints (Box 0 0 100 50 None) (Box 300 100 80 50 None))
  == 290 ∧
  ty (connectionPoints (Box 0 0 100 50 None) (Box 300 100 80 50 None))
  == 125.
Proof.
  assert (Hws : 0 <= bw (Box 0 0 100 50 None)) by (by vm_compute).
  assert (Hhs : 0 <= bh (Box 0 0 100 50 None)) by (by vm_compute).
  assert (Hwt : 0 <= bw (Box 300 100 80 50 None)) by (by vm_compute).
  assert (Hht : 0 <= bh (Box 300 100 80 50 None)) by (by vm_compute).
  assert (Hh : RouterGaps.horizontal_gap (Box 0 0 100 50 None)
                 (Box 300 100 80 50 None) == 200) by (by vm_compute).
  assert (Hv : RouterGaps.vertical_gap (Box 0 0 100 50 None)
                 (Box 300 100 80 50 None) == 50) by (by vm_compute).
  destruct (connectionPoints_sides (Box 0 0 100 50 None)
              (Box 300 100 80 50 None) Hws Hhs Hwt Hht)
    as (Hh' & Hv' & Hside & _).
  split; [done|]. split; [exact Hh|]. split; [exact Hv|].
  split; [by rewrite Hh'|]. split; [by rewrite Hv'|].
  destruct Hside as (Hsy & Hty & [(_ & Hsx & Htx)|(Hc & _)]).
  - rewrite Hh, Hv. by vm_compute.
  - rewrite Hsx, Hsy, Htx, Hty. by vm_compute.
  - exfalso. by vm_compute in Hc.
Defined.

(** C8 as stated fails at the end of the connector: on the same two boxes it
    ends at the abscissa 290, on neither side of the target, whose left side
    is at 300 and whose right side is at 380. *)
Lemma connectionPoints_target_off_side :
  RouterGaps.vertical_gap (Box 0 0 100 50 None) (Box 300 100 80 50 None)
  <= RouterGaps.horizontal_gap (Box 0 0 100 50 None)
       (Box 300 100 80 50 None) ∧
  tx (connectionPoints (Box 0 0 100 50 None) (Box 300 100 80 50 None))
  == 290 ∧
  ¬ tx (connectionPoints (Box 0 0 100 50 None) (Box 300 100 80 50 None))
    == bx (Box 300 100 80 50 None) ∧
  ¬ tx (connectionPoints (Box 0 0 100 50 None) (Box 300 100 80 50 None))
    == bx (Box 300 100 80 50 None) + bw (Box 300 100 80 50 None).
Proof.
  split; [by vm_compute|]. split; [by vm_compute|].
  split; intros H; by vm_compute in H.
Qed.

End RouterFacts.

(** ** The layout *)

Module LayoutFacts.
Import Layout.
Local Open Scope Q_scope.

Ltac consts :=
  unfold PAD, PAD_BOTTOM, HEADER_H, FN_H, FN_GAP, MOD_GAP, SECTION_GAP,
    FN_PAD_X, MIN_MOD_W in *.

Lemma of_nat_S k : of_nat (S k) == of_nat k + 1.
Proof.
  unfold of_nat. rewrite Nat2Z.inj_succ, <- Z.add_1_r, inject_Z_plus.
  reflexivity.
Qed.

Lemma of_nat_nonneg k : 0 <= of_nat k.
Proof.
  unfold of_nat. change 0 with (inject_Z 0). rewrite <- Zle_Qle. lia.
Qed.

Lemma fn_area_S k : fn_area (S k) == fn_area k + (FN_H + FN_GAP).
Proof. unfold fn_area. rewrite of_nat_S. consts. lra. Qed.

Lemma fn_area_pos k : FN_H <= fn_area (S k).
Proof.
  unfold fn_area. rewrite of_nat_S. pose proof (of_nat_nonneg k). consts. nra.
Qed.

Lemma sum_widths_fold (cs : list (node size)) : ∀ a,
  fold_left (λ acc c, acc + w (ann c)) cs a
  == a + fold_right (λ c acc, w (ann c) + acc) 0 cs.
Proof.
  induction cs as [|c cs IH]; intros a; cbn [fold_left fold_right]; [lra|].
  rewrite IH. lra.
Qed.

Lemma sum_widths_nonneg (cs : list (node size)) :
  Forall (λ c, 0 <= w (ann c)) cs →
  0 <= fold_right (λ c acc, w (ann c) + acc) 0 cs.
Proof.
  induction 1 as [|c cs Hc _ IH]; cbn [fold_right]; lra.
Qed.

Lemma children_width_cons c cs :
  children_width (c :: cs)
  == w (ann c) + match cs with [] => 0 | _ => MOD_GAP + children_width cs end.
Proof.
  unfold children_width. destruct cs as [|c' cs].
  - change (w (ann c) + 0 + (1 - 1) * MOD_GAP == w (ann c) + 0). lra.
  - cbn [fold_right]. change (length (c :: c' :: cs)) with (S (length (c' :: cs))).
    rewrite of_nat_S. lra.
Qed.

Lemma children_width_nonneg cs :
  Forall (λ c, 0 <= w (ann c)) cs → 0 <= children_width cs.
Proof.
  induction 1 as [|c cs Hc Hcs IH]; [unfold children_width; lra|].
  rewrite children_width_cons. destruct cs; consts; lra.
Qed.

Lemma max_heights_fold (cs : list (node size)) : ∀ a,
  a <= fold_left (λ acc c, Qmax acc (h (ann c))) cs a ∧
  Forall (λ c, h (ann c) <= fold_left (λ acc c, Qmax acc (h (ann c))) cs a) cs.
Proof.
  induction cs as [|c cs IH]; intros a; cbn [fold_left].
  - split; [lra | constructor].
  - destruct (IH (Qmax a (h (ann c)))) as [Hle Hall].
    pose proof (Q.le_max_l a (h (ann c))). pose proof (Q.le_max_r a (h (ann c))).
    split; [lra|]. constructor; [lra | done].
Qed.

Lemma children_width_le (cs : list (node size)) :
  children_width cs
  <= (if (1 <? length cs)%nat
      then fold_left (λ acc c, acc + w (ann c)) cs 0
           + (of_nat (length cs) - 1) * MOD_GAP
      else fold_left (λ acc c, acc + w (ann c)) cs 0).
Proof.
  pose proof (sum_widths_fold cs 0) as Hsum. unfold children_width.
  destruct cs as [|c1 [|c2 cs]].
  - cbn. lra.
  - change (w (ann c1) + 0 + (1 - 1) * MOD_GAP <= 0 + w (ann c1)). lra.
  - change (1 <? length (c1 :: c2 :: cs))%nat with true. cbn iota. lra.
Qed.

Lemma well_sized_width (n : node size) : well_sized n → 0 <= w (ann n).
Proof. intros H. destruct H. cbn [ann]. consts. lra. Qed.

Section with_measure.

Variable measureText : string → Q → Q.

(** The sizing pass leaves every node wide and high enough for its function
    rows and its children. *)
Lemma computeSize_well_sized n : well_sized (computeSize measureText n).
Proof.
  induction n as [nm p d fs a cs IH] using node_ind'.
  cbn [computeSize].
  set (cs' := map (computeSize measureText) cs).
  assert (Hws : Forall well_sized cs').
  { unfold cs'. clear -IH. induction IH; constructor; auto. }
  assert (Hw : Forall (λ c, 0 <= w (ann c)) cs').
  { eapply Forall_impl; [exact Hws|]. apply well_sized_width. }
  set (fnAreaH := if (0 <? length fs)%nat
                  then of_nat (length fs) * FN_H + (of_nat (length fs) - 1) * FN_GAP
                  else 0).
  set (childrenH := fold_left (λ acc c, Qmax acc (h (ann c))) cs' 0).
  set (childrenW0 := fold_left (λ acc c, acc + w (ann c)) cs' 0).
  set (childrenW := if (1 <? length cs')%nat
                    then childrenW0 + (of_nat (length cs') - 1) * MOD_GAP
                    else childrenW0).
  set (secGap := if Qltb 0 fnAreaH && Qltb 0 childrenH then SECTION_GAP else 0).
  set (labelW := measureText nm LABEL_SIZE + 8).
  set (fnMaxW := fold_left _ fs 0).
  assert (HfnArea : 0 <= fnAreaH).
  { unfold fnAreaH. destruct fs as [|f fs]; [cbn; lra|].
    change (0 <? length (f :: fs))%nat with true. cbn iota.
    pose proof (fn_area_pos (length fs)) as Hp. unfold fn_area in Hp.
    cbn [length]. consts. lra. }
  assert (HsecGap : 0 <= secGap).
  { unfold secGap. destruct (_ && _); consts; lra. }
  destruct (max_heights_fold cs' 0) as [HchildrenH Hheights].
  fold childrenH in HchildrenH, Hheights.
  assert (HchildrenW : children_width cs' <= childrenW)
    by apply children_width_le.
  assert (HcontentW : childrenW <= Qmax (Qmax (Qmax labelW fnMaxW) childrenW) MIN_MOD_W
                      ∧ MIN_MOD_W <= Qmax (Qmax (Qmax labelW fnMaxW) childrenW) MIN_MOD_W).
  { pose proof (Q.le_max_l (Qmax (Qmax labelW fnMaxW) childrenW) MIN_MOD_W).
    pose proof (Q.le_max_r (Qmax (Qmax labelW fnMaxW) childrenW) MIN_MOD_W).
    pose proof (Q.le_max_r (Qmax labelW fnMaxW) childrenW).
    split; lra. }
  destruct HcontentW as [Hc1 Hc2].
  constructor; cbn [w h _fnAreaH _secGap]; try done.
  - intros Hfs. unfold fnAreaH, fn_area. destruct fs; [done|]. reflexivity.
  - lra.
  - consts. lra.
  - consts. lra.
  - eapply Forall_impl; [exact Hheights|]. intros c Hc. cbn beta in *.
    consts. lra.
Qed.

End with_measure.

(** *** The positioning pass *)

Lemma elem_of_subtrees {A} (m : node A) nm p d fs a cs :
  m ∈ subtrees (Node nm p d fs a cs)
  ↔ m = Node nm p d fs a cs ∨ ∃ c, c ∈ cs ∧ m ∈ subtrees c.
Proof.
  cbn [subtrees]. rewrite elem_of_cons.
  assert (G : m ∈ concat (map subtrees cs) ↔ ∃ c, c ∈ cs ∧ m ∈ subtrees c).
  { induction cs as [|c cs IH]; cbn [map concat].
    - split; [intros H; by apply elem_of_nil in H | intros (c & H & _)].
      by apply elem_of_nil in H.
    - rewrite elem_of_app, IH. split.
      + intros [H|(c' & Hc' & H)]; [exists c | exists c']; set_solver.
      + intros (c' & Hc' & H). apply elem_of_cons in Hc' as [->|Hc']; eauto. }
  by rewrite G.
Qed.

Lemma subtrees_self {A} (n : node A) : n ∈ subtrees n.
Proof. destruct n. apply elem_of_subtrees. by left. Qed.

Lemma fnLoop_spec p innerX innerW fs : ∀ fnY fb,
  (∀ id b, fnLoop p innerX innerW fs fnY fb !! id = Some b →
           fb !! id = Some b ∨
           ∃ f, f ∈ fs ∧ id = p +:+ "::" +:+ f ∧ bx b = innerX ∧
                bw b = innerW ∧ bh b = FN_H ∧ fnY <= by_ b ∧
                by_ b + FN_H <= fnY + fn_area (length fs)) ∧
  (∀ k, is_Some (fb !! k) → is_Some (fnLoop p innerX innerW fs fnY fb !! k)) ∧
  (∀ f, f ∈ fs →
        is_Some (fnLoop p innerX innerW fs fnY fb !! (p +:+ "::" +:+ f))).
Proof.
  induction fs as [|f fs IH]; intros fnY fb; cbn [fnLoop].
  - split; [by left|]. split; [done|]. intros f Hf. by apply elem_of_nil in Hf.
  - destruct (IH (fnY + (FN_H + FN_GAP))
                 (<[p +:+ "::" +:+ f := Box innerX fnY innerW FN_H (Some f)]> fb))
      as (Hin & Hmono & Hall).
    pose proof (fn_area_S (length fs)) as HS.
    pose proof (fn_area_pos (length fs)) as Hpos.
    split; [|split].
    + intros id b Hb. apply Hin in Hb as [Hb|(g & Hg & -> & ? & ? & ? & ? & ?)].
      * destruct (decide (p +:+ "::" +:+ f = id)) as [<-|Hne].
        -- rewrite lookup_insert_eq in Hb. injection Hb as <-. right.
           exists f. cbn [bx bw bh by_ length].
           repeat split; [set_solver | lra | lra].
        -- rewrite lookup_insert_ne in Hb by done. by left.
      * right. exists g. cbn [length].
        repeat split; [set_solver | done.. | consts; lra | lra].
    + intros k Hk. apply Hmono.
      destruct (decide (p +:+ "::" +:+ f = k)) as [<-|Hne].
      * rewrite lookup_insert_eq. eauto.
      * by rewrite lookup_insert_ne.
    + intros g Hg. apply elem_of_cons in Hg as [->|Hg]; [|by apply Hall].
      apply Hmono. rewrite lookup_insert_eq. eauto.
Qed.

Lemma childLoop_nil place childX fb mb :
  childLoop place [] childX fb mb = ([], fb, mb).
Proof. done. Qed.

Lemma childLoop_cons place c rest childX fb mb :
  childLoop place (c :: rest) childX fb mb
  = ((place c childX fb mb).1.1
       :: (childLoop place rest (childX + w (ann c) + MOD_GAP)
             (place c childX fb mb).1.2 (place c childX fb mb).2).1.1,
     (childLoop place rest (childX + w (ann c) + MOD_GAP)
        (place c childX fb mb).1.2 (place c childX fb mb).2).1.2,
     (childLoop place rest (childX + w (ann c) + MOD_GAP)
        (place c childX fb mb).1.2 (place c childX fb mb).2).2).
Proof.
  cbn [childLoop]. destruct (place c childX fb mb) as [[c' fb'] mb'].
  cbn [fst snd]. by destruct (childLoop place rest _ fb' mb') as [[? ?] ?].
Qed.

(** What the loop over the children achieves when each call does its
    part. *)
Lemma childLoop_ok place childY cs :
  Forall (λ c, 0 <= w (ann c)) cs →
  Forall (λ c, ∀ X fb mb, placement_ok c X childY fb mb (place c X fb mb)) cs →
  ∀ childX fb mb,
    Forall (λ c',
       (∀ m c, m ∈ subtrees c' → c ∈ childNodes m →
               inside (node_box c) (node_box m)) ∧
       childX <= bx (node_box c') ∧
       bx (node_box c') + bw (node_box c') <= childX + children_width cs ∧
       by_ (node_box c') = childY ∧
       ∃ c, c ∈ cs ∧ bh (node_box c') = h (ann c))
      (childLoop place cs childX fb mb).1.1 ∧
    (∀ id b, (childLoop place cs childX fb mb).1.2 !! id = Some b →
             fb !! id = Some b ∨
             ∃ c' m f, c' ∈ (childLoop place cs childX fb mb).1.1 ∧
                       m ∈ subtrees c' ∧ f ∈ functions m ∧
                       id = path m +:+ "::" +:+ f ∧ inside b (node_box m)) ∧
    (∀ p b, (childLoop place cs childX fb mb).2 !! p = Some b →
            mb !! p = Some b ∨
            ∃ c' m, c' ∈ (childLoop place cs childX fb mb).1.1 ∧
                    m ∈ subtrees c' ∧ p = path m ∧ b = node_box m) ∧
    (∀ c' m, c' ∈ (childLoop place cs childX fb mb).1.1 → m ∈ subtrees c' →
             is_Some ((childLoop place cs childX fb mb).2 !! path m) ∧
             ∀ f, f ∈ functions m →
                  is_Some ((childLoop place cs childX fb mb).1.2
                             !! (path m +:+ "::" +:+ f))) ∧
    (∀ k, is_Some (fb !! k) →
          is_Some ((childLoop place cs childX fb mb).1.2 !! k)) ∧
    (∀ k, is_Some (mb !! k) →
          is_Some ((childLoop place cs childX fb mb).2 !! k)).
Proof.
  intros Hw Hplace. induction Hplace as [|c rest Hc Hrest IH];
    intros childX fb mb.
  - rewrite childLoop_nil. cbn [fst snd].
    split; [constructor|]. split; [by left|]. split; [by left|].
    split; [|done]. intros c' m Hc'. by apply elem_of_nil in Hc'.
  - apply Forall_cons in Hw as [Hwc Hwrest].
    rewrite childLoop_cons. cbn [fst snd].
    specialize (Hc childX fb mb).
    destruct (place c childX fb mb) as [[c' fb1] mb1].
    destruct Hc as (Hbox & Htree & Hfb & Hmb & Hsome & Hfbm & Hmbm).
    cbn [fst snd] in *.
    specialize (IH Hwrest (childX + w (ann c) + MOD_GAP) fb1 mb1).
    destruct IH as (IHall & IHfb & IHmb & IHsome & IHfbm & IHmbm).
    pose proof (children_width_cons c rest) as Hcw.
    pose proof (children_width_nonneg rest Hwrest) as Hnn.
    split; [|split; [|split; [|split; [|split]]]].
    + constructor.
      * split; [done|]. rewrite Hbox. cbn [bx bw by_ bh].
        split; [lra|]. split; [destruct rest; consts; lra|].
        split; [done|]. exists c. split; [set_solver | done].
      * destruct rest as [|c2 rest]; [rewrite childLoop_nil; constructor|].
        eapply Forall_impl; [exact IHall|]. cbn beta.
        intros r (Hr1 & Hr2 & Hr3 & Hr4 & c0 & Hc0 & Hr5).
        split; [done|]. split; [consts; lra|]. split; [consts; lra|].
        split; [done|]. exists c0. split; [set_solver | done].
    + intros id b Hb. apply IHfb in Hb as [Hb|(r & m & f & Hr & ?)].
      * apply Hfb in Hb as [Hb|(m & f & ?)]; [by left|].
        right. exists c', m, f. split; [set_solver | done].
      * right. exists r, m, f. split; [set_solver | done].
    + intros p b Hb. apply IHmb in Hb as [Hb|(r & m & Hr & ?)].
      * apply Hmb in Hb as [Hb|(m & ?)]; [by left|].
        right. exists c', m. split; [set_solver | done].
      * right. exists r, m. split; [set_solver | done].
    + intros r m Hr Hm.
      apply elem_of_cons in Hr as [->|Hr]; [|exact (IHsome r m Hr Hm)].
      destruct (Hsome m Hm) as [H1 H2]. split; [by apply IHmbm|].
      intros f Hf. by apply IHfbm, H2.
    + intros k Hk. by apply IHfbm, Hfbm.
    + intros k Hk. by apply IHmbm, Hmbm.
Qed.

(** The positioning pass on a tree the sizing pass has been through. *)
Lemma computePositions_ok n :
  well_sized n →
  ∀ x y fb mb, placement_ok n x y fb mb (computePositions n x y fb mb).
Proof.
  induction n as [nm p d fs s cs IH] using node_ind'.
  intros Hws x y fb mb.
  inversion Hws as [? ? ? ? ? ? HfnA HsecG Harea Hcw Hpad Hh Hhs Hwc Hwss];
    subst.
  cbn [computePositions].
  set (childY := y + HEADER_H + _fnAreaH s + _secGap s).
  set (place := λ c childX fb mb, computePositions c childX childY fb mb).
  set (fb1 := fnLoop p (x + PAD) (w s - 2 * PAD) fs (y + HEADER_H) fb).
  set (mb1 := <[p := Box x y (w s) (h s) None]> mb).
  assert (Hplace : Forall (λ c, ∀ X fb mb,
                      placement_ok c X childY fb mb (place c X fb mb)) cs).
  { clear -IH Hwss. induction IH as [|c cs Hc _ IHcs]; [constructor|].
    apply Forall_cons in Hwss as [Hw1 Hw2].
    constructor; [|by apply IHcs]. intros X fb mb. by apply Hc. }
  destruct (childLoop_ok place childY cs Hwc Hplace (x + PAD) fb1 mb1)
    as (Hall & Hfb & Hmb & Hsome & Hfbm & Hmbm).
  destruct (fnLoop_spec p (x + PAD) (w s - 2 * PAD) fs (y + HEADER_H) fb)
    as (Hfn & Hfnm & Hfnall).
  fold fb1 in Hfn, Hfnm, Hfnall.
  destruct (childLoop place cs (x + PAD) fb1 mb1) as [[cs' fb2] mb2].
  cbn [fst snd] in *.
  set (root := Node nm p d fs (Placed s x y) cs').
  assert (Hchildren : ∀ c, c ∈ cs' → inside (node_box c) (node_box root)).
  { intros c Hc. rewrite Forall_forall in Hall.
    destruct (Hall c Hc) as (_ & H1 & H2 & H3 & c0 & Hc0 & H4).
    rewrite Forall_forall in Hhs. specialize (Hhs c0 Hc0).
    unfold inside. rewrite H3, H4.
    change (node_box root) with (Box x y (w s) (h s) None).
    cbn [bx by_ bw bh]. unfold childY. consts. repeat split; lra. }
  split; [done|]. split; [|split; [|split; [|split; [|split]]]].
  - intros m c Hm Hc. apply elem_of_subtrees in Hm as [->|(c1 & Hc1 & Hm)].
    + by apply Hchildren.
    + rewrite Forall_forall in Hall. destruct (Hall c1 Hc1) as (Htree & _).
      by apply Htree.
  - intros id b Hb. apply Hfb in Hb as [Hb|(c1 & m & f & Hc1 & Hm & ?)].
    + apply Hfn in Hb as [Hb|(f & Hf & -> & Hx & Hw & Hhh & Hy1 & Hy2)];
        [by left|].
      right. exists root, f. split; [apply subtrees_self|].
      split; [done|]. split; [done|].
      assert (Hfs : fs ≠ []) by (intros ->; by apply elem_of_nil in Hf).
      specialize (Harea Hfs). unfold inside. rewrite Hx, Hw, Hhh.
      change (node_box root) with (Box x y (w s) (h s) None).
      cbn [bx by_ bw bh]. consts. repeat split; lra.
    + right. exists m, f. split; [|done].
      apply elem_of_subtrees. right. eauto.
  - intros q b Hb. apply Hmb in Hb as [Hb|(c1 & m & Hc1 & Hm & ?)].
    + unfold mb1 in Hb. destruct (decide (p = q)) as [<-|Hne].
      * rewrite lookup_insert_eq in Hb. injection Hb as <-. right.
        exists root. split; [apply subtrees_self | done].
      * rewrite lookup_insert_ne in Hb by done. by left.
    + right. exists m. split; [|done]. apply elem_of_subtrees. right. eauto.
  - intros m Hm. apply elem_of_subtrees in Hm as [->|(c1 & Hc1 & Hm)].
    + split.
      * apply Hmbm. unfold mb1. cbn [path]. rewrite lookup_insert_eq. eauto.
      * intros f Hf. by apply Hfbm, Hfnall.
    + by eapply Hsome.
  - intros k Hk. by apply Hfbm, Hfnm.
  - intros k Hk. apply Hmbm. unfold mb1.
    destruct (decide (p = k)) as [<-|Hne].
    + rewrite lookup_insert_eq. eauto.
    + by rewrite lookup_insert_ne.
Qed.

(** *** Reproducibility *)

Lemma fold_left_agree {A B} (f g : A → B → A) (l : list B) :
  (∀ a x, x ∈ l → f a x = g a x) → ∀ a, fold_left f l a = fold_left g l a.
Proof.
  induction l as [|x l IH]; intros H a; [done|]. cbn [fold_left].
  rewrite H by set_solver. apply IH. intros; apply H; set_solver.
Qed.

Lemma computeSize_agree m1 m2 root :
  agree_on m1 m2 root → computeSize m1 root = computeSize m2 root.
Proof.
  induction root as [nm p d fs a cs IH] using node_ind'. intros Hag.
  assert (Hcs : map (computeSize m1) cs = map (computeSize m2) cs).
  { apply map_ext_in. intros c Hc. apply list_elem_of_In in Hc.
    rewrite Forall_forall in IH. apply IH; [done|].
    intros n Hn. apply Hag, elem_of_subtrees. right. eauto. }
  destruct (Hag (Node nm p d fs a cs) (subtrees_self _)) as [Hname Hfs].
  cbn [name functions] in Hname, Hfs.
  cbn [computeSize]. rewrite Hcs, Hname.
  rewrite (fold_left_agree
             (λ acc f, Qmax acc (m1 f FN_SIZE + 2 * FN_PAD_X))
             (λ acc f, Qmax acc (m2 f FN_SIZE + 2 * FN_PAD_X)) fs);
    [done|].
  intros acc f Hf. by rewrite Hfs.
Qed.

Lemma write_all_lookup W : ∀ d k, write_all W d !! k = written W k (d !! k).
Proof.
  unfold write_all, written.
  induction W as [|[k' v] W IH]; intros d k; [done|].
  cbn [fold_left fst snd]. by rewrite IH, lookup_insert.
Qed.

Lemma written_over W k : ∀ o,
  written W k o = match written W k None with Some v => Some v | None => o end.
Proof.
  unfold written. induction W as [|[k' v] W IH]; intros o; [done|].
  cbn [fold_left fst snd]. rewrite IH.
  rewrite (IH (if decide (k' = k) then Some v else None)).
  destruct (fold_left _ W None); [done|]. by case_decide.
Qed.

(** Assignments made a second time change nothing. *)
Lemma write_all_twice W d : write_all W (write_all W d) = write_all W d.
Proof.
  apply map_eq. intros k. rewrite !write_all_lookup.
  rewrite (written_over W k (written W k (d !! k))).
  rewrite (written_over W k (d !! k)). by destruct (written W k None).
Qed.

Lemma write_all_app W1 W2 d :
  write_all (W1 ++ W2) d = write_all W2 (write_all W1 d).
Proof. apply fold_left_app. Qed.

Lemma fnLoop_writes p innerX innerW fs : ∀ fnY,
  ∃ W, ∀ fb, fnLoop p innerX innerW fs fnY fb = write_all W fb.
Proof.
  induction fs as [|f fs IH]; intros fnY; [by exists []|].
  destruct (IH (fnY + (FN_H + FN_GAP))) as [W HW].
  exists ((p +:+ "::" +:+ f, Box innerX fnY innerW FN_H (Some f)) :: W).
  intros fb. cbn [fnLoop]. by rewrite HW.
Qed.

Lemma childLoop_writes place cs :
  Forall (λ c, ∀ X, writes_only (place c X)) cs →
  ∀ childX, ∃ cs' Wf Wm, ∀ fb mb,
    childLoop place cs childX fb mb = (cs', write_all Wf fb, write_all Wm mb).
Proof.
  induction 1 as [|c cs Hc _ IH]; intros childX.
  - by exists [], [], [].
  - destruct (Hc childX) as (c' & Wf1 & Wm1 & H1).
    destruct (IH (childX + w (ann c) + MOD_GAP)) as (cs' & Wf2 & Wm2 & H2).
    exists (c' :: cs'), (Wf1 ++ Wf2), (Wm1 ++ Wm2). intros fb mb.
    cbn [childLoop]. rewrite H1, H2. by rewrite !write_all_app.
Qed.

Lemma computePositions_writes n : ∀ x y, writes_only (computePositions n x y).
Proof.
  induction n as [nm p d fs s cs IH] using node_ind'. intros x y.
  destruct (fnLoop_writes p (x + PAD) (w s - 2 * PAD) fs (y + HEADER_H))
    as [Wf1 HWf1].
  destruct (childLoop_writes
              (λ c childX fb mb,
                 computePositions c childX
                   (y + HEADER_H + _fnAreaH s + _secGap s) fb mb) cs)
    with (childX := x + PAD) as (cs' & Wf2 & Wm2 & H2).
  { eapply Forall_impl; [exact IH|]. intros c Hc X. apply Hc. }
  exists (Node nm p d fs (Placed s x y) cs'), (Wf1 ++ Wf2),
         ((p, Box x y (w s) (h s) None) :: Wm2).
  intros fb mb. cbn [computePositions]. rewrite HWf1, H2.
  by rewrite write_all_app.
Qed.

(** C9: the layout depends on the measurement function only through the
    widths it gives to the labels of the tree; the positioning pass returns
    the same nodes whatever the two dictionaries held before, and run again
    on the dictionaries it has filled it leaves them as they are; and
    [updateArrows] computes the same markup from the same edges, Expanded-Set
    and boxes, whatever markup was there before, so that running it twice
    changes nothing. *)
Theorem layout_and_routing_reproducible :
  (∀ m1 m2 root, agree_on m1 m2 root → layout m1 root = layout m2 root) ∧
  (∀ m root fb mb,
     (computePositions (computeSize m root) 0 0 fb mb).1.1
     = (layout m root).1.1 ∧
     computePositions (computeSize m root) 0 0
       (computePositions (computeSize m root) 0 0 fb mb).1.2
       (computePositions (computeSize m root) 0 0 fb mb).2
     = computePositions (computeSize m root) 0 0 fb mb) ∧
  (∀ show pg,
     Router.updateArrows show (Router.updateArrows show pg)
     = Router.updateArrows show pg) ∧
  (∀ show pg pg',
     Router.function_edges pg = Router.function_edges pg' →
     Router.expanded pg = Router.expanded pg' →
     Router.fnBoxes pg = Router.fnBoxes pg' →
     Router.modBoxes pg = Router.modBoxes pg' →
     Router.arrows (Router.updateArrows show pg)
     = Router.arrows (Router.updateArrows show pg')).
Proof.
  split; [|split; [|split]].
  - intros m1 m2 root H. unfold layout. by rewrite (computeSize_agree m1 m2).
  - intros m root fb mb. unfold layout.
    destruct (computePositions_writes (computeSize m root) 0 0)
      as (n' & Wf & Wm & H).
    rewrite !H. cbn [fst snd]. split; [done|].
    by rewrite ?H, !write_all_twice.
  - intros show pg. unfold Router.updateArrows.
    cbn [Router.function_edges Router.expanded Router.fnBoxes Router.modBoxes].
    f_equal.
  - intros show pg pg' He Hx Hf Hm. unfold Router.updateArrows.
    cbn [Router.arrows]. unfold Router.arrows_html, Router.getVisibleObstacles.
    by rewrite He, Hx, Hf, Hm.
Qed.

(** C9 on the tree of the scenario, with two measurement functions that
    differ outside its labels. *)
Lemma layout_and_routing_reproducible_witness :
  Router.sample_measure "x" 12 ≠ Router.other_measure "x" 12 ∧
  agree_on Router.sample_measure Router.other_measure Router.sample_tree ∧
  layout Router.sample_measure Router.sample_tree
  = layout Router.other_measure Router.sample_tree.
Proof.
  assert (H : agree_on Router.sample_measure Router.other_measure
                Router.sample_tree).
  { intros n Hn. unfold Router.sample_tree in Hn. cbn [subtrees map concat app] in Hn.
    repeat (apply elem_of_cons in Hn as [->|Hn]);
      [| | |by apply elem_of_nil in Hn];
      (split; [by vm_compute|]); intros f Hf; cbn [functions] in Hf;
      apply list_elem_of_singleton in Hf as ->; by vm_compute. }
  split; [by vm_compute|]. split; [exact H|].
  exact (proj1 layout_and_routing_reproducible _ _ _ H).
Defined.

End LayoutFacts.

(** ** More on visibility: parents, toggles and what a collapse hides *)

Module VisibilityMore.
Import Visibility StringFacts VisibilityFacts.

Lemma prefix_app_iff p s :
  String.prefix p s = true ↔ ∃ r, s = p +:+ r.
Proof.
  revert s. induction p as [|c p IH]; intros s.
  - split; [intros _; by exists s | intros _; by destruct s].
  - destruct s as [|c' s].
    + split; [done | intros [r Hr]; by rewrite append_cons in Hr].
    + cbn [String.prefix]. destruct (ascii_dec c c') as [<-|Hne].
      * rewrite IH. split; intros [r Hr]; exists r.
        -- by rewrite append_cons, Hr.
        -- rewrite append_cons in Hr. by injection Hr.
      * split; [done | intros [r Hr]]. rewrite append_cons in Hr.
        by injection Hr.
Qed.

Lemma split_go_path p : ∀ acc r,
  split_go "/" 0 acc (p +:+ "/" +:+ r)
  = split_go "/" 0 acc p ++ split "/" r.
Proof.
  induction p as [|c p IH]; intros acc r.
  - rewrite append_nil_l.
    change ("/" +:+ r) with (String "/" r). by rewrite split_go_slash.
  - rewrite append_cons, !split_go_slash.
    destruct (Ascii.eqb "/" c); [by rewrite IH | apply IH].
Qed.

Lemma split_app_path p r :
  split "/" (p +:+ "/" +:+ r) = split "/" p ++ split "/" r.
Proof. apply split_go_path. Qed.

Lemma split_segment name : slashfree name = true → split "/" name = [name].
Proof.
  intros H. change name with (join "/" [name]) at 1.
  apply split_join; [done | by constructor].
Qed.

Lemma length_split_pos s : (1 ≤ length (split "/" s))%nat.
Proof.
  pose proof (split_nonempty "/" s). destruct (split "/" s); [done|].
  simpl. lia.
Qed.

Lemma prefix_paths_app_l segs extra i n :
  (i + n ≤ S (length segs))%nat →
  prefix_paths (segs ++ extra) i n = prefix_paths segs i n.
Proof.
  intros Hn. unfold prefix_paths. apply map_ext_in. intros k Hk.
  apply in_seq in Hk. by rewrite take_app_le by lia.
Qed.

(** The owner of an endpoint at or below [path] has the segments of [path]
    first. *)
Lemma split_below path q :
  q = path ∨ startsWith q (path +:+ "/") = true →
  ∃ rest, split "/" q = split "/" path ++ rest.
Proof.
  intros [->|H]; [exists []; by rewrite app_nil_r|].
  apply prefix_app_iff in H as [r ->]. rewrite append_assoc.
  exists (split "/" r). apply split_app_path.
Qed.

Lemma descendant_has_ancestor path q :
  startsWith q (path +:+ "/") = true → path ∈ strict_ancestors q.
Proof.
  intros H. apply prefix_app_iff in H as [r ->]. rewrite append_assoc.
  unfold strict_ancestors. rewrite split_app_path, length_app.
  pose proof (length_split_pos path). pose proof (length_split_pos r).
  apply elem_of_prefix_paths. exists (length (split "/" path)).
  split; [lia|]. by rewrite take_app_length, join_split.
Qed.

Lemma strict_ancestors_child p name :
  slashfree name = true →
  strict_ancestors (p +:+ "/" +:+ name) = strict_ancestors p ++ [p].
Proof.
  intros H. unfold strict_ancestors.
  rewrite split_app_path, (split_segment name), length_app by done.
  cbn [length]. pose proof (length_split_pos p) as Hp.
  replace (length (split "/" p) + 1 - 1)%nat
    with (S (length (split "/" p) - 1)) by lia.
  rewrite prefix_paths_snoc, !prefix_paths_app_l by lia.
  replace (1 + (length (split "/" p) - 1))%nat
    with (length (split "/" p)) by lia.
  by rewrite take_app_length, join_split.
Qed.

Lemma click_collapse_elem module_paths path ctrl (E : gset string) q :
  path ≠ "" → path ∈ E →
  q ∈ click module_paths path ctrl E
  ↔ q ∈ E ∧ q ≠ path ∧ startsWith q (path +:+ "/") = false.
Proof.
  intros Hne Hin. unfold click.
  rewrite decide_False, decide_True by done. rewrite elem_of_fold_remove.
  rewrite list_elem_of_In, filter_In, <- list_elem_of_In, elem_of_elements.
  rewrite orb_true_iff, bool_decide_eq_true.
  destruct (startsWith q (path +:+ "/")); naive_solver.
Qed.

Lemma elem_of_fold_add (P : string → bool) (l : list string) :
  ∀ (E : gset string) q,
    q ∈ fold_left (λ e p, if P p then e ∪ {[p]} else e) l E
    ↔ q ∈ E ∨ (q ∈ l ∧ P q = true).
Proof.
  induction l as [|p l IH]; intros E q; cbn [fold_left].
  - split; [by left | intros [?|[H _]]; [done|]]. by apply elem_of_nil in H.
  - rewrite IH, elem_of_cons. destruct (P p) eqn:HP.
    + rewrite elem_of_union, elem_of_singleton. naive_solver.
    + split; [naive_solver|].
      intros [?|[[->|?] ?]]; [by left | congruence | by right].
Qed.

(** X1: the box of a module whose path is a single segment (the root) is
    always visible, and the box of a child is visible exactly when the box of
    its parent is visible and the parent is expanded. *)
Theorem isModVisible_parent (E : gset string) :
  (∀ p, slashfree p = true → isModVisible E p = true) ∧
  (∀ p name, slashfree name = true →
             isModVisible E (p +:+ "/" +:+ name)
             = isModVisible E p && bool_decide (p ∈ E)).
Proof.
  split.
  - intros p Hp. rewrite isModVisible_spec. unfold strict_ancestors.
    by rewrite split_segment.
  - intros p name Hn. rewrite !isModVisible_spec, strict_ancestors_child by done.
    rewrite forallb_app. cbn [forallb]. by rewrite andb_true_r.
Qed.

(** X1 on the modules of the scenario, with only the root expanded. *)
Lemma isModVisible_parent_witness :
  slashfree "a" = true ∧ slashfree "x" = true ∧
  isModVisible {["root"]} ("root" +:+ "/" +:+ "a") = true ∧
  isModVisible {["root"]} (("root" +:+ "/" +:+ "a") +:+ "/" +:+ "x") = false.
Proof.
  assert (Ha : slashfree "a" = true) by done.
  assert (Hx : slashfree "x" = true) by done.
  split; [exact Ha|]. split; [exact Hx|].
  rewrite (proj2 (isModVisible_parent {["root"]}) ("root" +:+ "/" +:+ "a") "x" Hx).
  rewrite (proj2 (isModVisible_parent {["root"]}) "root" "a" Ha).
  by vm_compute.
Defined.

(** X2: expanding more modules never hides a box: what is visible under an
    Expanded-Set is visible under every larger one. *)
Theorem visibility_monotone (E E' : gset string) :
  E ⊆ E' →
  (∀ p, isModVisible E p = true → isModVisible E' p = true) ∧
  (∀ fnId, isFnVisible E fnId = true → isFnVisible E' fnId = true).
Proof.
  intros Hsub.
  assert (Hmod : ∀ p, isModVisible E p = true → isModVisible E' p = true).
  { intros p. rewrite !isModVisible_spec, !forallb_expanded.
    intros H a Ha. by apply Hsub, H. }
  split; [exact Hmod|]. intros fnId. unfold isFnVisible.
  rewrite !andb_true_iff, !bool_decide_eq_true.
  intros [H1 H2]. split; [by apply Hmod | by apply Hsub].
Qed.

Lemma visibility_monotone_witness :
  ({["root"]} : gset string) ⊆ {["root"; "root/a"]} ∧
  isModVisible {["root"]} "root/a" = true ∧
  isModVisible {["root"; "root/a"]} "root/a" = true.
Proof.
  assert (H : ({["root"]} : gset string) ⊆ {["root"; "root/a"]})
    by set_solver.
  assert (Hv : isModVisible {["root"]} "root/a" = true) by (by vm_compute).
  split; [exact H|]. split; [exact Hv|].
  exact (proj1 (visibility_monotone _ _ H) "root/a" Hv).
Defined.

(** X3: after the collapse of an expanded module whose path is not the
    empty string, no box below it is visible, none of the functions at or
    below it is visible, and every endpoint at or below it resolves to the
    module itself or to one of its strict ancestors. *)
Theorem collapse_hides_subtree module_paths path ctrl (E : gset string) :
  path ≠ "" → path ∈ E →
  (∀ q, startsWith q (path +:+ "/") = true →
        isModVisible (click module_paths path ctrl E) q = false) ∧
  (∀ fnId, owner fnId = path ∨ startsWith (owner fnId) (path +:+ "/") = true →
           isFnVisible (click module_paths path ctrl E) fnId = false ∧
           (resolveVisible (click module_paths path ctrl E) fnId = path ∨
            resolveVisible (click module_paths path ctrl E) fnId
            ∈ strict_ancestors path)).
Proof.
  intros Hne Hin.
  assert (Hgone : path ∉ click module_paths path ctrl E).
  { rewrite click_collapse_elem by done. naive_solver. }
  assert (Hmod : ∀ q, startsWith q (path +:+ "/") = true →
                      isModVisible (click module_paths path ctrl E) q = false).
  { intros q Hq. apply descendant_has_ancestor in Hq.
    destruct (isModVisible _ q) eqn:Hv; [|done].
    rewrite isModVisible_spec, forallb_expanded in Hv. by apply Hv in Hq. }
  split; [exact Hmod|]. intros fnId Hown. split.
  - unfold isFnVisible. fold (owner fnId). destruct Hown as [->|Hq].
    + by rewrite (bool_decide_false _ Hgone), andb_false_r.
    + by rewrite Hmod.
  - rewrite resolveVisible_spec. unfold resolve_spec, chain.
    destruct (split_below path (owner fnId) Hown) as [rest Hsegs].
    pose proof (length_split_pos path) as Hlen.
    pose proof (find_prefix_paths
                  (λ p, negb (bool_decide (p ∈ click module_paths path ctrl E)))
                  (split "/" (owner fnId))
                  (length (split "/" (owner fnId))) 1) as Hf.
    assert (Hpath : join "/" (take (length (split "/" path))
                                   (split "/" (owner fnId))) = path)
      by (by rewrite Hsegs, take_app_length, join_split).
    assert (Hk0 : (length (split "/" path)
                   ≤ length (split "/" (owner fnId)))%nat)
      by (rewrite Hsegs, length_app; lia).
    destruct (List.find _ _) as [r|].
    + destruct Hf as (k & Hk & -> & _ & Hlow).
      destruct (decide (k = length (split "/" path))) as [->|Hk'];
        [by left|].
      assert (k < length (split "/" path))%nat as Hlt.
      { destruct (decide (k < length (split "/" path))%nat); [done|].
        specialize (Hlow (length (split "/" path)) ltac:(lia)).
        rewrite Hpath, bool_decide_false in Hlow by done. done. }
      right. unfold strict_ancestors. apply elem_of_prefix_paths.
      exists k. split; [lia|]. by rewrite Hsegs, take_app_le by lia.
    + specialize (Hf (length (split "/" path)) ltac:(lia)).
      rewrite Hpath, bool_decide_false in Hf by done. done.
Qed.

Lemma collapse_hides_subtree_witness :
  "root/a" ≠ "" ∧
  "root/a" ∈ ({["root"; "root/a"; "root/a/x"]} : gset string) ∧
  isModVisible (click [] "root/a" false {["root"; "root/a"; "root/a/x"]})
    "root/a/x/y" = false ∧
  resolveVisible (click [] "root/a" false {["root"; "root/a"; "root/a/x"]})
    "root/a/x::f" = "root/a".
Proof.
  assert (H : "root/a" ∈ ({["root"; "root/a"; "root/a/x"]} : gset string))
    by set_solver.
  assert (Hne : "root/a" ≠ "") by done.
  split; [exact Hne|]. split; [exact H|]. split; [|by vm_compute].
  apply (proj1 (collapse_hides_subtree [] "root/a" false _ Hne H)).
  by vm_compute.
Defined.

Lemma click_expand_elem module_paths path (E : gset string) :
  path ≠ "" → path ∉ E →
  (∀ q, q ∈ click module_paths path false E ↔ q ∈ E ∨ q = path) ∧
  (∀ q, q ∈ click module_paths path true E
        ↔ q ∈ E ∨ (q ∈ module_paths ∧
                   (q = path ∨ startsWith q (path +:+ "/") = true))).
Proof.
  intros Hne Hout. unfold click. rewrite !decide_False by done. split.
  - intros q. rewrite elem_of_union, elem_of_singleton. done.
  - intros q.
    rewrite (elem_of_fold_add
               (λ p, bool_decide (p = path) || startsWith p (path +:+ "/"))).
    by rewrite orb_true_iff, bool_decide_eq_true.
Qed.

(** X4: a click on a collapsed module whose path is not the empty string
    adds its path and nothing else; with the control key it adds the module
    paths of the graph that are the path or lie below it; a click on a module
    whose path is the empty string changes nothing; Expand All adds every
    module path of the graph.  None of them removes a member. *)
Theorem expand_adds module_paths (E : gset string) :
  (∀ path, path ≠ "" → path ∉ E →
     (∀ q, q ∈ click module_paths path false E ↔ q ∈ E ∨ q = path) ∧
     (∀ q, q ∈ click module_paths path true E
           ↔ q ∈ E ∨ (q ∈ module_paths ∧
                      (q = path ∨ startsWith q (path +:+ "/") = true)))) ∧
  (∀ ctrl, click module_paths "" ctrl E = E) ∧
  (∀ q, q ∈ expand_all module_paths E ↔ q ∈ E ∨ q ∈ module_paths).
Proof.
  split; [|split].
  - intros path Hne Hout. by apply click_expand_elem.
  - done.
  - intros q. unfold expand_all. rewrite (elem_of_fold_add (λ _, true)).
    naive_solver.
Qed.

Lemma expand_adds_witness :
  "root/a" ≠ "" ∧
  ("root/a" ∉ ({["root"]} : gset string)) ∧
  click ["root"; "root/a"; "root/a/x"; "root/ab"] "root/a" true {["root"]}
  = {["root"; "root/a"; "root/a/x"]} ∧
  ∀ q, q ∈ click ["root"; "root/a"; "root/a/x"; "root/ab"] "root/a" false
             {["root"]}
       ↔ q ∈ ({["root"]} : gset string) ∨ q = "root/a".
Proof.
  assert (Hne : "root/a" ≠ "") by done.
  assert (H : "root/a" ∉ ({["root"]} : gset string)) by set_solver.
  split; [exact Hne|]. split; [exact H|]. split; [by vm_compute|].
  exact (proj1 (proj1 (expand_adds ["root"; "root/a"; "root/a/x"; "root/ab"]
                         {["root"]}) "root/a" Hne H)).
Defined.

(** X5: expanding a collapsed module, alone or with its subtree, and
    clicking it again gives back the Expanded-Set there was, when that set
    held no path below the module. *)
Theorem expand_then_collapse module_paths path ctrl ctrl' (E : gset string) :
  path ∉ E →
  (∀ q, q ∈ E → startsWith q (path +:+ "/") = false) →
  (ctrl = true → path ∈ module_paths) →
  click module_paths path ctrl' (click module_paths path ctrl E) = E.
Proof.
  intros Hout Hbelow Hmods.
  destruct (decide (path = "")) as [->|Hne]; [done|].
  destruct (click_expand_elem module_paths path E Hne Hout) as [Hplain Hctrl].
  assert (Hin : path ∈ click module_paths path ctrl E).
  { destruct ctrl.
    - apply Hctrl. right. auto.
    - apply Hplain. by right. }
  apply set_eq. intros q. rewrite click_collapse_elem by done.
  destruct ctrl.
  - rewrite Hctrl. split.
    + intros ([?|[_ [?|?]]] & ? & ?); [done| |]; congruence.
    + intros Hq. split; [by left|]. split; [congruence | by apply Hbelow].
  - rewrite Hplain. split.
    + intros ([?|?] & ? & ?); [done|congruence].
    + intros Hq. split; [by left|]. split; [congruence | by apply Hbelow].
Qed.

Lemma expand_then_collapse_witness :
  click ["root"; "root/a"; "root/a/x"] "root/a" false
    (click ["root"; "root/a"; "root/a/x"] "root/a" true {["root"]})
  = {["root"]}.
Proof.
  apply expand_then_collapse.
  - set_solver.
  - intros q Hq. apply elem_of_singleton in Hq as ->. by vm_compute.
  - intros _. set_solver.
Defined.

(** X6: an endpoint whose function box is visible resolves to itself. *)
Theorem visible_function_resolves_to_itself (E : gset string) fnId :
  isFnVisible E fnId = true → resolveVisible E fnId = fnId.
Proof.
  unfold isFnVisible. fold (owner fnId).
  rewrite andb_true_iff, bool_decide_eq_true, isModVisible_spec,
    forallb_expanded.
  intros [Hanc Hown]. rewrite resolveVisible_spec. unfold resolve_spec, chain.
  pose proof (find_prefix_paths (λ p, negb (bool_decide (p ∈ E)))
                (split "/" (owner fnId))
                (length (split "/" (owner fnId))) 1) as Hf.
  pose proof (length_split_pos (owner fnId)) as Hlen.
  destruct (List.find _ _) as [r|]; [|done].
  destruct Hf as (k & Hk & -> & Hr & _).
  apply negb_true_iff, bool_decide_eq_false in Hr. destruct Hr.
  destruct (decide (k = length (split "/" (owner fnId)))) as [->|Hne].
  - by rewrite firstn_all, join_split.
  - apply Hanc. unfold strict_ancestors. apply elem_of_prefix_paths.
    exists k. split; [lia | done].
Qed.

Lemma visible_function_resolves_to_itself_witness :
  isFnVisible {["root"; "root/a"]} "root/a::foo" = true ∧
  resolveVisible {["root"; "root/a"]} "root/a::foo" = "root/a::foo".
Proof.
  assert (H : isFnVisible {["root"; "root/a"]} "root/a::foo" = true)
    by (by vm_compute).
  split; [exact H|].
  exact (visible_function_resolves_to_itself _ _ H).
Defined.

Lemma elem_of_collapse_all root (E : gset string) q :
  q ∈ collapse_all root E ↔ q = root.
Proof. unfold collapse_all. set_solver. Qed.

Lemma child_path_neq p name : p +:+ "/" +:+ name ≠ p.
Proof.
  induction p as [|c p IH].
  - rewrite append_nil_l. by destruct name.
  - rewrite append_cons. intros H. by injection H.
Qed.

(** X7: after Collapse All the boxes of the children of the root are
    visible, no box below them is, and every endpoint owned at or below a
    child of the root resolves to that child. *)
Theorem collapse_all_shows_top_level root (E : gset string) :
  slashfree root = true →
  (∀ name, slashfree name = true →
           isModVisible (collapse_all root E) (root +:+ "/" +:+ name) = true) ∧
  (∀ p name, slashfree name = true →
             isModVisible (collapse_all root E) (p +:+ "/" +:+ name) = true →
             p = root) ∧
  (∀ fnId name,
     slashfree name = true →
     owner fnId = root +:+ "/" +:+ name ∨
     startsWith (owner fnId) ((root +:+ "/" +:+ name) +:+ "/") = true →
     resolveVisible (collapse_all root E) fnId = root +:+ "/" +:+ name).
Proof.
  intros Hroot.
  assert (Hstep : ∀ p name, slashfree name = true →
            isModVisible (collapse_all root E) (p +:+ "/" +:+ name)
            = isModVisible (collapse_all root E) p
              && bool_decide (p ∈ collapse_all root E)).
  { intros p name Hn.
    rewrite !isModVisible_spec, strict_ancestors_child by done.
    rewrite forallb_app. cbn [forallb]. by rewrite andb_true_r. }
  split; [|split].
  - intros name Hn. rewrite Hstep by done. apply andb_true_iff. split.
    + rewrite isModVisible_spec. unfold strict_ancestors.
      by rewrite split_segment.
    + apply bool_decide_eq_true. by apply elem_of_collapse_all.
  - intros p name Hn. rewrite Hstep by done.
    rewrite andb_true_iff, bool_decide_eq_true, elem_of_collapse_all.
    by intros [_ ?].
  - intros fnId name Hn Hown.
    destruct (split_below _ _ Hown) as [rest Hsegs].
    rewrite split_app_path, (split_segment root), (split_segment name)
      in Hsegs by done.
    rewrite resolveVisible_spec. unfold resolve_spec, chain. rewrite Hsegs.
    cbn [app].
    pose proof (find_prefix_paths
                  (λ p, negb (bool_decide (p ∈ collapse_all root E)))
                  (root :: name :: rest)
                  (length (root :: name :: rest)) 1) as Hf.
    assert (H1 : negb (bool_decide
                         (join "/" (take 1 (root :: name :: rest))
                          ∈ collapse_all root E)) = false).
    { apply negb_false_iff, bool_decide_eq_true, elem_of_collapse_all.
      reflexivity. }
    assert (H2 : negb (bool_decide
                         (join "/" (take 2 (root :: name :: rest))
                          ∈ collapse_all root E)) = true).
    { apply negb_true_iff, bool_decide_eq_false.
      rewrite elem_of_collapse_all. apply child_path_neq. }
    destruct (List.find _ _) as [r|].
    + destruct Hf as (k & Hk & -> & Hr & Hlow).
      destruct (decide (k = 2)) as [->|Hne]; [reflexivity|].
      destruct (decide (k = 1)) as [->|Hne1]; [congruence|].
      specialize (Hlow 2 ltac:(lia)). congruence.
    + specialize (Hf 2 ltac:(cbn [length]; lia)). congruence.
Qed.

Lemma collapse_all_shows_top_level_witness :
  slashfree "root" = true ∧
  isModVisible (collapse_all "root" {["root"; "root/a"; "root/a/x"]})
    ("root" +:+ "/" +:+ "a") = true ∧
  resolveVisible (collapse_all "root" {["root"; "root/a"; "root/a/x"]})
    "root/a/x::f" = "root" +:+ "/" +:+ "a".
Proof.
  assert (H : slashfree "root" = true) by done.
  split; [exact H|].
  pose proof (collapse_all_shows_top_level "root"
                {["root"; "root/a"; "root/a/x"]} H) as (H1 & _ & H3).
  split; [by apply H1|]. apply H3; [done|]. right. by vm_compute.
Defined.

End VisibilityMore.

(** ** More on the sorter: any sibling list, idle dependencies, cycles *)

Module SorterMore.
Import Sorter SorterSpec SorterTotal SorterInv SorterReach.

Lemma add_deps_paths children cp ds : ∀ g,
  add_deps (name_to_path_of children) cp g ds
  = add_paths cp g (omap (resolve children) ds).
Proof.
  induction ds as [|d ds IH]; intros g; [done|].
  cbn [add_deps omap list_omap]. unfold add_dep, resolve at 1.
  destruct (name_to_path_of children !! d) as [p|];
    [|cbn [mbind outcome_bind obind]; apply IH].
  case_decide; [cbn [mbind outcome_bind obind]; apply IH|].
  cbn [add_paths]. unfold add_path.
  destruct (subscript (adj g) cp) as [l| |]; [|done..].
  destruct (subscript (in_deg g) p) as [n| |]; [|done..].
  cbn [mbind outcome_bind obind]. apply IH.
Qed.

Lemma build_congr children cd1 cd2 cps : ∀ g,
  (∀ u, u ∈ cps →
        resolved_deps children cd1 u = resolved_deps children cd2 u) →
  build (name_to_path_of children) cd1 g cps
  = build (name_to_path_of children) cd2 g cps.
Proof.
  induction cps as [|cp cps IH]; intros g H; [done|]. cbn [build].
  rewrite !add_deps_paths. fold (resolved_deps children cd1 cp).
  fold (resolved_deps children cd2 cp). rewrite (H cp) by set_solver.
  destruct (add_paths cp g _) as [g'| |]; [|done..].
  cbn [mbind outcome_bind obind]. apply IH. intros u Hu. apply H. set_solver.
Qed.

Lemma build_idle children child_deps cps : ∀ g,
  (∀ u, u ∈ cps → resolved_deps children child_deps u = []) →
  build (name_to_path_of children) child_deps g cps = Returns g.
Proof.
  induction cps as [|cp cps IH]; intros g H; [done|]. cbn [build].
  rewrite add_deps_paths. fold (resolved_deps children child_deps cp).
  rewrite (H cp) by set_solver. cbn [add_paths mbind outcome_bind obind].
  apply IH. intros u Hu. apply H. set_solver.
Qed.

Lemma kahn_idle a deg : ∀ q result fuel,
  (∀ v, v ∈ q → a !! v = Some []) → (length q ≤ fuel)%nat →
  kahn fuel a deg q result = Returns (deg, result ++ q).
Proof.
  induction q as [|node q IH]; intros result fuel Ha Hf.
  - destruct fuel; cbn [kahn]; by rewrite app_nil_r.
  - destruct fuel as [|fuel]; [simpl in Hf; lia|]. cbn [kahn].
    unfold subscript. rewrite (Ha node) by set_solver.
    cbn [relax mbind outcome_bind obind].
    rewrite IH; [by list_norm | intros; apply Ha; set_solver
                | simpl in Hf; lia].
Qed.

Lemma append_missing_id cs : ∀ r,
  (∀ c, c ∈ cs → c ∈ r) → append_missing cs r = r.
Proof.
  unfold append_missing. induction cs as [|c cs IH]; intros r H; [done|].
  cbn [fold_left]. rewrite decide_True by (apply H; set_solver).
  apply IH. intros x Hx. apply H. set_solver.
Qed.

Lemma append_missing_elem cs v : ∀ r,
  v ∈ append_missing cs r ↔ v ∈ r ∨ v ∈ cs.
Proof.
  unfold append_missing. induction cs as [|c cs IH]; intros r; cbn [fold_left].
  - set_solver.
  - rewrite IH. case_decide; set_solver.
Qed.

Lemma kahn_elems children a fuel : ∀ deg q result,
  keyed children a → closed children a → keyed children deg →
  (∀ v, v ∈ q → v ∈ children) → (length q + weight deg ≤ fuel)%nat →
  ∃ deg' r, kahn fuel a deg q result = Returns (deg', r) ∧
            ∀ v, v ∈ r → v ∈ result ∨ v ∈ children.
Proof.
  induction fuel as [|fuel IH]; intros deg q result Ha Hc Hk Hq Hf.
  - destruct q; simpl in *; [by eauto | lia].
  - destruct q as [|node q]; simpl; [by eauto|].
    destruct (Ha node) as [deps Hdeps]; [apply Hq; set_solver|].
    unfold subscript. rewrite Hdeps. simpl.
    destruct (relax_total children deps deg q Hk)
      as (deg' & q' & -> & Hk' & Hle & Hq').
    { intros d Hd. by eapply Hc. }
    simpl.
    destruct (IH deg' q' (result ++ [node])) as (deg2 & r & -> & Hr);
      try done.
    + intros v Hv. apply Hq' in Hv as [Hv|Hv]; [apply Hq; set_solver|].
      by eapply Hc.
    + simpl in Hf. lia.
    + exists deg2, r. split; [done|]. intros v Hv.
      apply Hr in Hv as [Hv|Hv]; [|by right].
      apply elem_of_app in Hv as [Hv|Hv]; [by left|].
      apply list_elem_of_singleton in Hv as ->. right. apply Hq. set_solver.
Qed.

Lemma split_unique (w : string) a : ∀ a' b b',
  NoDup (a ++ w :: b) → a ++ w :: b = a' ++ w :: b' → a = a' ∧ b = b'.
Proof.
  induction a as [|c a IH]; intros [|c' a'] b b' Hnd Heq; cbn [app] in *.
  - by injection Heq as ->.
  - injection Heq as -> ->. apply NoDup_cons in Hnd as [Hw _]. set_solver.
  - injection Heq as -> <-. apply NoDup_cons in Hnd as [Hw _]. set_solver.
  - injection Heq as -> Heq. apply NoDup_cons in Hnd as [_ Hnd].
    by destruct (IH _ _ _ Hnd Heq) as [-> ->].
Qed.

Lemma before_trans x w y l :
  NoDup l → before x w l → before w y l → before x y l.
Proof.
  intros Hnd (l1 & l2 & l3 & H1) (m1 & m2 & m3 & H2). subst l.
  replace (l1 ++ x :: l2 ++ w :: l3) with ((l1 ++ x :: l2) ++ w :: l3)
    in * by (by list_norm).
  apply split_unique in H2 as [<- ->]; [|done].
  exists l1, (l2 ++ w :: m2), m3. by list_norm.
Qed.

Lemma before_irrefl x l : NoDup l → ¬ before x x l.
Proof.
  intros Hnd (l1 & l2 & l3 & ->). apply NoDup_app in Hnd as (_ & _ & Hnd).
  apply NoDup_cons in Hnd as [Hx _]. set_solver.
Qed.

Lemma before_elem_l x y l : before x y l → x ∈ l.
Proof. intros (l1 & l2 & l3 & ->). set_solver. Qed.

Lemma tc_before children child_deps deg clean x y :
  sorting children child_deps deg clean [] [] →
  tc (depends_on children child_deps) x y → y ∈ clean → before x y clean.
Proof.
  intros (_ & _ & Hnd & _ & Hord & _). rewrite app_nil_r in *.
  induction 1 as [x y Hxy|x w y Hxw _ IH]; intros Hy; [by apply Hord|].
  specialize (IH Hy). eapply before_trans; [done| |exact IH].
  apply Hord; [done|]. by eapply before_elem_l.
Qed.

Lemma rtc_clean children child_deps deg clean x y :
  sorting children child_deps deg clean [] [] →
  rtc (depends_on children child_deps) x y → y ∈ clean → x ∈ clean.
Proof.
  intros HI. induction 1 as [x|x w y Hxw _ IH]; intros Hy; [done|].
  eapply before_elem_l, (tc_before _ _ _ _ x w HI); [by apply tc_once|].
  by apply IH.
Qed.

Lemma walk_last children child_deps l v :
  walk children child_deps l → last l = Some v →
  ∀ u, u ∈ l → rtc (depends_on children child_deps) u v.
Proof.
  induction 1 as [x|x y l Hxy Hw IH]; intros Hl u Hu.
  - apply list_elem_of_singleton in Hu as ->. by injection Hl as ->.
  - change (last (y :: l) = Some v) in Hl. specialize (IH Hl).
    apply elem_of_cons in Hu as [->|Hu]; [|by apply IH].
    eapply rtc_l; [exact Hxy|]. apply IH. set_solver.
Qed.

Lemma walk_repeat children child_deps l :
  walk children child_deps l → ¬ NoDup l →
  ∃ u, u ∈ l ∧ tc (depends_on children child_deps) u u.
Proof.
  induction 1 as [x|x y l Hxy Hw IH]; intros Hnd.
  - destruct Hnd. apply NoDup_singleton.
  - destruct (decide (x ∈ y :: l)) as [Hx|Hx].
    + exists x. split; [set_solver|].
      eapply walk_reach; [|exact Hx]. by apply walk_cons.
    + destruct IH as (u & Hu & Htc).
      * intros H. apply Hnd. by apply NoDup_cons.
      * exists u. split; [set_solver | done].
Qed.

Lemma stuck_walk_to children child_deps deg clean v n :
  sorting children child_deps deg clean [] [] → v ∈ children → v ∉ clean →
  ∃ l, length l = S n ∧ walk children child_deps l ∧ last l = Some v ∧
       ∀ x, x ∈ l → x ∈ children ∧ x ∉ clean.
Proof.
  intros HI Hv Hout. induction n as [|n (l & Hlen & Hw & Hlast & Hl)].
  - exists [v]. split; [done|]. split; [constructor|]. split; [done|].
    intros x Hx. apply list_elem_of_singleton in Hx. by subst.
  - destruct l as [|h l]; [done|].
    destruct (stuck_has_stuck_dependent children child_deps deg clean h HI)
      as (u & Hu & Hu' & Huh); [apply Hl; set_solver..|].
    exists (u :: h :: l). split; [simpl in *; lia|]. split; [|split].
    + by apply walk_cons.
    + done.
    + intros x Hx. apply elem_of_cons in Hx as [->|Hx]; [done | by apply Hl].
Qed.

Lemma sort_children_elements children child_deps :
  ∃ out, sort_children children child_deps = Returns out ∧
         ∀ v, v ∈ out ↔ v ∈ children.
Proof.
  unfold sort_children, sorted_part.
  destruct (build_good children child_deps children (initial_graph children))
    as (g & -> & Hi & Ha & Hc); [done | apply initial_good |].
  cbn [mbind outcome_bind obind].
  destruct (initial_queue_total children (in_deg g) children Hi)
    as (q & -> & Hq); [done|].
  cbn [mbind outcome_bind obind].
  destruct (kahn_elems children (adj g) (length q + weight (in_deg g))
              (in_deg g) q []) as (deg & r & -> & Hr); try done.
  cbn [mbind outcome_bind obind]. eexists. split; [done|].
  intros v. rewrite append_missing_elem. split; [|by right].
  intros [Hv|Hv]; [|done]. apply Hr in Hv as [Hv|Hv]; [|done].
  by apply elem_of_nil in Hv.
Qed.

(** X8: whatever the sibling list (a path may occur twice) and the
    declared dependencies (they may form cycles), [sort_children] returns a
    list that holds exactly the siblings: none is lost, nothing else is
    added. *)
Theorem sort_children_same_elements children child_deps :
  ∃ out, sort_children children child_deps = Returns out ∧
         ∀ v, v ∈ out ↔ v ∈ children.
Proof. apply sort_children_elements. Qed.

(** X9: when no declared dependency names a sibling, [sort_children]
    returns the sibling list as it is, in declaration order. *)
Theorem sort_children_no_dependencies children child_deps :
  (∀ u, u ∈ children → resolved_deps children child_deps u = []) →
  sort_children children child_deps = Returns children.
Proof.
  intros H. unfold sort_children, sorted_part.
  rewrite build_idle by done. cbn [mbind outcome_bind obind].
  rewrite initial_queue_spec
    by (intros c Hc; cbn [in_deg initial_graph];
        rewrite const_dict_lookup by done; eauto).
  assert (G : ∀ l : list string,
             (∀ c, c ∈ l → c ∈ children) →
             @eq (list string)
               (filter (λ c : string,
                          in_deg (initial_graph children) !! c = Some 0%Z) l)
               l).
  { cbn [in_deg initial_graph].
    induction l as [|c l IH]; intros Hl; [done|].
    rewrite filter_cons, decide_True, IH; [done | |].
    - intros x Hx. apply Hl. set_solver.
    - apply const_dict_lookup, Hl. set_solver. }
  rewrite G by done. cbn [mbind outcome_bind obind].
  rewrite kahn_idle; [| |lia].
  - cbn [mbind outcome_bind obind app]. by rewrite append_missing_id.
  - intros v Hv. cbn [adj initial_graph]. by apply const_dict_lookup.
Qed.

Lemma sort_children_no_dependencies_witness :
  sort_children ["r/b"; "r/a"; "r/b"] {["a" := ["x"; "y"]]}
  = Returns ["r/b"; "r/a"; "r/b"].
Proof.
  apply sort_children_no_dependencies. intros u Hu.
  repeat (apply elem_of_cons in Hu as [->|Hu]); [by vm_compute..|].
  by apply elem_of_nil in Hu.
Defined.

(** X10: the order depends on the declared dependencies only through the
    siblings they name: two dependency maps that resolve to the same sibling
    paths for every sibling give the same result.  Names that are no
    sibling's name are ignored. *)
Theorem sort_children_resolved_only children cd1 cd2 :
  (∀ u, u ∈ children →
        resolved_deps children cd1 u = resolved_deps children cd2 u) →
  sort_children children cd1 = sort_children children cd2.
Proof.
  intros H. unfold sort_children, sorted_part.
  by rewrite (build_congr children cd1 cd2 children).
Qed.

Lemma sort_children_resolved_only_witness :
  sort_children ["r/a"; "r/b"] {["b" := ["zz"; "a"; "std"]]}
  = sort_children ["r/a"; "r/b"] {["b" := ["a"]]}.
Proof.
  apply sort_children_resolved_only. intros u Hu.
  repeat (apply elem_of_cons in Hu as [->|Hu]); [by vm_compute..|].
  by apply elem_of_nil in Hu.
Defined.

(** X11: on distinct siblings whose dependencies may form cycles, the list
    returned is [clean] followed by the other siblings in declaration order,
    where [clean] holds exactly the siblings that are neither on a dependency
    cycle nor a dependency (direct or not) of a sibling on one, and within
    [clean] every sibling stands before the siblings it depends on. *)
Theorem sort_children_with_cycles children child_deps :
  NoDup children →
  ∃ clean,
    sort_children children child_deps
    = Returns (clean ++ leftover children clean) ∧
    (∀ v, v ∈ children →
          (v ∈ clean ↔ ¬ behind_cycle children child_deps v)) ∧
    (∀ u v, depends_on children child_deps u v → v ∈ clean →
            before u v clean).
Proof.
  intros Hnd.
  destruct (sorted_part_spec children child_deps Hnd)
    as (deg & clean & Hs & HI).
  exists clean. split; [|split].
  - unfold sort_children. rewrite Hs. cbn [mbind outcome_bind obind].
    by rewrite append_missing_spec.
  - intros v Hv. split.
    + intros Hclean (u & Hcyc & Hreach).
      assert (Hu : u ∈ clean) by (by eapply rtc_clean).
      pose proof (tc_before _ _ _ _ u u HI Hcyc Hu) as Hb.
      destruct HI as (_ & _ & Hnd' & _). rewrite app_nil_r in Hnd'.
      by eapply before_irrefl.
    + intros Hfree. destruct (decide (v ∈ clean)) as [|Hout]; [done|].
      destruct Hfree.
      destruct (stuck_walk_to children child_deps deg clean v
                  (length children) HI Hv Hout)
        as (l & Hlen & Hw & Hlast & Hl).
      destruct (walk_repeat children child_deps l Hw) as (u & Hu & Hcyc).
      * intros Hndl.
        assert (l ⊆+ children) as Hsub.
        { apply NoDup_submseteq; [done|]. intros x Hx. by apply Hl. }
        apply submseteq_length in Hsub. lia.
      * exists u. split; [done|]. by eapply walk_last.
  - intros u v Huv Hv. apply (tc_before _ _ _ _ u v HI); [|done].
    by apply tc_once.
Qed.

(** X11 on four siblings: [b] and [c] depend on each other and [c] also
    on [a]; only [d] is sorted by the loop. *)
Lemma sort_children_with_cycles_witness :
  NoDup ["r/a"; "r/b"; "r/c"; "r/d"] ∧
  sort_children ["r/a"; "r/b"; "r/c"; "r/d"]
    {["b" := ["c"]; "c" := ["b"; "a"]]}
  = Returns ["r/d"; "r/a"; "r/b"; "r/c"] ∧
  ∃ clean,
    sort_children ["r/a"; "r/b"; "r/c"; "r/d"]
      {["b" := ["c"]; "c" := ["b"; "a"]]}
    = Returns (clean ++ leftover ["r/a"; "r/b"; "r/c"; "r/d"] clean) ∧
    (∀ v, v ∈ ["r/a"; "r/b"; "r/c"; "r/d"] →
          (v ∈ clean
           ↔ ¬ behind_cycle ["r/a"; "r/b"; "r/c"; "r/d"]
                 {["b" := ["c"]; "c" := ["b"; "a"]]} v)) ∧
    (∀ u v, depends_on ["r/a"; "r/b"; "r/c"; "r/d"]
              {["b" := ["c"]; "c" := ["b"; "a"]]} u v →
            v ∈ clean → before u v clean).
Proof.
  assert (H : NoDup ["r/a"; "r/b"; "r/c"; "r/d"]).
  { refine (bool_decide_unpack _ _). by vm_compute. }
  split; [exact H|]. split; [by vm_compute|].
  exact (sort_children_with_cycles _ _ H).
Defined.

End SorterMore.

(** ** More on the arrows: the entries of the edge map, obstacles that never
    block *)

Module RouterMore.
Import Layout Visibility Router RouterRel.

Lemma assoc_None {V} k (l : list (string * V)) :
  assoc k l = None ↔ k ∉ map fst l.
Proof.
  induction l as [|[k' v] l IH]; cbn [assoc map fst].
  - split; [intros _; apply not_elem_of_nil | done].
  - rewrite not_elem_of_cons. destruct (String.eqb_spec k' k) as [->|Hne].
    + split; [done | intros [? _]; done].
    + rewrite IH. naive_solver.
Qed.

Lemma assoc_is_Some {V} k (l : list (string * V)) :
  is_Some (assoc k l) ↔ k ∈ map fst l.
Proof.
  destruct (assoc k l) eqn:H.
  - split; [intros _ | by eauto]. destruct (decide (k ∈ map fst l)); [done|].
    apply assoc_None in n. congruence.
  - apply assoc_None in H. split; [by intros [? ?] | done].
Qed.

Lemma edgeMap_snoc (E : gset string) edges e :
  edgeMap_of E (edges ++ [e])
  = if decide (resolveVisible E e.1 = resolveVisible E e.2)
    then edgeMap_of E edges
    else match assoc (resolveVisible E e.1 +:+ ">" +:+ resolveVisible E e.2)
                     (edgeMap_of E edges) with
         | Some _ => edgeMap_of E edges
         | None =>
             edgeMap_of E edges
             ++ [(resolveVisible E e.1 +:+ ">" +:+ resolveVisible E e.2,
                  (resolveVisible E e.1, resolveVisible E e.2))]
         end.
Proof. unfold edgeMap_of. by rewrite fold_left_app. Qed.

(** X12: the edge map of [updateArrows] has one entry for every key: no
    key occurs twice; the key of an entry is made of its two ends, which are
    the resolved endpoints of an edge of the graph; and every edge of the
    graph whose resolved endpoints differ has its key in the map. *)
Theorem edgeMap_entries (E : gset string) (edges : list (string * string)) :
  NoDup (map fst (edgeMap_of E edges)) ∧
  (∀ entry, entry ∈ edgeMap_of E edges →
            entry.1 = entry.2.1 +:+ ">" +:+ entry.2.2 ∧
            ∃ e, e ∈ edges ∧ resolveVisible E e.1 = entry.2.1 ∧
                 resolveVisible E e.2 = entry.2.2) ∧
  (∀ e, e ∈ edges → resolveVisible E e.1 ≠ resolveVisible E e.2 →
        is_Some (assoc (resolveVisible E e.1 +:+ ">" +:+ resolveVisible E e.2)
                       (edgeMap_of E edges))).
Proof.
  induction edges as [|e edges (IH1 & IH2 & IH3)] using rev_ind.
  - split; [constructor|]. split; intros x Hx; by apply elem_of_nil in Hx.
  - rewrite edgeMap_snoc.
    destruct (decide (resolveVisible E e.1 = resolveVisible E e.2)) as [Heq|Hne].
    { split; [done|]. split.
      - intros entry He. destruct (IH2 entry He) as (Hk & e' & He' & Hs & Ht).
        split; [done|]. exists e'. split; [set_solver | done].
      - intros e' He' Hd. apply elem_of_app in He' as [He'|He'];
          [by apply IH3|].
        apply list_elem_of_singleton in He' as ->. done. }
    destruct (assoc _ (edgeMap_of E edges)) as [v|] eqn:Hassoc.
    { split; [done|]. split.
      - intros entry He. destruct (IH2 entry He) as (Hk & e' & He' & Hs & Ht).
        split; [done|]. exists e'. split; [set_solver | done].
      - intros e' He' Hd. apply elem_of_app in He' as [He'|He'];
          [by apply IH3|].
        apply list_elem_of_singleton in He' as ->. rewrite Hassoc. eauto. }
    split; [|split].
    + rewrite map_app. cbn [map fst]. apply NoDup_app. split; [done|].
      split; [|apply NoDup_singleton].
      intros k Hk Hk'. apply list_elem_of_singleton in Hk' as ->.
      by apply assoc_None in Hassoc.
    + intros entry He. apply elem_of_app in He as [He|He].
      * destruct (IH2 entry He) as (Hk & e' & He' & Hs & Ht).
        split; [done|]. exists e'. split; [set_solver | done].
      * apply list_elem_of_singleton in He as ->. cbn [fst snd].
        split; [done|]. exists e. split; [set_solver | done].
    + intros e' He' Hd. apply assoc_is_Some. rewrite map_app.
      apply elem_of_app. apply elem_of_app in He' as [He'|He'].
      * left. apply assoc_is_Some. by apply IH3.
      * apply list_elem_of_singleton in He' as ->. right. cbn [map fst].
        apply list_elem_of_here.
Qed.

Lemma blocking_not_related (sx sy tx ty : Q) sourceId targetId obstacles :
  findBlockingBoxes sx sy tx ty sourceId targetId
    (List.filter (λ o, negb (related sourceId targetId (id o))) obstacles)
  = findBlockingBoxes sx sy tx ty sourceId targetId obstacles.
Proof.
  unfold findBlockingBoxes. cbn zeta.
  induction obstacles as [|o l IH]; [done|]. cbn [List.filter].
  destruct (related sourceId targetId (id o)) eqn:Hrel; cbn [negb].
  - rewrite IH. unfold related in Hrel.
    destruct (bool_decide (id o = sourceId)), (bool_decide (id o = targetId)),
      (isAncestorOf (id o) sourceId), (isAncestorOf (id o) targetId),
      (isAncestorOf sourceId (id o)), (isAncestorOf targetId (id o));
      try discriminate Hrel; reflexivity.
  - cbn [List.filter]. by rewrite IH.
Qed.

Section with_printer.

Variable show : Q → string.

(** X13: the obstacles that are the source or the target of an arrow, or
    an ancestor or a descendant of one of them, never change its path: the
    path is the one computed without them, and it is the plain orthogonal
    path between the connection points when every obstacle is of that
    kind. *)
Theorem related_obstacles_ignored (s t : box) sourceId targetId obstacles :
  computeArrowPath show s t sourceId targetId obstacles
  = computeArrowPath show s t sourceId targetId
      (List.filter (λ o, negb (related sourceId targetId (id o))) obstacles) ∧
  ((∀ o, o ∈ obstacles → related sourceId targetId (id o) = true) →
   computeArrowPath show s t sourceId targetId obstacles
   = orthogonalPath show (sx (connectionPoints s t)) (sy (connectionPoints s t))
       (tx (connectionPoints s t)) (ty (connectionPoints s t))).
Proof.
  assert (H1 : computeArrowPath show s t sourceId targetId obstacles
               = computeArrowPath show s t sourceId targetId
                   (List.filter
                      (λ o, negb (related sourceId targetId (id o)))
                      obstacles)).
  { unfold computeArrowPath. cbn zeta. by rewrite blocking_not_related. }
  split; [exact H1|]. intros Hall. rewrite H1.
  assert (Hnil : List.filter (λ o, negb (related sourceId targetId (id o)))
                   obstacles = []).
  { clear H1. induction obstacles as [|o l IH]; [done|]. cbn [List.filter].
    rewrite (Hall o) by set_solver. cbn [negb]. apply IH.
    intros o' Ho'. apply Hall. set_solver. }
  rewrite Hnil. reflexivity.
Qed.

End with_printer.

(** X13 on an arrow between two functions of sibling modules, with the
    boxes of the two modules, of their parent and of the two functions as
    obstacles. *)
Lemma related_obstacles_ignored_witness :
  computeArrowPath (λ _, "n") (Box 30 38 80 30 None) (Box 230 38 80 30 None)
    "root/b::bar" "root/a::foo"
    [Obstacle "root" 0 0 400 200; Obstacle "root/b" 0 0 140 118;
     Obstacle "root/a" 200 0 140 118; Obstacle "root/b::bar" 30 38 80 30;
     Obstacle "root/a::foo" 230 38 80 30]
  = orthogonalPath (λ _, "n")
      (sx (connectionPoints (Box 30 38 80 30 None) (Box 230 38 80 30 None)))
      (sy (connectionPoints (Box 30 38 80 30 None) (Box 230 38 80 30 None)))
      (tx (connectionPoints (Box 30 38 80 30 None) (Box 230 38 80 30 None)))
      (ty (connectionPoints (Box 30 38 80 30 None) (Box 230 38 80 30 None))).
Proof.
  apply (proj2 (related_obstacles_ignored (λ _, "n") _ _ _ _ _)).
  intros o Ho.
  repeat (apply elem_of_cons in Ho as [->|Ho]); [by vm_compute..|].
  by apply elem_of_nil in Ho.
Defined.

End RouterMore.

(** ** More on the layout: the room a box has, the row of its children *)

Module LayoutMore.
Import Layout LayoutFacts LayoutRows.
Local Open Scope Q_scope.

Lemma fold_max_ge {A} (g : A → Q) (l : list A) : ∀ a,
  a <= fold_left (λ acc f, Qmax acc (g f)) l a ∧
  ∀ f, f ∈ l → g f <= fold_left (λ acc f, Qmax acc (g f)) l a.
Proof.
  induction l as [|f0 l IH]; intros a; cbn [fold_left].
  - split; [lra|]. intros f Hf. by apply elem_of_nil in Hf.
  - destruct (IH (Qmax a (g f0))) as [Hle Hall].
    pose proof (Q.le_max_l a (g f0)). pose proof (Q.le_max_r a (g f0)).
    split; [lra|]. intros f Hf.
    apply elem_of_cons in Hf as [->|Hf]; [lra | by apply Hall].
Qed.

(** X14: the sizing pass makes every box at least 140 wide and 88 high,
    wide enough for the label of the module with its padding, and gives the
    function boxes (the width of the box less the padding on both sides) the
    room of every function name with its padding. *)
Theorem computeSize_fits (measureText : string → Q → Q) (n : node unit) :
  MIN_MOD_W + 2 * PAD <= w (ann (computeSize measureText n)) ∧
  HEADER_H + PAD_BOTTOM <= h (ann (computeSize measureText n)) ∧
  measureText (name n) LABEL_SIZE + 8 + 2 * PAD
  <= w (ann (computeSize measureText n)) ∧
  ∀ f, f ∈ functions n →
       measureText f FN_SIZE + 2 * FN_PAD_X
       <= w (ann (computeSize measureText n)) - 2 * PAD.
Proof.
  pose proof (computeSize_well_sized measureText n) as Hws.
  destruct n as [nm p d fs a cs]. cbn [computeSize] in *.
  cbn [ann w h name functions] in *.
  set (fnMaxW := fold_left
                   (λ acc f, Qmax acc (measureText f FN_SIZE + 2 * FN_PAD_X))
                   fs 0) in *.
  set (labelW := measureText nm LABEL_SIZE + 8) in *.
  match goal with
  | |- context [Qmax (Qmax (Qmax labelW fnMaxW) ?c) MIN_MOD_W] =>
      set (childrenW := c) in *
  end.
  pose proof (Q.le_max_r (Qmax (Qmax labelW fnMaxW) childrenW) MIN_MOD_W).
  pose proof (Q.le_max_l (Qmax (Qmax labelW fnMaxW) childrenW) MIN_MOD_W).
  pose proof (Q.le_max_l (Qmax labelW fnMaxW) childrenW).
  pose proof (Q.le_max_l labelW fnMaxW).
  pose proof (Q.le_max_r labelW fnMaxW).
  split; [lra|]. split.
  - inversion Hws as [? ? ? ? ? ? HfnA HsecG _ _ _ Hh _ _ _]; subst.
    cbn [_fnAreaH _secGap h] in *. consts. lra.
  - split; [unfold labelW in *; lra|]. intros f Hf.
    destruct (fold_max_ge (λ f, measureText f FN_SIZE + 2 * FN_PAD_X) fs 0)
      as [_ Hall].
    specialize (Hall f Hf). fold fnMaxW in Hall. lra.
Qed.

Lemma computePositions_eq nm p d fs s cs x0 y0 fb mb :
  (computePositions (Node nm p d fs s cs) x0 y0 fb mb).1.1
  = Node nm p d fs (Placed s x0 y0)
      (childLoop (λ c childX fb mb,
                    computePositions c childX
                      (y0 + HEADER_H + _fnAreaH s + _secGap s) fb mb)
                 cs (x0 + PAD)
                 (fnLoop p (x0 + PAD) (w s - 2 * PAD) fs (y0 + HEADER_H) fb)
                 (<[p := Box x0 y0 (w s) (h s) None]> mb)).1.1.
Proof.
  cbn [computePositions]. by destruct (childLoop _ cs _ _ _) as [[? ?] ?].
Qed.

Lemma computePositions_ann n x0 y0 fb mb :
  ann (computePositions n x0 y0 fb mb).1.1 = Placed (ann n) x0 y0.
Proof. destruct n. by rewrite computePositions_eq. Qed.

Lemma childLoop_row place Y cs :
  (∀ c X fb mb, ann (place c X fb mb).1.1 = Placed (ann c) X Y) →
  ∀ X fb mb,
    row_at (childLoop place cs X fb mb).1.1 X Y ∧
    Forall (λ c', ∃ c X' fb' mb', c ∈ cs ∧ c' = (place c X' fb' mb').1.1)
           (childLoop place cs X fb mb).1.1.
Proof.
  intros Hplace. induction cs as [|c cs IH]; intros X fb mb.
  - rewrite childLoop_nil. split; [done | constructor].
  - rewrite childLoop_cons. cbn [fst snd row_at].
    destruct (IH (X + w (ann c) + MOD_GAP) (place c X fb mb).1.2
                 (place c X fb mb).2) as [Hrow Hall].
    rewrite Hplace. cbn [x y sz]. split; [by repeat split|].
    constructor.
    + exists c, X, fb, mb. split; [set_solver | done].
    + eapply Forall_impl; [exact Hall|].
      intros c' (c0 & X' & fb' & mb' & Hc0 & ->).
      exists c0, X', fb', mb'. split; [set_solver | done].
Qed.

Lemma computePositions_tidy n :
  well_sized n →
  ∀ x0 y0 fb mb m,
    m ∈ subtrees (computePositions n x0 y0 fb mb).1.1 → tidy m.
Proof.
  induction n as [nm p d fs s cs IH] using node_ind'.
  intros Hws x0 y0 fb mb m Hm.
  inversion Hws as [? ? ? ? ? ? _ _ _ _ _ _ _ _ Hwss]; subst.
  rewrite computePositions_eq in Hm.
  set (place := λ c childX fb mb,
                  computePositions c childX
                    (y0 + HEADER_H + _fnAreaH s + _secGap s) fb mb) in *.
  destruct (childLoop_row place (y0 + HEADER_H + _fnAreaH s + _secGap s) cs
              (λ c X fb mb, computePositions_ann c X _ fb mb)
              (x0 + PAD)
              (fnLoop p (x0 + PAD) (w s - 2 * PAD) fs (y0 + HEADER_H) fb)
              (<[p := Box x0 y0 (w s) (h s) None]> mb)) as [Hrow Hall].
  apply elem_of_subtrees in Hm as [->|(c' & Hc' & Hm)].
  - split; cbn [childNodes ann x y sz]; [exact Hrow|].
    eapply Forall_impl; [exact Hall|].
    intros c' (c & X' & fb' & mb' & Hc & ->). unfold place.
    rewrite computePositions_ann. cbn [sz]. apply well_sized_width.
    rewrite Forall_forall in Hwss. by apply Hwss.
  - rewrite Forall_forall in Hall.
    destruct (Hall c' Hc') as (c & X' & fb' & mb' & Hc & ->).
    rewrite Forall_forall in IH, Hwss.
    eapply (IH c Hc); [by apply Hwss | exact Hm].
Qed.

Lemma row_reaches l2 : ∀ c2 l3 X Y,
  row_at (l2 ++ c2 :: l3) X Y → Forall (λ c, 0 <= w (sz (ann c))) l2 →
  X <= x (ann c2) ∧ y (ann c2) = Y.
Proof.
  induction l2 as [|c l2 IH]; intros c2 l3 X Y Hrow Hw; cbn [app row_at] in Hrow.
  - destruct Hrow as (-> & -> & _). split; [lra | done].
  - destruct Hrow as (_ & _ & Hrow). apply Forall_cons in Hw as [Hc Hw].
    destruct (IH _ _ _ _ Hrow Hw) as [Hle ->]. split; [|done].
    unfold MOD_GAP in Hle. lra.
Qed.

Lemma row_apart l1 : ∀ c1 l2 c2 l3 X Y,
  row_at (l1 ++ c1 :: l2 ++ c2 :: l3) X Y →
  Forall (λ c, 0 <= w (sz (ann c))) (l1 ++ c1 :: l2 ++ c2 :: l3) →
  x (ann c1) + w (sz (ann c1)) + MOD_GAP <= x (ann c2) ∧
  y (ann c1) = y (ann c2).
Proof.
  induction l1 as [|c l1 IH]; intros c1 l2 c2 l3 X Y Hrow Hw;
    cbn [app row_at] in Hrow.
  - destruct Hrow as (-> & -> & Hrow).
    apply Forall_cons in Hw as [_ Hw]. apply Forall_app in Hw as [Hw _].
    destruct (row_reaches _ _ _ _ _ Hrow Hw) as [Hle ->]. done.
  - destruct Hrow as (_ & _ & Hrow). cbn [app] in Hw.
    apply Forall_cons in Hw as [_ Hw]. by eapply IH.
Qed.

(** X15: in the tree the layout returns, the children of every node stand
    in one row: the first at the left padding of the node, every next one
    [MOD_GAP] to the right of the one before, all at the same ordinate below
    the header and the function rows.  Two children of a node are therefore
    at least [MOD_GAP] apart: their boxes never overlap. *)
Theorem siblings_in_a_row (measureText : string → Q → Q) (root : node unit) :
  ∀ m, m ∈ subtrees (layout measureText root).1.1 →
       row_at (childNodes m) (x (ann m) + PAD)
              (y (ann m) + HEADER_H + _fnAreaH (sz (ann m))
               + _secGap (sz (ann m))) ∧
       ∀ l1 c1 l2 c2 l3,
         childNodes m = l1 ++ c1 :: l2 ++ c2 :: l3 →
         x (ann c1) + w (sz (ann c1)) + MOD_GAP <= x (ann c2) ∧
         y (ann c1) = y (ann c2).
Proof.
  intros m Hm. unfold layout in Hm.
  apply computePositions_tidy in Hm as [Hrow Hw];
    [|apply computeSize_well_sized].
  split; [exact Hrow|]. intros l1 c1 l2 c2 l3 Hcs. rewrite Hcs in Hrow, Hw.
  by eapply row_apart.
Qed.

(** X15 on the tree of the scenario, at its root. *)
Lemma siblings_in_a_row_witness :
  (layout Router.sample_measure Router.sample_tree).1.1
  ∈ subtrees (layout Router.sample_measure Router.sample_tree).1.1 ∧
  row_at
    (childNodes (layout Router.sample_measure Router.sample_tree).1.1)
    (x (ann (layout Router.sample_measure Router.sample_tree).1.1) + PAD)
    (y (ann (layout Router.sample_measure Router.sample_tree).1.1) + HEADER_H
     + _fnAreaH (sz (ann (layout Router.sample_measure
                            Router.sample_tree).1.1))
     + _secGap (sz (ann (layout Router.sample_measure
                           Router.sample_tree).1.1))).
Proof.
  split; [apply subtrees_self|].
  exact (proj1 (siblings_in_a_row Router.sample_measure Router.sample_tree
                  _ (subtrees_self _))).
Defined.

End LayoutMore.

(** ** More on the parser: what the graph holds *)

Module ParserMore.
Import Parser ParserSpec ParserFacts.

Lemma enter_assoc (visit : dir → pstate → outcome pstate) name st l :
  enter visit name st l
  = match assoc name l with Some d' => visit d' st | None => Returns st end.
Proof.
  induction l as [|[n d'] l IH]; cbn [enter assoc]; [done|].
  by destruct (String.eqb n name).
Qed.

Lemma assoc_elem {V} k (l : list (string * V)) v :
  assoc k l = Some v → (k, v) ∈ l.
Proof.
  induction l as [|[k' v'] l IH]; cbn [assoc]; [done|].
  destruct (String.eqb_spec k' k) as [->|Hne].
  - intros [= ->]. apply list_elem_of_here.
  - intros H. apply list_elem_of_further. by apply IH.
Qed.

Section with_libraries.

Variable strip : string → string.
Variable finditer_mod : string → list (string * string).
Variable finditer_def : string → list (string * string).
Variable finditer_ref : string → list (string * string).
Variable path_child : string → string → string.
Variable normpath_join : string → string → string.

Local Abbreviation parse_module :=
  (Parser.parse_module strip finditer_mod finditer_def finditer_ref path_child
     normpath_join).
Local Abbreviation parse_speck_tree :=
  (Parser.parse_speck_tree strip finditer_mod finditer_def finditer_ref path_child
     normpath_join).
Local Abbreviation own_edges :=
  (Parser.own_edges finditer_def finditer_ref normpath_join).
Local Abbreviation parsed := (ParserSpec.parsed finditer_mod path_child).
Local Abbreviation is_entry := (ParserSpec.is_entry strip finditer_mod finditer_def).
Local Abbreviation adds :=
  (ParserSpec.adds strip finditer_mod finditer_def finditer_ref normpath_join).

Lemma adds_none (R : list string → string → string → Prop) mp depth st :
  (∀ names fd content, ¬ R names fd content) → adds R mp depth st st.
Proof.
  intros HR. split; [by left|]. split; [done|]. split.
  - intros names fd content H. by apply HR in H.
  - intros e. split; [by left|]. intros [?|(names & fd & content & H & _)];
      [done|]. by apply HR in H.
Qed.

Lemma adds_trans (R1 R2 R : list string → string → string → Prop)
    mp depth st st1 st2 :
  adds R1 mp depth st st1 → adds R2 mp depth st1 st2 →
  (∀ names fd content,
     R names fd content ↔ R1 names fd content ∨ R2 names fd content) →
  adds R mp depth st st2.
Proof.
  intros (Ha1 & Hb1 & Hc1 & Hd1) (Ha2 & Hb2 & Hc2 & Hd2) HR.
  split; [|split; [|split]].
  - intros p m Hm. apply Ha2 in Hm as [Hm|(names & fd & content & H & Hp & He)].
    + apply Ha1 in Hm as [Hm|(names & fd & content & H & Hp & He)];
        [by left|].
      right. exists names, fd, content. split; [apply HR; by left | done].
    + right. exists names, fd, content. split; [apply HR; by right | done].
  - intros p Hp. by apply Hb2, Hb1.
  - intros names fd content H. apply HR in H as [H|H].
    + eapply Hb2, Hc1, H.
    + eapply Hc2, H.
  - intros e. rewrite Hd2, Hd1. split.
    + intros [[?|(names & fd & content & H & He)]
             |(names & fd & content & H & He)]; [by left| |];
        right; exists names, fd, content; (split; [apply HR|done]); auto.
    + intros [?|(names & fd & content & H & He)]; [by left; left|].
      apply HR in H as [H|H]; [left; right | right]; eauto.
Qed.

Lemma adds_equiv (R R' : list string → string → string → Prop)
    mp depth st st' :
  adds R mp depth st st' →
  (∀ names fd content, R' names fd content ↔ R names fd content) →
  adds R' mp depth st st'.
Proof.
  intros H HR. eapply (adds_trans R (λ _ _ _, False)); [exact H| |].
  - apply adds_none. intros _ _ _ [].
  - intros names fd content. rewrite HR. tauto.
Qed.

Lemma adds_shift (R : list string → string → string → Prop)
    name mp depth st st' :
  adds R (mp +:+ "/" +:+ name) (S depth) st st' →
  adds (λ names fd content, ∃ rest, names = name :: rest ∧ R rest fd content)
       mp depth st st'.
Proof.
  intros (Ha & Hb & Hc & Hd). split; [|split; [|split]].
  - intros p m Hm. apply Ha in Hm as [Hm|(rest & fd & content & H & Hp & He)];
      [by left|].
    right. exists (name :: rest), fd, content. split; [by eauto|].
    split; [done|]. cbn [length].
    by replace (depth + S (length rest))%nat with (S depth + length rest)%nat
      by lia.
  - done.
  - intros names fd content (rest & -> & H). eapply Hc, H.
  - intros e. rewrite Hd. split.
    + intros [?|(rest & fd & content & H & He)]; [by left|].
      right. exists (name :: rest), fd, content. eauto.
    + intros [?|(names & fd & content & (rest & -> & H) & He)]; [by left|].
      right. exists rest, fd, content. eauto.
Qed.

Lemma adds_insert content sorted fd mp depth st :
  Sorter.sort_children (declared_children finditer_mod mp content)
    (declared_deps strip finditer_mod content) = Returns sorted →
  adds (λ names fd' content', names = [] ∧ fd' = fd ∧ content' = content)
       mp depth st
       (PState
          (<[mp := Module_ (last_segment mp) mp sorted
                           (map fst (finditer_def content)) depth]>
             (modules st))
          (function_edges st ++ own_edges fd mp content)).
Proof.
  intros Hsort. split; [|split; [|split]]; cbn [modules function_edges].
  - intros p m. destruct (decide (mp = p)) as [<-|Hne].
    + rewrite lookup_insert_eq. intros [= <-]. right.
      exists [], fd, content. split; [done|]. split; [done|].
      exists sorted. split; [done|]. cbn [length].
      by rewrite Nat.add_0_r.
    + rewrite lookup_insert_ne by done. by left.
  - intros p Hp. destruct (decide (mp = p)) as [<-|Hne].
    + rewrite lookup_insert_eq. eauto.
    + by rewrite lookup_insert_ne.
  - intros names fd' content' (-> & _ & _). cbn. rewrite lookup_insert_eq.
    eauto.
  - intros e. rewrite elem_of_app. split.
    + intros [?|He]; [by left|]. right. exists [], fd, content. done.
    + intros [?|(names & fd' & content' & (-> & -> & ->) & He)];
        [by left | by right].
Qed.

Lemma mods_loop_adds recurse
    (Rc : string → list string → string → string → Prop) mp depth ms :
  (∀ name group, (name, group) ∈ ms →
     ∀ st, ∃ st', recurse name (mp +:+ "/" +:+ name) st = Returns st' ∧
                  adds (Rc name) mp depth st st') →
  ∀ children child_deps st,
    ∃ st',
      mods_loop strip recurse mp ms children child_deps st
      = Returns (children ++ map (λ m, mp +:+ "/" +:+ m.1) ms,
                 fold_left (λ cd m, <[m.1 := parse_deps strip m.2]> cd) ms child_deps,
                 st') ∧
      adds (λ names fd content,
              ∃ name group, (name, group) ∈ ms ∧ Rc name names fd content)
           mp depth st st'.
Proof.
  induction ms as [|[name group] ms IH]; intros Hrec children child_deps st;
    cbn [mods_loop map fold_left].
  - exists st. rewrite app_nil_r. split; [done|]. apply adds_none.
    intros names fd content (n & g & H & _). by apply elem_of_nil in H.
  - destruct (Hrec name group (list_elem_of_here _ _) st) as (st1 & -> & H1).
    cbn [mbind outcome_bind obind].
    destruct (IH (λ n g Hn, Hrec n g (list_elem_of_further _ _ _ Hn))
                 (children ++ [mp +:+ "/" +:+ name])
                 (<[name := parse_deps strip group]> child_deps) st1)
      as (st' & -> & H2).
    exists st'. cbn [fst snd]. rewrite <- app_assoc. split; [done|].
    eapply adds_trans; [exact H1 | exact H2|].
    intros names fd content. split.
    + intros (n & g & Hn & H). apply elem_of_cons in Hn as [[= -> ->]|Hn];
        [by left | right; eauto].
    + intros [H|(n & g & Hn & H)].
      * exists name, group. split; [apply list_elem_of_here | done].
      * exists n, g. split; [by apply list_elem_of_further | done].
Qed.

Lemma parsed_inv fs subs fd fn names fd' content' :
  parsed (Dir fs subs) fd fn names fd' content' ↔
  ∃ content,
    assoc fn fs = Some content ∧
    ((names = [] ∧ fd' = fd ∧ content' = content) ∨
     ∃ name group d' rest,
       (name, group) ∈ finditer_mod content ∧ assoc name subs = Some d' ∧
       names = name :: rest ∧
       parsed d' (path_child fd name) (name +:+ ".speck") rest fd' content').
Proof.
  split.
  - inversion 1; subst.
    + eexists. split; [done|]. by left.
    + eexists. split; [done|]. right. eauto 10.
  - intros (content & Hfile & [(-> & -> & ->)
                              |(name & group & d' & rest & Hn & Hd & -> & H)]).
    + by constructor.
    + by econstructor.
Qed.

(** What a call of [parse_module] adds to the two accumulators. *)
Lemma parse_module_adds d : ∀ fd fn mp depth st,
  ∃ st', parse_module d fd fn mp depth st = Returns st' ∧
         adds (parsed d fd fn) mp depth st st'.
Proof.
  induction d as [fs subs IH] using dir_ind'.
  intros fd fn mp depth st. cbn [Parser.parse_module].
  destruct (assoc fn fs) as [content|] eqn:Hfile.
  - edestruct (mods_loop_adds
                 (λ name child_path st,
                    enter (λ d' st',
                             parse_module d' (path_child fd name)
                               (name +:+ ".speck") child_path (S depth) st')
                          name st subs)
                 (λ name names fd' content',
                    ∃ d' rest, names = name :: rest ∧
                               assoc name subs = Some d' ∧
                               parsed d' (path_child fd name)
                                 (name +:+ ".speck") rest fd' content')
                 mp depth (finditer_mod content)) as (st1 & -> & H1).
    { intros name group _ st0. rewrite enter_assoc.
      destruct (assoc name subs) as [d'|] eqn:Hd.
      - rewrite Forall_forall in IH.
        pose proof (IH (name, d') (assoc_elem _ _ _ Hd)) as IHd.
        cbn [snd] in IHd.
        destruct (IHd (path_child fd name) (name +:+ ".speck")
                      (mp +:+ "/" +:+ name) (S depth) st0)
          as (st' & -> & H).
        exists st'. split; [done|]. apply adds_shift in H.
        eapply adds_equiv; [exact H|]. intros names fd' content'. split.
        + intros (d0 & rest & -> & [= <-] & Hp). eauto.
        + intros (rest & -> & Hp). eauto.
      - exists st0. split; [done|]. apply adds_none.
        intros names fd' content' (d0 & rest & _ & ? & _). done. }
    cbn [mbind outcome_bind obind app]. rewrite defs_loop_spec.
    destruct (SorterTotal.sort_children_total
                (map (λ m, mp +:+ "/" +:+ m.1) (finditer_mod content))
                (fold_left (λ cd m, <[m.1 := parse_deps strip m.2]> cd)
                           (finditer_mod content) ∅)) as [sorted Hsort].
    rewrite Hsort. cbn [mbind outcome_bind obind app].
    eexists. split; [done|].
    eapply adds_trans; [exact H1 | by apply (adds_insert content sorted fd)|].
    intros names fd' content'. cbn beta. rewrite parsed_inv. split.
    + intros (c & Hc & Hcases). rewrite Hfile in Hc. injection Hc as <-.
      destruct Hcases as [?|(name & group & d' & rest & Hn & Hd & -> & Hp)];
        [by right|]. left. exists name, group. split; [done|]. eauto.
    + intros [(name & group & Hn & d' & rest & -> & Hd & Hp)|H].
      * exists content. split; [done|]. right. eauto 10.
      * exists content. split; [done|]. by left.
  - exists st. split; [done|]. apply adds_none.
    intros names fd' content'. rewrite parsed_inv.
    intros (c & ? & _). congruence.
Qed.

Lemma parse_speck_tree_adds root_dir root_dir_str root_name root_file_name :
  ∃ st,
    parse_speck_tree root_dir root_dir_str root_name root_file_name
    = Returns (Graph (modules st) (function_edges st)
                     (elements (mod_edge_set_of (function_edges st)))
                     root_name) ∧
    adds (parsed root_dir root_dir_str root_file_name) root_name 0
         (PState ∅ []) st.
Proof.
  unfold Parser.parse_speck_tree.
  destruct (parse_module_adds root_dir root_dir_str root_file_name root_name 0
              (PState ∅ [])) as (st & -> & H).
  by exists st.
Qed.

(** X16: the [modules] dictionary of the graph has an entry exactly for the
    modules reached from the root file through chains of module declarations
    whose files all exist.  The entry of such a module has the module path as
    [path], its last segment as [name], the length of the chain as [depth],
    the names of the functions its file declares as [functions], and as
    [children] what [sort_children] returns for the children and the
    dependencies its file declares. *)
Theorem parsed_modules root_dir root_dir_str root_name root_file_name :
  ∃ g, parse_speck_tree root_dir root_dir_str root_name root_file_name
       = Returns g ∧
       g_root g = root_name ∧
       (∀ p m, g_modules g !! p = Some m →
               ∃ names file_dir content,
                 parsed root_dir root_dir_str root_file_name names file_dir
                        content ∧
                 p = descend root_name names ∧
                 is_entry content p (length names) m) ∧
       (∀ names file_dir content,
          parsed root_dir root_dir_str root_file_name names file_dir content →
          is_Some (g_modules g !! descend root_name names)).
Proof.
  destruct (parse_speck_tree_adds root_dir root_dir_str root_name
              root_file_name) as (st & -> & Ha & _ & Hc & _).
  eexists. split; [done|]. cbn [g_root g_modules]. split; [done|]. split.
  - intros p m Hm. apply Ha in Hm as [Hm|H]; [|exact H].
    cbn [modules] in Hm. by rewrite lookup_empty in Hm.
  - exact Hc.
Qed.

(** X17: the [function_edges] of the graph are exactly the call references
    in the function bodies of the files reached from the root file, each from
    the function of the module that holds it to the path the reference
    resolves to from the directory of the file. *)
Theorem parsed_function_edges root_dir root_dir_str root_name root_file_name :
  ∃ g, parse_speck_tree root_dir root_dir_str root_name root_file_name
       = Returns g ∧
       ∀ e, e ∈ g_function_edges g ↔
            ∃ names file_dir content,
              parsed root_dir root_dir_str root_file_name names file_dir
                     content ∧
              e ∈ own_edges file_dir (descend root_name names) content.
Proof.
  destruct (parse_speck_tree_adds root_dir root_dir_str root_name
              root_file_name) as (st & -> & _ & _ & _ & Hd).
  eexists. split; [done|]. cbn [g_function_edges]. intros e. rewrite Hd.
  cbn [function_edges]. split; [|by right].
  intros [H|H]; [by apply elem_of_nil in H | done].
Qed.

Lemma graph_entries root_dir root_dir_str root_name root_file_name :
  ∃ g, parse_speck_tree root_dir root_dir_str root_name root_file_name
       = Returns g ∧
       (∀ p m, g_modules g !! p = Some m →
               path m = p ∧ name m = last_segment p ∧
               ∀ c, c ∈ children m → ∃ nm, c = p +:+ "/" +:+ nm) ∧
       (∀ e, e ∈ g_function_edges g →
             ∃ p fn m, e.1 = p +:+ "::" +:+ fn ∧
                       g_modules g !! p = Some m).
Proof.
  destruct (parse_speck_tree_adds root_dir root_dir_str root_name
              root_file_name) as (st & -> & Ha & _ & Hc & Hd).
  eexists. split; [done|]. cbn [g_modules g_function_edges]. split.
  - intros p m Hm. apply Ha in Hm as [Hm|(names & fd & content & _ & _ & He)].
    { cbn [modules] in Hm. by rewrite lookup_empty in Hm. }
    destruct He as (sorted & Hsort & ->). cbn [path name children].
    split; [done|]. split; [done|]. intros c Hc'.
    destruct (SorterMore.sort_children_elements
                (declared_children finditer_mod p content)
                (declared_deps strip finditer_mod content)) as (out & Hout & Helem).
    rewrite Hsort in Hout. injection Hout as <-. apply Helem in Hc'.
    unfold declared_children in Hc'.
    apply list_elem_of_In, in_map_iff in Hc' as ([nm g] & <- & _). eauto.
  - intros e He. apply Hd in He as [He|(names & fd & content & Hp & He)].
    { by apply elem_of_nil in He. }
    destruct (Hc names fd content Hp) as [m Hm].
    unfold Parser.own_edges in He.
    apply list_elem_of_In, in_concat in He as (l & Hl & He).
    apply in_map_iff in Hl as ([fn body] & <- & _).
    unfold Parser.body_edges in He.
    apply in_map_iff in He as ([ref_path ref_fn] & <- & _). cbn [fst snd].
    eauto.
Qed.

(** X18: in the graph, the key of every entry is its [path]; every child
    an entry lists is the path of the entry followed by a slash and a name
    its file declares; and every function edge starts at a function of a
    module that has an entry. *)
Theorem parsed_graph_well_formed root_dir root_dir_str root_name
    root_file_name :
  ∃ g, parse_speck_tree root_dir root_dir_str root_name root_file_name
       = Returns g ∧
       (∀ p m, g_modules g !! p = Some m →
               path m = p ∧ name m = last_segment p ∧
               ∀ c, c ∈ children m → ∃ nm, c = p +:+ "/" +:+ nm) ∧
       (∀ e, e ∈ g_function_edges g →
             ∃ p fn m, e.1 = p +:+ "::" +:+ fn ∧
                       g_modules g !! p = Some m).
Proof. apply graph_entries. Qed.

(** X19: when the root file does not exist, the parser returns the graph
    with no module and no edge, and [buildTree] fails on it. *)
Theorem missing_root_file root_dir root_dir_str root_name root_file_name :
  assoc root_file_name (files_of root_dir) = None →
  parse_speck_tree root_dir root_dir_str root_name root_file_name
  = Returns (Graph ∅ [] [] root_name) ∧
  ∀ fuel, Layout.buildTree (S fuel) (Graph ∅ [] [] root_name)
          = Raises TypeError.
Proof.
  intros Hfile. split.
  - unfold Parser.parse_speck_tree. destruct root_dir as [fs subs].
    cbn [files_of] in Hfile. cbn [Parser.parse_module]. rewrite Hfile.
    cbn [mbind outcome_bind obind modules function_edges].
    change (mod_edge_set_of []) with (∅ : gset (string * string)).
    by rewrite elements_empty.
  - intros fuel. unfold Layout.buildTree. cbn [Layout.build g_modules g_root].
    by rewrite lookup_empty.
Qed.

End with_libraries.

Lemma missing_root_file_witness :
  assoc "root.speck" (files_of (Dir [("notes.txt", "mod a {}")] [])) = None ∧
  Sample.parse (Dir [("notes.txt", "mod a {}")] [])
  = Returns (Graph ∅ [] [] "root").
Proof.
  assert (H : assoc "root.speck"
                (files_of (Dir [("notes.txt", "mod a {}")] [])) = None)
    by done.
  split; [exact H|].
  exact (proj1 (missing_root_file str_strip Sample.finditer_mod Sample.finditer_def
                  Sample.finditer_ref Sample.path_child Sample.normpath_join
                  _ "root" "root" "root.speck" H)).
Defined.

End ParserMore.

(** ** Dependency names and labels *)

Module TextFacts.
Import Parser Escape StringFacts.

Lemma drop_prefix_spec p : ∀ s r, drop_prefix p s = Some r ↔ s = p +:+ r.
Proof.
  induction p as [|a p IH]; intros s r.
  - cbn [drop_prefix]. rewrite append_nil_l. split; congruence.
  - rewrite append_cons. destruct s as [|b s]; cbn [drop_prefix]; [done|].
    destruct (Ascii.eqb a b) eqn:Hab.
    + apply Ascii.eqb_eq in Hab as ->. rewrite IH. split; congruence.
    + apply Ascii.eqb_neq in Hab. split; [done | congruence].
Qed.

Lemma after_any_Some table s r :
  after_any table s = Some r → ∃ w, w ∈ table ∧ s = w +:+ r.
Proof.
  induction table as [|w table IH]; cbn [after_any]; [done|].
  destruct (drop_prefix w s) as [r'|] eqn:Hw.
  - intros [= ->]. exists w. split; [left|]. by apply drop_prefix_spec.
  - intros (w' & ? & ?)%IH. exists w'. split; [by right | done].
Qed.

Lemma after_any_None table s :
  after_any table s = None ↔ ∀ w, w ∈ table → drop_prefix w s = None.
Proof.
  induction table as [|w table IH]; cbn [after_any].
  - split; [|done]. by intros _ w ?%elem_of_nil.
  - destruct (drop_prefix w s) as [r|] eqn:Hw.
    + split; [done|]. intros H. rewrite H in Hw; [done | left].
    + rewrite IH. split.
      * intros H w' [->|?]%elem_of_cons; auto.
      * intros H w' ?. apply H. by right.
Qed.

Lemma string_length_append s t :
  String.length (s +:+ t) = (String.length s + String.length t)%nat.
Proof.
  induction s as [|a s IH]; [by rewrite append_nil_l|].
  rewrite append_cons. cbn [String.length]. by rewrite IH.
Qed.

(** With enough fuel, what [lstrip_with] leaves begins with no character of
    the table. *)
Lemma lstrip_with_done table :
  (∀ w, w ∈ table → w ≠ "") →
  ∀ n s, (String.length s ≤ n)%nat →
         after_any table (lstrip_with table n s) = None.
Proof.
  intros Hne. induction n as [|n IH]; intros s Hlen.
  - destruct s; [|cbn [String.length] in Hlen; lia].
    cbn [lstrip_with]. apply after_any_None. intros w Hw.
    specialize (Hne w Hw). by destruct w.
  - cbn [lstrip_with]. destruct (after_any table s) as [r|] eqn:Hs; [|done].
    apply IH. apply after_any_Some in Hs as (w & Hw & ->).
    rewrite string_length_append in Hlen. specialize (Hne w Hw).
    destruct w; [done|]. cbn [String.length] in Hlen. lia.
Qed.

(** What [lstrip_with] leaves is the end of the text. *)
Lemma lstrip_with_suffix table : ∀ n s, ∃ p, s = p +:+ lstrip_with table n s.
Proof.
  induction n as [|n IH]; intros s.
  - exists "". by rewrite append_nil_l.
  - cbn [lstrip_with]. destruct (after_any table s) as [r|] eqn:Hs.
    + apply after_any_Some in Hs as (w & _ & ->).
      destruct (IH r) as [p Hp]. exists (w +:+ p).
      by rewrite append_assoc, <- Hp.
    + exists "". by rewrite append_nil_l.
Qed.

Lemma reverse_append s t : reverse (s +:+ t) = reverse t +:+ reverse s.
Proof.
  induction s as [|a s IH].
  - by rewrite append_nil_l, append_nil_r.
  - rewrite append_cons. cbn [reverse]. by rewrite IH, append_assoc.
Qed.

Lemma reverse_involutive s : reverse (reverse s) = s.
Proof.
  induction s as [|a s IH]; [done|]. cbn [reverse].
  rewrite reverse_append, IH. done.
Qed.

Lemma length_reverse s : String.length (reverse s) = String.length s.
Proof.
  induction s as [|a s IH]; [done|]. cbn [reverse String.length].
  rewrite string_length_append, IH. cbn [String.length]. lia.
Qed.

Lemma white_space_nonempty w : w ∈ white_space → w ≠ "".
Proof.
  intros Hw.
  assert (H : Forall (λ w, w ≠ "") white_space).
  { vm_compute. repeat constructor; done. }
  by apply (proj1 (Forall_forall _ _) H).
Qed.

Lemma reverse_white_space_nonempty w : w ∈ map reverse white_space → w ≠ "".
Proof.
  intros Hw.
  assert (H : Forall (λ w, w ≠ "") (map reverse white_space)).
  { vm_compute. repeat constructor; done. }
  by apply (proj1 (Forall_forall _ _) H).
Qed.

Lemma lstrip_begins s : begins_with_space (lstrip s) = false.
Proof.
  unfold begins_with_space, lstrip.
  by rewrite (lstrip_with_done white_space white_space_nonempty).
Qed.

Lemma rstrip_ends s : ends_with_space (rstrip s) = false.
Proof.
  unfold ends_with_space, rstrip. rewrite reverse_involutive.
  rewrite (lstrip_with_done _ reverse_white_space_nonempty); [done|].
  by rewrite length_reverse.
Qed.

(** [rstrip] leaves the beginning of the text. *)
Lemma rstrip_prefix s : ∃ q, s = rstrip s +:+ q.
Proof.
  unfold rstrip.
  destruct (lstrip_with_suffix (map reverse white_space) (String.length s)
              (reverse s)) as [p Hp].
  exists (reverse p).
  by rewrite <- reverse_append, <- Hp, reverse_involutive.
Qed.

Lemma rstrip_begins s :
  begins_with_space s = false → begins_with_space (rstrip s) = false.
Proof.
  unfold begins_with_space.
  destruct (after_any white_space s) eqn:Hs; [done|]. intros _.
  destruct (after_any white_space (rstrip s)) as [r|] eqn:Hr; [|done].
  apply after_any_Some in Hr as (w & Hw & Hr).
  destruct (rstrip_prefix s) as [q Hq]. rewrite Hr, append_assoc in Hq.
  apply drop_prefix_spec in Hq.
  rewrite (proj1 (after_any_None _ _) Hs w Hw) in Hq. done.
Qed.

(** X20: every dependency name [parse_module] reads between the braces of
    a module declaration is what [str.strip()] leaves of one of the pieces
    between the commas; it is not empty, and it neither begins nor ends with
    a white-space character, be it a space, a tabulation, a no-break space
    (U+00A0) or another one. *)
Theorem parse_deps_trimmed (group d : string) :
  d ∈ Parser.parse_deps str_strip group →
  d ≠ "" ∧
  begins_with_space d = false ∧
  ends_with_space d = false ∧
  ∃ piece, piece ∈ split "," group ∧ d = str_strip piece.
Proof.
  unfold Parser.parse_deps. intros Hd.
  apply list_elem_of_omap in Hd as (piece & Hpiece & Hd).
  case_decide as Hne; [done|]. injection Hd as <-.
  split; [done|]. unfold str_strip. split; [|split].
  - apply rstrip_begins, lstrip_begins.
  - apply rstrip_ends.
  - by exists piece.
Qed.

(** X20 on a group of two pieces, the first between a no-break space and a
    space, the second an em space (U+2003) alone. *)
Lemma parse_deps_trimmed_witness :
  Parser.parse_deps str_strip (utf8 160 +:+ "a ," +:+ utf8 8195) = ["a"] ∧
  "a" ≠ "" ∧
  begins_with_space "a" = false ∧
  ends_with_space "a" = false ∧
  ∃ piece, piece ∈ split "," (utf8 160 +:+ "a ," +:+ utf8 8195) ∧
           "a" = str_strip piece.
Proof.
  assert (H : Parser.parse_deps str_strip (utf8 160 +:+ "a ," +:+ utf8 8195)
              = ["a"]) by (by vm_compute).
  split; [exact H|].
  apply (parse_deps_trimmed (utf8 160 +:+ "a ," +:+ utf8 8195) "a").
  rewrite H. left.
Defined.

Lemma replace_char_app c r s t :
  replace_char c r (s +:+ t) = replace_char c r s +:+ replace_char c r t.
Proof.
  induction s as [|a s IH].
  - by rewrite !append_nil_l.
  - rewrite append_cons. cbn [replace_char]. rewrite IH.
    destruct (Ascii.eqb a c); [by rewrite append_assoc | by rewrite append_cons].
Qed.

Lemma esc_cons a s : esc (String a s) = entity a +:+ esc s.
Proof.
  unfold esc, entity. cbn [replace_char].
  destruct (Ascii.eqb a "&") eqn:H1.
  { rewrite !replace_char_app. reflexivity. }
  cbn [replace_char]. destruct (Ascii.eqb a "<") eqn:H2.
  { rewrite !replace_char_app. reflexivity. }
  cbn [replace_char]. destruct (Ascii.eqb a ">") eqn:H3; reflexivity.
Qed.

Lemma esc_entities s : esc s = entities s.
Proof.
  induction s as [|a s IH]; [done|]. by rewrite esc_cons, IH.
Qed.

Lemma list_ascii_app s t :
  list_ascii_of_string (s +:+ t)
  = list_ascii_of_string s ++ list_ascii_of_string t.
Proof.
  induction s as [|a s IH]; [by rewrite append_nil_l|].
  rewrite append_cons. cbn [list_ascii_of_string app]. by rewrite IH.
Qed.

Lemma entity_chars a c :
  c ∈ list_ascii_of_string (entity a) →
  c ≠ "<"%char ∧ c ≠ ">"%char.
Proof.
  unfold entity.
  destruct (Ascii.eqb a "&") eqn:H1;
    [|destruct (Ascii.eqb a "<") eqn:H2;
      [|destruct (Ascii.eqb a ">") eqn:H3]];
    cbn [list_ascii_of_string]; intros Hc;
    repeat (apply elem_of_cons in Hc as [->|Hc]);
    try (by apply elem_of_nil in Hc); try done.
  apply Ascii.eqb_neq in H2, H3. done.
Qed.

Lemma entity_inj a b x y :
  entity a +:+ x = entity b +:+ y → a = b ∧ x = y.
Proof.
  unfold entity.
  destruct (Ascii.eqb a "&") eqn:A1;
    [apply Ascii.eqb_eq in A1 as ->
    |destruct (Ascii.eqb a "<") eqn:A2;
     [apply Ascii.eqb_eq in A2 as ->
     |destruct (Ascii.eqb a ">") eqn:A3;
      [apply Ascii.eqb_eq in A3 as ->|]]];
    (destruct (Ascii.eqb b "&") eqn:B1;
     [apply Ascii.eqb_eq in B1 as ->
     |destruct (Ascii.eqb b "<") eqn:B2;
      [apply Ascii.eqb_eq in B2 as ->
      |destruct (Ascii.eqb b ">") eqn:B3;
       [apply Ascii.eqb_eq in B3 as ->|]]]);
    rewrite ?append_cons, ?append_nil_l; intros H;
    try discriminate H; try (by injection H);
    try (injection H as -> _; discriminate);
    try (injection H as <- _; discriminate).
Qed.

(** X21: [esc] replaces every character by its entity in one pass: an
    ampersand the second or the third replacement writes is not escaped
    again; and the text it returns holds no angle bracket. *)
Theorem esc_one_pass (s : string) :
  esc s = entities s ∧
  ("<"%char ∉ list_ascii_of_string (esc s)) ∧
  (">"%char ∉ list_ascii_of_string (esc s)).
Proof.
  split; [apply esc_entities|]. rewrite esc_entities.
  assert (G : ∀ c, c ∈ list_ascii_of_string (entities s) →
                   c ≠ "<"%char ∧ c ≠ ">"%char).
  { induction s as [|a s IH]; intros c Hc; cbn [entities] in Hc.
    - by apply elem_of_nil in Hc.
    - rewrite list_ascii_app in Hc.
      apply elem_of_app in Hc as [Hc|Hc]; [by eapply entity_chars | by apply IH]. }
  split; intros H; by apply G in H as [? ?].
Qed.

(** X22: [esc] loses nothing: two texts with the same escaped form are the
    same text. *)
Theorem esc_injective (s t : string) : esc s = esc t → s = t.
Proof.
  rewrite !esc_entities. revert t.
  induction s as [|a s IH]; intros [|b t]; cbn [entities].
  - done.
  - intros H. exfalso. unfold entity in H.
    destruct (Ascii.eqb b "&"), (Ascii.eqb b "<"), (Ascii.eqb b ">");
      rewrite ?append_cons in H; discriminate H.
  - intros H. exfalso. unfold entity in H.
    destruct (Ascii.eqb a "&"), (Ascii.eqb a "<"), (Ascii.eqb a ">");
      rewrite ?append_cons in H; discriminate H.
  - intros H. apply entity_inj in H as [-> H]. by rewrite (IH t H).
Qed.

Lemma esc_injective_witness :
  esc "a<b" = esc "a<b" ∧ "a<b" = "a<b".
Proof.
  assert (H : esc "a<b" = esc "a<b") by reflexivity.
  split; [exact H | exact (esc_injective "a<b" "a<b" H)].
Defined.

End TextFacts.

(** ** The tree of the client on the graph of the parser *)

Module BuildFacts.
Import Parser ParserSpec ParserFacts ParserMore BuildSpec StringFacts.

Lemma mapM_Returns {A B} (f : A → outcome B) l : ∀ bs,
  mapM f l = Returns bs → ∀ a, a ∈ l → ∃ b, f a = Returns b.
Proof.
  induction l as [|a l IH]; intros bs H x Hx; [by apply elem_of_nil in Hx|].
  cbn [mapM] in H. destruct (f a) as [b| |] eqn:Hf; [|done..].
  cbn [mbind outcome_bind obind] in H.
  destruct (mapM f l) as [bs'| |] eqn:Hm; [|done..].
  apply elem_of_cons in Hx as [->|Hx]; [by eauto | by eapply IH].
Qed.

Lemma mapM_Raises {A B} (f : A → outcome B) l e :
  mapM f l = Raises e → ∃ a, a ∈ l ∧ f a = Raises e.
Proof.
  induction l as [|a l IH]; intros H; [done|].
  cbn [mapM] in H. destruct (f a) as [b| |] eqn:Hf.
  - cbn [mbind outcome_bind obind] in H.
    destruct (mapM f l) as [bs'| |] eqn:Hm; [done| |done].
    injection H as ->. destruct IH as (x & Hx & Hfx); [done|].
    exists x. split; [by apply list_elem_of_further | done].
  - injection H as ->. exists a. split; [apply list_elem_of_here | done].
  - done.
Qed.

Lemma mapM_fuel {A B} (f : A → outcome B) l :
  (∀ a, a ∈ l → f a ≠ OutOfFuel) → mapM f l ≠ OutOfFuel.
Proof.
  induction l as [|a l IH]; intros H; [done|]. cbn [mapM].
  destruct (f a) as [b| |] eqn:Hf; [|done|].
  - cbn [mbind outcome_bind obind].
    destruct (mapM f l) as [bs'| |] eqn:Hm; [done..|].
    destruct IH; [|done]. intros x Hx. apply H. by apply list_elem_of_further.
  - destruct (H a); [apply list_elem_of_here | done].
Qed.

Lemma build_Returns mods fuel : ∀ k t,
  Layout.build fuel mods k = Returns t →
  ∀ k', reachable mods k k' → is_Some (mods !! k').
Proof.
  induction fuel as [|fuel IH]; intros k t H k' Hr; [done|].
  cbn [Layout.build] in H. destruct (mods !! k) as [md|] eqn:Hk; [|done].
  destruct (mapM (Layout.build fuel mods) (children md)) as [cs| |] eqn:Hm;
    [|done..].
  inversion Hr as [|? md' c ? Hk' Hc Hr']; subst; [by rewrite Hk|].
  rewrite Hk in Hk'. injection Hk' as <-.
  destruct (mapM_Returns _ _ _ Hm c Hc) as [t' Ht']. by eapply IH.
Qed.

Lemma build_Raises mods fuel : ∀ k e,
  Layout.build fuel mods k = Raises e →
  e = TypeError ∧ ∃ k', reachable mods k k' ∧ mods !! k' = None.
Proof.
  induction fuel as [|fuel IH]; intros k e H; [done|].
  cbn [Layout.build] in H. destruct (mods !! k) as [md|] eqn:Hk.
  - destruct (mapM (Layout.build fuel mods) (children md)) as [cs| |] eqn:Hm;
      [done| |done].
    cbn [mbind outcome_bind obind] in H. injection H as ->.
    apply mapM_Raises in Hm as (c & Hc & Hbc).
    destruct (IH c e Hbc) as (-> & k' & Hr & Hnone).
    split; [done|]. exists k'. split; [by eapply reachable_child | done].
  - injection H as <-. split; [done|]. exists k. split; [constructor | done].
Qed.

Lemma build_fuel mods N :
  (∀ k, is_Some (mods !! k) → (String.length k < N)%nat) →
  (∀ k md c, mods !! k = Some md → c ∈ children md →
             (String.length k < String.length c)%nat) →
  ∀ fuel k,
    (1 ≤ fuel)%nat →
    (is_Some (mods !! k) → (N < fuel + String.length k)%nat) →
    Layout.build fuel mods k ≠ OutOfFuel.
Proof.
  intros HN Hlen. induction fuel as [|fuel IH]; intros k Hpos Hk; [lia|].
  cbn [Layout.build]. destruct (mods !! k) as [md|] eqn:Hmd; [|done].
  pose proof (HN k ltac:(by rewrite Hmd)) as HkN.
  specialize (Hk ltac:(by eauto)).
  destruct (mapM (Layout.build fuel mods) (children md)) as [cs| |] eqn:Hm;
    [done..|].
  exfalso. revert Hm. apply mapM_fuel. intros c Hc. apply IH; [lia|].
  intros _. pose proof (Hlen k md c Hmd Hc). lia.
Qed.

Lemma reachable_snoc mods k k1 md c :
  reachable mods k k1 → mods !! k1 = Some md → c ∈ children md →
  reachable mods k c.
Proof.
  induction 1 as [k|k md0 c0 k1 Hk Hc0 _ IH]; intros Hmd Hc.
  - eapply reachable_child; [exact Hmd | exact Hc | constructor].
  - eapply reachable_child; [exact Hk | exact Hc0 | by apply IH].
Qed.

Lemma reachable_last mods k k' :
  reachable mods k k' →
  k' = k ∨ ∃ k1 md, mods !! k1 = Some md ∧ k' ∈ children md.
Proof.
  induction 1 as [k|k md c k' Hk Hc _ [->|IH]]; [by left | |by right].
  right. eauto.
Qed.

Lemma keys_bounded {V} (m : gmap string V) :
  ∃ N, ∀ k, is_Some (m !! k) → (String.length k < N)%nat.
Proof.
  induction m as [|i x m Hi IH] using map_ind.
  - exists 0%nat. intros k [? Hk]. by rewrite lookup_empty in Hk.
  - destruct IH as [N HN]. exists (N + S (String.length i))%nat.
    intros k Hk. destruct (decide (i = k)) as [<-|Hne]; [lia|].
    rewrite lookup_insert_ne in Hk by done. specialize (HN k Hk). lia.
Qed.

Lemma string_length_app s t :
  String.length (s +:+ t) = (String.length s + String.length t)%nat.
Proof.
  induction s as [|a s IH]; [by rewrite append_nil_l|].
  rewrite append_cons. cbn [String.length]. by rewrite IH.
Qed.

Lemma descend_snoc mp names name :
  descend mp (names ++ [name]) = descend mp names +:+ "/" +:+ name.
Proof. unfold descend. by rewrite fold_left_app. Qed.

Lemma descend_split names : ∀ mp,
  Forall (λ n, slashfree n = true) names →
  split "/" (descend mp names) = split "/" mp ++ names.
Proof.
  induction names as [|n names IH]; intros mp Hn.
  - by rewrite app_nil_r.
  - apply Forall_cons in Hn as [Hn Hns].
    change (descend mp (n :: names))
      with (descend (mp +:+ "/" +:+ n) names).
    rewrite IH, VisibilityMore.split_app_path,
      (VisibilityMore.split_segment n), <- app_assoc by done.
    done.
Qed.

Lemma descend_inj mp l1 l2 :
  Forall (λ n, slashfree n = true) l1 →
  Forall (λ n, slashfree n = true) l2 →
  descend mp l1 = descend mp l2 → l1 = l2.
Proof.
  intros H1 H2 H. apply (f_equal (split "/")) in H.
  rewrite !descend_split in H by done. by apply app_inv_head in H.
Qed.

Section with_libraries.

Variable strip : string → string.
Variable finditer_mod : string → list (string * string).
Variable finditer_def : string → list (string * string).
Variable finditer_ref : string → list (string * string).
Variable path_child : string → string → string.
Variable normpath_join : string → string → string.

Local Abbreviation parse_speck_tree :=
  (Parser.parse_speck_tree strip finditer_mod finditer_def finditer_ref path_child
     normpath_join).
Local Abbreviation parsed := (ParserSpec.parsed finditer_mod path_child).
Local Abbreviation is_entry := (ParserSpec.is_entry strip finditer_mod finditer_def).

Lemma parsed_functional d fd fn names fd1 c1 :
  parsed d fd fn names fd1 c1 →
  ∀ fd2 c2, parsed d fd fn names fd2 c2 → fd1 = fd2 ∧ c1 = c2.
Proof.
  induction 1 as [fs subs fd fn content Hfile
                 |fs subs fd fn content name group d' names fd' content'
                    Hfile Hn Hd _ IH]; intros fd2 c2 H2.
  - inversion H2; subst. split; [done | congruence].
  - inversion H2 as [|? ? ? ? ? ? ? d2 ? ? ? ? ? Hd2 Hp2]; subst.
    apply IH. rewrite Hd in Hd2. by injection Hd2 as <-.
Qed.

Lemma parsed_prefix names : ∀ d fd fn name fd' c',
  parsed d fd fn (names ++ [name]) fd' c' →
  ∃ fd0 c0 group, parsed d fd fn names fd0 c0 ∧
                  (name, group) ∈ finditer_mod c0.
Proof.
  induction names as [|n names IH]; intros d fd fn name fd' c' H;
    cbn [app] in H.
  - inversion H as [|fs subs ? ? content ? group d' ? ? ? Hfile Hn Hd Hp];
      subst.
    exists fd, content, group. split; [by constructor | done].
  - inversion H as [|fs subs ? ? content ? group d' ? ? ? Hfile Hn Hd Hp];
      subst.
    destruct (IH _ _ _ _ _ _ Hp) as (fd0 & c0 & g0 & Hp0 & Hn0).
    exists fd0, c0, g0. split; [by econstructor | done].
Qed.

Section slashfree_names.

(** The pattern of module declarations takes the name from word
    characters: a name holds no slash. *)
Hypothesis names_slashfree :
  ∀ content m, m ∈ finditer_mod content → slashfree m.1 = true.

Lemma parsed_slashfree d fd fn names fd' c' :
  parsed d fd fn names fd' c' → Forall (λ n, slashfree n = true) names.
Proof.
  induction 1 as [|fs subs fd fn content name group d' names fd' content'
                    Hfile Hn Hd _ IH]; [constructor|].
  constructor; [|done]. exact (names_slashfree content (name, group) Hn).
Qed.

(** X23: [buildTree] fails on the graph of the parser exactly when the
    root file does not exist or a file that is reached declares a module
    whose file does not exist; in every other case it returns a tree. *)
Theorem buildTree_needs_every_file root_dir root_dir_str root_name
    root_file_name :
  ∃ g fuel0,
    parse_speck_tree root_dir root_dir_str root_name root_file_name
    = Returns g ∧
    ∀ fuel, (fuel0 ≤ fuel)%nat →
      (Layout.buildTree fuel g = Raises TypeError ↔
       assoc root_file_name (files_of root_dir) = None ∨
       ∃ names file_dir content name group,
         parsed root_dir root_dir_str root_file_name names file_dir content ∧
         (name, group) ∈ finditer_mod content ∧
         ∀ file_dir' content',
           ¬ parsed root_dir root_dir_str root_file_name (names ++ [name])
               file_dir' content') ∧
      (Layout.buildTree fuel g ≠ Raises TypeError →
       ∃ t, Layout.buildTree fuel g = Returns t).
Proof.
  destruct (parse_speck_tree_adds strip finditer_mod finditer_def finditer_ref
              path_child normpath_join root_dir root_dir_str root_name
              root_file_name) as (st & Hparse & Ha & _ & Hc & _).
  set (mods := modules st) in *.
  assert (F1 : ∀ p m, mods !! p = Some m →
             ∃ names fd content,
               parsed root_dir root_dir_str root_file_name names fd content ∧
               p = descend root_name names ∧
               is_entry content p (length names) m).
  { intros p m Hm. apply Ha in Hm as [Hm|H]; [|exact H].
    cbn [modules] in Hm. by rewrite lookup_empty in Hm. }
  assert (Fsorted : ∀ content p depth m c,
             is_entry content p depth m →
             c ∈ children m ↔ c ∈ declared_children finditer_mod p content).
  { intros content p depth m c (sorted & Hsort & ->). cbn [children].
    destruct (SorterMore.sort_children_elements
                (declared_children finditer_mod p content)
                (declared_deps strip finditer_mod content)) as (out & Hout & Helem).
    rewrite Hsort in Hout. injection Hout as <-. apply Helem. }
  assert (F3 : ∀ names fd c0 m c,
             parsed root_dir root_dir_str root_file_name names fd c0 →
             mods !! descend root_name names = Some m →
             c ∈ children m
             ↔ c ∈ declared_children finditer_mod (descend root_name names)
                   c0).
  { intros names fd c0 m c Hp Hm.
    destruct (F1 _ _ Hm) as (names' & fd' & c' & Hp' & Heq & He).
    apply descend_inj in Heq; [|by eapply parsed_slashfree..]. subst names'.
    destruct (parsed_functional _ _ _ _ _ _ Hp _ _ Hp') as [_ ->].
    by eapply Fsorted. }
  assert (Fchild : ∀ names fd c0 name group,
             parsed root_dir root_dir_str root_file_name names fd c0 →
             (name, group) ∈ finditer_mod c0 →
             ∃ m, mods !! descend root_name names = Some m ∧
                  descend root_name (names ++ [name]) ∈ children m).
  { intros names fd c0 name group Hp Hn.
    destruct (Hc names fd c0 Hp) as [m Hm]. exists m. split; [done|].
    apply (F3 names fd c0 m _ Hp Hm). rewrite descend_snoc.
    unfold declared_children. apply list_elem_of_In, in_map_iff.
    exists (name, group). split; [done | by apply list_elem_of_In]. }
  assert (F4 : ∀ names fd c0,
             parsed root_dir root_dir_str root_file_name names fd c0 →
             reachable mods root_name (descend root_name names)).
  { induction names as [|n names IH] using rev_ind; intros fd c0 Hp.
    - constructor.
    - destruct (parsed_prefix _ _ _ _ _ _ _ Hp) as (fd0 & c00 & g & Hp0 & Hn).
      destruct (Fchild names fd0 c00 n g Hp0 Hn) as (m & Hm & Hin).
      eapply reachable_snoc; [by eapply IH | exact Hm | exact Hin]. }
  destruct (keys_bounded mods) as [N HN].
  assert (Hlen : ∀ k md c, mods !! k = Some md → c ∈ children md →
                           (String.length k < String.length c)%nat).
  { intros k md c Hk Hcm.
    destruct (F1 _ _ Hk) as (names & fd & content & _ & _ & He).
    apply (Fsorted _ _ _ _ c He) in Hcm. unfold declared_children in Hcm.
    apply list_elem_of_In, in_map_iff in Hcm as ([nm g] & <- & _).
    rewrite !string_length_app. cbn. lia. }
  exists (Graph (modules st) (function_edges st)
                (elements (mod_edge_set_of (function_edges st))) root_name),
         (S N).
  split; [exact Hparse|]. intros fuel Hfuel.
  unfold Layout.buildTree. cbn [g_modules g_root]. fold mods.
  assert (Hrun : Layout.build fuel mods root_name ≠ OutOfFuel).
  { apply (build_fuel mods N HN Hlen); lia. }
  split; [split|].
  - intros Hraise. apply build_Raises in Hraise as (_ & k' & Hr & Hnone).
    apply reachable_last in Hr as [->|(k1 & md & Hk1 & Hin)].
    + left. destruct root_dir as [fs subs]. cbn [files_of].
      destruct (assoc root_file_name fs) as [content|] eqn:Hfile; [|done].
      destruct (Hc [] root_dir_str content) as [m Hm]; [by constructor|].
      cbn in Hm. fold mods in Hm. congruence.
    + right. destruct (F1 _ _ Hk1) as (names & fd & content & Hp & -> & He).
      apply (Fsorted _ _ _ _ k' He) in Hin. unfold declared_children in Hin.
      apply list_elem_of_In, in_map_iff in Hin as ([nm g] & <- & Hn).
      apply list_elem_of_In in Hn.
      exists names, fd, content, nm, g. split; [done|]. split; [done|].
      intros fd' c' Hp'. destruct (Hc _ _ _ Hp') as [m' Hm'].
      rewrite descend_snoc in Hm'. cbn [fst] in Hnone. fold mods in Hm'.
      congruence.
  - intros Hmissing.
    assert (Hgap : ∃ k', reachable mods root_name k' ∧ mods !! k' = None).
    { destruct Hmissing as [Hfile|(names & fd & content & nm & g & Hp & Hn & Hno)].
      - exists root_name. split; [constructor|].
        destruct (mods !! root_name) as [m|] eqn:Hm; [|done].
        destruct (F1 _ _ Hm) as (names & fd & content & Hp & _).
        destruct root_dir as [fs subs]. cbn [files_of] in Hfile.
        apply ParserMore.parsed_inv in Hp as (c & Hc' & _). congruence.
      - destruct (Fchild names fd content nm g Hp Hn) as (m & Hm & Hin).
        exists (descend root_name (names ++ [nm])). split.
        + eapply reachable_snoc; [by eapply F4 | exact Hm | exact Hin].
        + destruct (mods !! descend root_name (names ++ [nm])) as [m'|] eqn:Hm';
            [|done].
          destruct (F1 _ _ Hm') as (names' & fd' & c' & Hp' & Heq & _).
          apply descend_inj in Heq.
          * subst names'. by apply Hno in Hp'.
          * apply Forall_app. split; [by eapply parsed_slashfree|].
            constructor; [|constructor].
            exact (names_slashfree content (nm, g) Hn).
          * by eapply parsed_slashfree. }
    destruct Hgap as (k' & Hr & Hnone).
    destruct (Layout.build fuel mods root_name) as [t|e|] eqn:Hb; [| |done].
    + pose proof (build_Returns _ _ _ _ Hb k' Hr) as [? Hsome]. congruence.
    + by apply build_Raises in Hb as [-> _].
  - intros Hne.
    destruct (Layout.build fuel mods root_name) as [t|e|] eqn:Hb.
    + by eauto.
    + apply build_Raises in Hb as [-> _]. done.
    + done.
Qed.

Lemma descend_join l : ∀ mp, descend mp l = join "/" (mp :: l).
Proof.
  induction l as [|n l IH]; intros mp; [done|].
  change (descend mp (n :: l)) with (descend (mp +:+ "/" +:+ n) l).
  rewrite IH. rewrite (join_cons "/" mp (n :: l)) by done.
  destruct l as [|n' l]; [done|].
  rewrite !join_cons by done. by rewrite !append_assoc.
Qed.

Lemma parsed_take d fd fn names : ∀ fd' c',
  parsed d fd fn names fd' c' →
  ∀ j, ∃ fd0 c0, parsed d fd fn (take j names) fd0 c0.
Proof.
  induction names as [|n names IH] using rev_ind; intros fd' c' Hp j.
  - rewrite take_nil. eauto.
  - destruct (parsed_prefix _ _ _ _ _ _ _ Hp) as (fd0 & c0 & g & Hp0 & _).
    destruct (decide (j ≤ length names)%nat) as [Hj|Hj].
    + rewrite take_app_le by done. by eapply IH.
    + rewrite take_ge by (rewrite length_app; simpl; lia). eauto.
Qed.

(** X28: after Expand All the box of every module of the graph is visible:
    the modules above a module that has an entry have entries too, so all of
    them are in the Expanded-Set. *)
Theorem expand_all_shows_every_module root_dir root_dir_str root_name
    root_file_name :
  slashfree root_name = true →
  ∃ g, parse_speck_tree root_dir root_dir_str root_name root_file_name
       = Returns g ∧
       ∀ module_paths (E : gset string) p,
         (∀ k, k ∈ module_paths ↔ is_Some (g_modules g !! k)) →
         is_Some (g_modules g !! p) →
         Visibility.isModVisible (Visibility.expand_all module_paths E) p
         = true.
Proof.
  intros Hroot.
  destruct (parse_speck_tree_adds strip finditer_mod finditer_def finditer_ref
              path_child normpath_join root_dir root_dir_str root_name
              root_file_name) as (st & Hparse & Ha & _ & Hc & _).
  eexists. split; [exact Hparse|]. cbn [g_modules].
  intros module_paths E p Hkeys [m Hm].
  apply Ha in Hm as [Hm|(names & fd & content & Hp & -> & _)].
  { cbn [modules] in Hm. by rewrite lookup_empty in Hm. }
  rewrite VisibilityFacts.isModVisible_spec, VisibilityFacts.forallb_expanded.
  intros a Ha'. unfold Visibility.strict_ancestors in Ha'.
  pose proof (parsed_slashfree _ _ _ _ _ _ Hp) as Hfree.
  rewrite descend_split, (VisibilityMore.split_segment root_name) in Ha'
    by done.
  apply VisibilityFacts.elem_of_prefix_paths in Ha' as (k & Hk & ->).
  destruct k as [|k]; [lia|]. cbn [app take].
  rewrite <- descend_join.
  destruct (parsed_take _ _ _ _ _ _ Hp k) as (fd0 & c0 & Hp0).
  unfold Visibility.expand_all.
  apply (VisibilityMore.elem_of_fold_add (λ _, true)). right.
  split; [|done]. apply Hkeys. by eapply Hc.
Qed.

End slashfree_names.

End with_libraries.

(** X23 on a root file that declares [mod a] while [a/a.speck] does not
    exist. *)
Lemma buildTree_needs_every_file_witness :
  (∀ content m, m ∈ Sample.finditer_mod content → slashfree m.1 = true) ∧
  ∃ g fuel0,
    Sample.parse Sample.root_with_missing_child = Returns g ∧
    ∀ fuel, (fuel0 ≤ fuel)%nat →
      (Layout.buildTree fuel g = Raises TypeError ↔
       assoc "root.speck" (files_of Sample.root_with_missing_child) = None ∨
       ∃ names file_dir content name group,
         ParserSpec.parsed Sample.finditer_mod Sample.path_child
           Sample.root_with_missing_child "root" "root.speck" names file_dir
           content ∧
         (name, group) ∈ Sample.finditer_mod content ∧
         ∀ file_dir' content',
           ¬ ParserSpec.parsed Sample.finditer_mod Sample.path_child
               Sample.root_with_missing_child "root" "root.speck"
               (names ++ [name]) file_dir' content') ∧
      (Layout.buildTree fuel g ≠ Raises TypeError →
       ∃ t, Layout.buildTree fuel g = Returns t).
Proof.
  assert (H : ∀ content m,
            m ∈ Sample.finditer_mod content → slashfree m.1 = true).
  { intros content m. unfold Sample.finditer_mod. case_decide.
    - intros Hm. by apply list_elem_of_singleton in Hm as ->.
    - intros Hm. by apply elem_of_nil in Hm. }
  split; [exact H|].
  exact (buildTree_needs_every_file str_strip Sample.finditer_mod Sample.finditer_def
           Sample.finditer_ref Sample.path_child Sample.normpath_join H
           Sample.root_with_missing_child "root" "root" "root.speck").
Defined.

(** X28 on a root file without module declarations. *)
Lemma expand_all_shows_every_module_witness :
  (∀ content m, m ∈ Sample.finditer_mod content → slashfree m.1 = true) ∧
  slashfree "root" = true ∧
  ∃ g, Sample.parse Sample.root_with_self_call = Returns g ∧
       ∀ module_paths (E : gset string) p,
         (∀ k, k ∈ module_paths ↔ is_Some (g_modules g !! k)) →
         is_Some (g_modules g !! p) →
         Visibility.isModVisible (Visibility.expand_all module_paths E) p
         = true.
Proof.
  assert (H : ∀ content m,
            m ∈ Sample.finditer_mod content → slashfree m.1 = true).
  { intros content m. unfold Sample.finditer_mod. case_decide.
    - intros Hm. by apply list_elem_of_singleton in Hm as ->.
    - intros Hm. by apply elem_of_nil in Hm. }
  assert (Hroot : slashfree "root" = true) by done.
  split; [exact H|]. split; [exact Hroot|].
  exact (expand_all_shows_every_module str_strip Sample.finditer_mod Sample.finditer_def
           Sample.finditer_ref Sample.path_child Sample.normpath_join H
           Sample.root_with_self_call "root" "root" "root.speck" Hroot).
Defined.

End BuildFacts.

(** ** The boxes the router reads *)

Module LayoutBoxes.
Import Layout LayoutFacts LayoutRows LayoutMore.
Local Open Scope Q_scope.

Lemma paths_concat {A B} (f : node A → node B) cs :
  Forall (λ c, map path (subtrees (f c)) = map path (subtrees c)) cs →
  map path (concat (map subtrees (map f cs)))
  = map path (concat (map subtrees cs)).
Proof.
  induction 1 as [|c cs Hc _ IH]; [done|]. cbn [map concat].
  by rewrite !map_app, Hc, IH.
Qed.

Lemma paths_computeSize measureText n :
  map path (subtrees (computeSize measureText n)) = map path (subtrees n).
Proof.
  induction n as [nm p d fs a cs IH] using node_ind'.
  cbn [computeSize subtrees map path]. f_equal. by apply paths_concat.
Qed.

Lemma paths_childLoop place (cs : list (node size)) :
  Forall (λ c, ∀ X fb mb,
            map path (subtrees (place c X fb mb).1.1) = map path (subtrees c))
         cs →
  ∀ X fb mb,
    map path (concat (map subtrees (childLoop place cs X fb mb).1.1))
    = map path (concat (map subtrees cs)).
Proof.
  induction 1 as [|c cs Hc _ IH]; intros X fb mb; [done|].
  rewrite childLoop_cons. cbn [fst snd map concat].
  by rewrite !map_app, Hc, IH.
Qed.

Lemma paths_computePositions n : ∀ x0 y0 fb mb,
  map path (subtrees (computePositions n x0 y0 fb mb).1.1)
  = map path (subtrees n).
Proof.
  induction n as [nm p d fs s cs IH] using node_ind'.
  intros x0 y0 fb mb. rewrite computePositions_eq.
  cbn [subtrees map path]. f_equal. apply paths_childLoop.
  eapply Forall_impl; [exact IH|]. intros c Hc X fb' mb'. apply Hc.
Qed.

Lemma NoDup_map_eq {A B} (f : A → B) (l : list A) x y :
  NoDup (map f l) → x ∈ l → y ∈ l → f x = f y → x = y.
Proof.
  induction l as [|a l IH]; intros Hnd Hx Hy Hf; [by apply elem_of_nil in Hx|].
  cbn [map] in Hnd. apply NoDup_cons in Hnd as [Ha Hnd].
  assert (Hin : ∀ z, z ∈ l → f z ∈ map f l).
  { intros z Hz. apply list_elem_of_In, in_map. by apply list_elem_of_In. }
  apply elem_of_cons in Hx as [->|Hx]; apply elem_of_cons in Hy as [->|Hy].
  - done.
  - destruct Ha. rewrite Hf. by apply Hin.
  - destruct Ha. rewrite <- Hf. by apply Hin.
  - by apply IH.
Qed.

(** X24: when no two nodes of the tree have the same path, the entry of
    [modBoxes] for the path of a node is the box of that node: its position
    and its size in the tree the layout returns, which is the rectangle
    [renderBoxes] draws. *)
Theorem modBoxes_exact (measureText : string → Q → Q) (root : node unit) :
  NoDup (map path (subtrees root)) →
  ∀ m, m ∈ subtrees (layout measureText root).1.1 →
       (layout measureText root).2 !! path m = Some (node_box m).
Proof.
  intros Hnd m Hm. unfold layout in *.
  destruct (computePositions_ok (computeSize measureText root)
              (computeSize_well_sized measureText root) 0 0 ∅ ∅)
    as (_ & _ & _ & Hmb & Hall & _).
  destruct (Hall m Hm) as [[b Hb] _]. rewrite Hb. f_equal.
  destruct (Hmb _ _ Hb) as [He|(m' & Hm' & Hp & ->)].
  { by rewrite lookup_empty in He. }
  f_equal. symmetry. eapply (NoDup_map_eq path); [|exact Hm|exact Hm'|exact Hp].
  by rewrite paths_computePositions, paths_computeSize.
Qed.

(** X24 on the tree of the scenario, at its root. *)
Lemma modBoxes_exact_witness :
  NoDup (map path (subtrees Router.sample_tree)) ∧
  (layout Router.sample_measure Router.sample_tree).2
    !! path (layout Router.sample_measure Router.sample_tree).1.1
  = Some (node_box (layout Router.sample_measure Router.sample_tree).1.1).
Proof.
  assert (H : NoDup (map path (subtrees Router.sample_tree))).
  { refine (bool_decide_unpack _ _). by vm_compute. }
  split; [exact H|].
  exact (modBoxes_exact Router.sample_measure Router.sample_tree H _
           (subtrees_self _)).
Defined.

Lemma labels_concat {A B} (f : node A → node B) cs :
  Forall (λ c, map label (subtrees (f c)) = map label (subtrees c)) cs →
  map label (concat (map subtrees (map f cs)))
  = map label (concat (map subtrees cs)).
Proof.
  induction 1 as [|c cs Hc _ IH]; [done|]. cbn [map concat].
  by rewrite !map_app, Hc, IH.
Qed.

Lemma labels_computeSize measureText n :
  map label (subtrees (computeSize measureText n)) = map label (subtrees n).
Proof.
  induction n as [nm p d fs a cs IH] using node_ind'.
  cbn [computeSize subtrees map]. f_equal. by apply labels_concat.
Qed.

Lemma labels_childLoop place (cs : list (node size)) :
  Forall (λ c, ∀ X fb mb,
            map label (subtrees (place c X fb mb).1.1)
            = map label (subtrees c))
         cs →
  ∀ X fb mb,
    map label (concat (map subtrees (childLoop place cs X fb mb).1.1))
    = map label (concat (map subtrees cs)).
Proof.
  induction 1 as [|c cs Hc _ IH]; intros X fb mb; [done|].
  rewrite childLoop_cons. cbn [fst snd map concat].
  by rewrite !map_app, Hc, IH.
Qed.

Lemma labels_computePositions n : ∀ x0 y0 fb mb,
  map label (subtrees (computePositions n x0 y0 fb mb).1.1)
  = map label (subtrees n).
Proof.
  induction n as [nm p d fs s cs IH] using node_ind'.
  intros x0 y0 fb mb. rewrite computePositions_eq.
  cbn [subtrees map]. f_equal. apply labels_childLoop.
  eapply Forall_impl; [exact IH|]. intros c Hc X fb' mb'. apply Hc.
Qed.

Lemma labels_layout measureText root m :
  m ∈ subtrees (layout measureText root).1.1 →
  ∃ m0, m0 ∈ subtrees root ∧ path m0 = path m ∧ functions m0 = functions m.
Proof.
  intros Hm.
  assert (Hl : label m ∈ map label (subtrees root)).
  { unfold layout in Hm.
    rewrite <- (labels_computeSize measureText),
      <- (labels_computePositions _ 0 0 ∅ ∅).
    apply list_elem_of_In, in_map. by apply list_elem_of_In. }
  apply list_elem_of_In, in_map_iff in Hl as (m0 & Hl & Hm0).
  exists m0. split; [by apply list_elem_of_In|].
  unfold label in Hl. by injection Hl.
Qed.

End LayoutBoxes.

(** ** The module edges *)

Module ParserEdges.
Import Parser ParserSpec ParserFacts ParserMore StringFacts.

Section with_libraries.

Variable strip : string → string.
Variable finditer_mod : string → list (string * string).
Variable finditer_def : string → list (string * string).
Variable finditer_ref : string → list (string * string).
Variable path_child : string → string → string.
Variable normpath_join : string → string → string.

Local Abbreviation parse_speck_tree :=
  (Parser.parse_speck_tree strip finditer_mod finditer_def finditer_ref
     path_child normpath_join).
Local Abbreviation own_edges :=
  (Parser.own_edges finditer_def finditer_ref normpath_join).

(** The names the patterns of [parse_module] capture are words. *)
Hypothesis def_names : ∀ content m,
  m ∈ finditer_def content → colonfree m.1 = true.
Hypothesis ref_names : ∀ body m,
  m ∈ finditer_ref body → colonfree m.2 = true.




End with_libraries.


End ParserEdges.

(** ** The boxes a box contains *)

Module LayoutContains.
Import Layout LayoutFacts LayoutRows LayoutMore LayoutBoxes StringFacts.
Local Open Scope Q_scope.

(** C3 (as amended): after [computeSize] and [computePositions] from the
    root, the box of every node of the tree contains the box of each of its
    children; when no two nodes of the tree have the same path and no
    function name holds a colon, the box recorded for each function of a
    node lies inside the box of that node; whatever the tree, every box
    recorded for a function lies inside the box of some node with the path
    the function was recorded under; the boxes recorded for modules are the
    boxes of the nodes; every node and every function has its box; and the
    click and button handlers, which change the Expanded-Set, leave both
    dictionaries of boxes as they are. *)
Theorem layout_contains (measureText : string → Q → Q) (root : node unit) :
  (∀ m c, m ∈ subtrees (layout measureText root).1.1 → c ∈ childNodes m →
          inside (node_box c) (node_box m)) ∧
  (NoDup (map path (subtrees root)) →
   (∀ m f, m ∈ subtrees root → f ∈ functions m → colonfree f = true) →
   ∀ m f, m ∈ subtrees (layout measureText root).1.1 → f ∈ functions m →
          ∃ b, (layout measureText root).1.2 !! (path m +:+ "::" +:+ f)
               = Some b ∧
               inside b (node_box m)) ∧
  (∀ id b, (layout measureText root).1.2 !! id = Some b →
           ∃ m f, m ∈ subtrees (layout measureText root).1.1 ∧
                  f ∈ functions m ∧ id = path m +:+ "::" +:+ f ∧
                  inside b (node_box m)) ∧
  (∀ p b, (layout measureText root).2 !! p = Some b →
          ∃ m, m ∈ subtrees (layout measureText root).1.1 ∧
               p = path m ∧ b = node_box m) ∧
  (∀ m, m ∈ subtrees (layout measureText root).1.1 →
        is_Some ((layout measureText root).2 !! path m) ∧
        ∀ f, f ∈ functions m →
             is_Some ((layout measureText root).1.2
                        !! (path m +:+ "::" +:+ f))) ∧
  (∀ show module_paths path ctrl pg,
     Router.fnBoxes (Router.on_click show module_paths path ctrl pg)
     = Router.fnBoxes pg ∧
     Router.modBoxes (Router.on_click show module_paths path ctrl pg)
     = Router.modBoxes pg ∧
     Router.fnBoxes (Router.on_expand_all show module_paths pg)
     = Router.fnBoxes pg ∧
     Router.modBoxes (Router.on_expand_all show module_paths pg)
     = Router.modBoxes pg ∧
     Router.fnBoxes (Router.on_collapse_all show path pg) = Router.fnBoxes pg ∧
     Router.modBoxes (Router.on_collapse_all show path pg)
     = Router.modBoxes pg).
Proof.
  pose proof (labels_layout measureText root) as Hlabels.
  assert (Hpaths : map path (subtrees (layout measureText root).1.1)
                   = map path (subtrees root)).
  { unfold layout. by rewrite paths_computePositions, paths_computeSize. }
  unfold layout in *.
  destruct (computePositions_ok (computeSize measureText root)
              (computeSize_well_sized measureText root) 0 0 ∅ ∅)
    as (_ & Htree & Hfb & Hmb & Hsome & _).
  assert (Hfb' : ∀ id b,
             (computePositions (computeSize measureText root) 0 0 ∅ ∅).1.2
               !! id = Some b →
             ∃ m f,
               m ∈ subtrees (computePositions (computeSize measureText root)
                               0 0 ∅ ∅).1.1 ∧
               f ∈ functions m ∧ id = path m +:+ "::" +:+ f ∧
               inside b (node_box m)).
  { intros id b Hb. apply Hfb in Hb as [Hb|Hb]; [|done].
    by rewrite lookup_empty in Hb. }
  split; [exact Htree|]. split; [|split; [exact Hfb'|split; [|split]]].
  - intros Hnd Hcolon m f Hm Hf.
    destruct (Hsome m Hm) as [_ Hfs]. destruct (Hfs f Hf) as [b Hb].
    exists b. split; [done|].
    destruct (Hfb' _ _ Hb) as (m' & f' & Hm' & Hf' & Hid & Hin).
    assert (Hcf : colonfree f = true).
    { destruct (Hlabels m Hm) as (m0 & Hm0 & _ & Hfun).
      apply (Hcolon m0); [done|]. by rewrite Hfun. }
    assert (Hcf' : colonfree f' = true).
    { destruct (Hlabels m' Hm') as (m0 & Hm0 & _ & Hfun).
      apply (Hcolon m0); [done|]. by rewrite Hfun. }
    assert (Hp : path m = path m').
    { rewrite <- (rsplit_first_owner (path m) f Hcf), Hid.
      by apply rsplit_first_owner. }
    assert (m = m') as ->; [|done].
    eapply (NoDup_map_eq path); [|exact Hm|exact Hm'|exact Hp].
    by rewrite Hpaths.
  - intros p b Hb. apply Hmb in Hb as [Hb|Hb]; [|done].
    by rewrite lookup_empty in Hb.
  - exact Hsome.
  - intros show module_paths path ctrl pg. unfold Router.on_click.
    by case_decide.
Qed.

(** C3 on the tree of the scenario: the boxes of [root/a] and of its function
    [foo], and the box of the root that contains them. *)
Lemma layout_contains_witness :
  NoDup (map path (subtrees Router.sample_tree)) ∧
  (∀ m f, m ∈ subtrees Router.sample_tree → f ∈ functions m →
          colonfree f = true) ∧
  (layout Router.sample_measure Router.sample_tree).2 !! "root"
  = Some (Box 0 0 400 256 None) ∧
  (layout Router.sample_measure Router.sample_tree).2 !! "root/a"
  = Some (Box 230 88 140 118 None) ∧
  (layout Router.sample_measure Router.sample_tree).1.2 !! "root/a::foo"
  = Some (Box 260 126 80 30 (Some "foo")) ∧
  ∃ b, (layout Router.sample_measure Router.sample_tree).1.2
         !! (path (layout Router.sample_measure Router.sample_tree).1.1
             +:+ "::" +:+ "main") = Some b ∧
       inside b (node_box (layout Router.sample_measure
                             Router.sample_tree).1.1).
Proof.
  assert (Hnd : NoDup (map path (subtrees Router.sample_tree))).
  { refine (bool_decide_unpack _ _). by vm_compute. }
  assert (Hcolon : ∀ m f, m ∈ subtrees Router.sample_tree →
                          f ∈ functions m → colonfree f = true).
  { intros m f Hm Hf. unfold Router.sample_tree in Hm.
    cbn [subtrees map concat app] in Hm.
    repeat (apply elem_of_cons in Hm as [->|Hm]);
      [| | |by apply elem_of_nil in Hm];
      cbn [functions] in Hf; apply list_elem_of_singleton in Hf as ->; done. }
  split; [exact Hnd|]. split; [exact Hcolon|].
  split; [by vm_compute|]. split; [by vm_compute|]. split; [by vm_compute|].
  apply (proj1 (proj2 (layout_contains Router.sample_measure
                         Router.sample_tree)) Hnd Hcolon);
    [apply subtrees_self | by vm_compute; left].
Defined.

(** C3 as stated fails on a tree that holds a path twice (a root file that
    declares [mod a] twice): both nodes record the box of [foo] under
    [root/a::foo], the second last, and the box lies outside the first
    node. *)
Lemma layout_repeated_path_function_outside :
  Node "a" "root/a" 1 ["foo"] (Placed (Size 140 118 30 0) 30 38) []
  ∈ subtrees (layout Router.sample_measure Router.twice_tree).1.1 ∧
  "foo" ∈ functions
            (Node "a" "root/a" 1 ["foo"] (Placed (Size 140 118 30 0) 30 38)
               []) ∧
  (layout Router.sample_measure Router.twice_tree).1.2
    !! (path (Node "a" "root/a" 1 ["foo"] (Placed (Size 140 118 30 0) 30 38)
                [])
        +:+ "::" +:+ "foo")
  = Some (Box 260 76 80 30 (Some "foo")) ∧
  ¬ inside (Box 260 76 80 30 (Some "foo"))
      (node_box (Node "a" "root/a" 1 ["foo"]
                   (Placed (Size 140 118 30 0) 30 38) [])).
Proof.
  split; [|split; [|split]].
  - vm_compute. apply list_elem_of_further, list_elem_of_here.
  - cbn [functions]. apply list_elem_of_here.
  - by vm_compute.
  - unfold inside. cbn [node_box ann sz x y w h bx by_ bw bh].
    intros (_ & H & _). lra.
Qed.

End LayoutContains.

(** ** Where an arrow starts and ends, and the boxes around its ends *)

Module RouterTouch.
Import Layout Visibility Router RouterRel RouterBorder StringFacts
  VisibilityFacts VisibilityMore RouterFacts.

Lemma prefix_app_same a b c :
  String.prefix (a +:+ b) (a +:+ c) = String.prefix b c.
Proof.
  induction a as [|x a IH]; [by rewrite !append_nil_l|].
  rewrite !append_cons. cbn [String.prefix].
  by destruct (ascii_dec x x).
Qed.

Lemma split_go_head sep s : ∀ acc,
  ∃ h rest, split_go sep 0 acc s = h :: rest ∧
            (acc +:+ s = h ∨ ∃ r, acc +:+ s = (h +:+ sep) +:+ r).
Proof.
  induction s as [|c s IH]; intros acc.
  - exists acc, []. split; [done|]. left. apply append_nil_r.
  - cbn [split_go]. destruct (String.prefix sep (String c s)) eqn:Hp.
    + eexists acc, _. split; [done|]. right.
      apply prefix_app_iff in Hp as [r Hr]. exists r.
      by rewrite Hr, append_assoc.
    + destruct (IH (acc +:+ String c "")) as (h & rest & Heq & Hh).
      exists h, rest. split; [done|].
      by rewrite append_assoc, append_cons, append_nil_l in Hh.
Qed.

Lemma owner_prefix fnId :
  fnId = owner fnId ∨ ∃ r, fnId = (owner fnId +:+ "::") +:+ r.
Proof.
  unfold owner, split.
  destruct (split_go_head "::" fnId "") as (h & rest & -> & Hh).
  rewrite append_nil_l in Hh. exact Hh.
Qed.

Lemma join_app l1 l2 :
  l1 ≠ [] → l2 ≠ [] →
  join "/" (l1 ++ l2) = join "/" l1 +:+ "/" +:+ join "/" l2.
Proof.
  induction l1 as [|x l1 IH]; intros H1 H2; [done|].
  destruct l1 as [|y l1].
  - cbn [app]. by rewrite join_cons.
  - change ((x :: y :: l1) ++ l2) with (x :: ((y :: l1) ++ l2)).
    rewrite !join_cons by done. rewrite IH by done.
    by rewrite !append_assoc.
Qed.

Lemma chain_related fnId a :
  a ∈ chain fnId → a = fnId ∨ isAncestorOf a fnId = true.
Proof.
  unfold chain. intros Ha.
  apply elem_of_prefix_paths in Ha as (k & Hk & ->).
  pose proof (join_split (owner fnId)) as Hjoin.
  destruct (decide (k = length (split "/" (owner fnId)))) as [->|Hlt].
  - rewrite firstn_all, Hjoin.
    destruct (owner_prefix fnId) as [<-|[r Hr]]; [by left|].
    right. unfold isAncestorOf. apply orb_true_iff. right.
    apply prefix_app_iff. by exists r.
  - right. unfold isAncestorOf. apply orb_true_iff. left.
    apply prefix_app_iff.
    rewrite <- (take_drop k (split "/" (owner fnId))) in Hjoin.
    rewrite join_app in Hjoin.
    + set (a := join "/" (take k (split "/" (owner fnId)))) in *.
      set (D := join "/" (drop k (split "/" (owner fnId)))) in *.
      destruct (owner_prefix fnId) as [Heq|[r Hr]].
      * exists D. etrans; [exact Heq|]. by rewrite <- Hjoin, !append_assoc.
      * exists (D +:+ "::" +:+ r). etrans; [exact Hr|].
        by rewrite <- Hjoin, !append_assoc.
    + intros Hnil. apply (f_equal length) in Hnil.
      rewrite length_take in Hnil. simpl in Hnil. lia.
    + intros Hnil. apply (f_equal length) in Hnil.
      rewrite length_drop in Hnil. simpl in Hnil. lia.
Qed.

Lemma blocking_unrelated (x1 y1 x2 y2 : Q) sourceId targetId obstacles o :
  o ∈ findBlockingBoxes x1 y1 x2 y2 sourceId targetId obstacles →
  id o ≠ sourceId ∧ id o ≠ targetId ∧
  isAncestorOf (id o) sourceId = false ∧ isAncestorOf (id o) targetId = false.
Proof.
  unfold findBlockingBoxes. cbn zeta. intros Ho.
  apply list_elem_of_In, filter_In in Ho as [_ Ho].
  apply andb_true_iff in Ho as [Ho _]. apply andb_true_iff in Ho as [Ho _].
  apply andb_true_iff in Ho as [Ho _]. apply andb_true_iff in Ho as [Hid Hanc].
  apply negb_true_iff, orb_false_iff in Hid as [Hs Ht].
  apply bool_decide_eq_false in Hs, Ht.
  apply negb_true_iff, orb_false_iff in Hanc as [Has Hat].
  done.
Qed.

(** X25: the box of the module that owns an end of an arrow, and the boxes
    of the modules around it, are never among the boxes the arrow is routed
    around, wherever the obstacles are. *)
Theorem enclosing_boxes_never_block (x1 y1 x2 y2 : Q) sourceId targetId
    obstacles o :
  id o ∈ chain sourceId ∨ id o ∈ chain targetId →
  o ∉ findBlockingBoxes x1 y1 x2 y2 sourceId targetId obstacles.
Proof.
  intros Hchain Ho.
  apply blocking_unrelated in Ho as (Hs & Ht & Has & Hat).
  destruct Hchain as [H|H]; apply chain_related in H as [H|H]; congruence.
Qed.

Lemma enclosing_boxes_never_block_witness :
  (id (Obstacle "root/b" 0 0 400 200) ∈ chain "root/b::bar" ∨
   id (Obstacle "root/b" 0 0 400 200) ∈ chain "root/a::foo") ∧
  (Obstacle "root/b" 0 0 400 200
   ∉ findBlockingBoxes 110 53 220 53 "root/b::bar" "root/a::foo"
       [Obstacle "root" 0 0 400 200; Obstacle "root/b" 0 0 400 200]).
Proof.
  assert (H : id (Obstacle "root/b" 0 0 400 200) ∈ chain "root/b::bar" ∨
              id (Obstacle "root/b" 0 0 400 200) ∈ chain "root/a::foo").
  { left. vm_compute. set_solver. }
  split; [exact H|].
  exact (enclosing_boxes_never_block 110 53 220 53 "root/b::bar" "root/a::foo"
           _ _ H).
Defined.

Local Open Scope Q_scope.

(** X26: for two boxes of non-negative width and height that are connected
    side to side, or one above the other with overlapping horizontal spans,
    the arrow starts on the border of the source box and ends on the border
    of the target box grown by [ARROW_W] on every side. *)
Theorem connectionPoints_touch (s t : box) :
  0 <= bw s → 0 <= bh s → 0 <= bw t → 0 <= bh t →
  vGap s t <= hGap s t ∨ overlapL s t < overlapR s t →
  on_border s (sx (connectionPoints s t)) (sy (connectionPoints s t)) ∧
  on_border (grown ARROW_W t) (tx (connectionPoints s t))
            (ty (connectionPoints s t)).
Proof.
  intros Hws Hhs Hwt Hht Hcase. unfold connectionPoints, on_border, grown.
  fold (overlapL s t) (overlapR s t). cbn [bx by_ bw bh].
  destruct (Qle_bool (vGap s t) (hGap s t)) eqn:Hgap.
  - destruct (Qle_bool (bx s + bw s / 2) (bx t + bw t / 2));
      cbn [sx sy tx ty]; unfold ARROW_W, Qdiv; change (/ 2) with (1 # 2);
      split; left;
      (split; [first [left; lra | right; lra] | split; lra]).
  - apply Qle_bool_false in Hgap.
    destruct Hcase as [Hle|Hov]; [exfalso; lra|].
    pose proof (Q.le_max_l (bx s) (bx t)) as HL1.
    pose proof (Q.le_max_r (bx s) (bx t)) as HL2.
    pose proof (Q.le_min_l (bx s + bw s) (bx t + bw t)) as HR1.
    pose proof (Q.le_min_r (bx s + bw s) (bx t + bw t)) as HR2.
    fold (overlapL s t) in HL1, HL2. fold (overlapR s t) in HR1, HR2.
    apply Qltb_true in Hov as Hb. rewrite Hb.
    destruct (Qle_bool (by_ s + bh s / 2) (by_ t + bh t / 2));
      cbn [sx sy tx ty]; unfold ARROW_W, Qdiv; change (/ 2) with (1 # 2);
      split; right;
      (split; [first [left; lra | right; lra] | split; lra]).
Qed.

Lemma connectionPoints_touch_witness :
  on_border (Box 0 0 100 50 None)
    (sx (connectionPoints (Box 0 0 100 50 None) (Box 40 300 100 50 None)))
    (sy (connectionPoints (Box 0 0 100 50 None) (Box 40 300 100 50 None))) ∧
  on_border (grown ARROW_W (Box 40 300 100 50 None))
    (tx (connectionPoints (Box 0 0 100 50 None) (Box 40 300 100 50 None)))
    (ty (connectionPoints (Box 0 0 100 50 None) (Box 40 300 100 50 None))).
Proof.
  apply connectionPoints_touch; cbn [bw bh]; try lra.
  right. by vm_compute.
Defined.

Lemma ends_here (tail : string) : ∃ mid, tail = mid +:+ tail.
Proof. exists "". by rewrite append_nil_l. Qed.

Lemma ends_later (a rest tail : string) :
  (∃ mid, rest = mid +:+ tail) → ∃ mid, a +:+ rest = mid +:+ tail.
Proof. intros [mid ->]. exists (a +:+ mid). by rewrite append_assoc. Qed.

Ltac find_end := repeat first [apply ends_here | apply ends_later].

Section with_printer.

Variable show : Q → string.

(** X27: whatever the obstacles, the path of an arrow starts with a move
    to the source connection point and ends with a line to the target
    connection point, whether it is straight, bent or rerouted. *)
Theorem computeArrowPath_ends (s t : box) sourceId targetId obstacles :
  ∃ mid,
    computeArrowPath show s t sourceId targetId obstacles
    = "M " +:+ show (sx (connectionPoints s t)) +:+ sp
      +:+ show (sy (connectionPoints s t))
      +:+ mid
      +:+ " L " +:+ show (tx (connectionPoints s t)) +:+ sp
      +:+ show (ty (connectionPoints s t)).
Proof.
  assert (G : ∀ path tail head1 head2 head3 head4 : string,
             (∃ mid, path = mid +:+ tail) →
             ∃ mid,
               head1 +:+ head2 +:+ head3 +:+ head4 +:+ path
               = head1 +:+ head2 +:+ head3 +:+ head4 +:+ mid +:+ tail).
  { intros path tail h1 h2 h3 h4 [mid ->]. by exists mid. }
  unfold computeArrowPath. cbn zeta.
  destruct (findBlockingBoxes _ _ _ _ sourceId targetId obstacles) as [|b bs].
  - unfold orthogonalPath. cbn zeta.
    repeat match goal with
           | |- context [if ?c then _ else _] => destruct c
           end; apply G; find_end.
  - unfold reroutedPath. cbn zeta. apply G. find_end.
Qed.

End with_printer.

End RouterTouch.
